(* ===== verification/_CoqProject ===== *)
-Q . S2P
Prelude.v
GoError.v
Channel.v
GoMap.v
GitTypes.v
GitService.v
Machine.v
MemGit.v
Examples.v
Semantics.v
Sequential.v
Invariants.v
Branches.v
WellFormed.v
Refinement.v
Complete.v
EndToEnd.v
Main.v
