(* ===== verification/Prelude.v ===== *)
(** * A verification development for [src/main.go]

    ** The program

    [src/main.go] commits a set of local files to a branch of a repository
    hosted behind the GitHub Git-data API.  It has two functions.

    - [commitMultipleFiles] (lines 14-90) is the whole logic: it looks the
      branch reference up ([GetRef]), starts one goroutine per file that
      uploads the file's content as a blob ([CreateBlob]) and sends the
      outcome on a channel [results] buffered to [len(files)], receives
      [len(files)] outcomes and turns each into a tree entry (or returns at
      the first failed one), creates a tree from the entries with an empty
      base tree ([CreateTree]), creates a parentless commit ([CreateCommit])
      and forces the branch onto it ([UpdateRef] with [force = true]).
      Every failing call is returned at once, wrapped by [fmt.Errorf] with
      the [%w] verb.
    - [main] (lines 92-147) reads [GITHUB_TOKEN], reads the hard-coded list
      of local files into a map, builds the API client, calls
      [commitMultipleFiles], and reports through [log.Fatal*] and [fmt].

    ** The files of the development, in dependency order

    - [Prelude] (this file): the [result] type of fallible calls with its
      bind in [go_scope]; the tactics ([case_all], [destruct_pairs],
      [solve_perm] for permutations up to associativity and commutativity
      of [++]); the hint databases [go] (for [auto]) and [go_rw] (for
      [autorewrite]); the lemmas on lists, options and strings the
      components share ([extract] and [shuffle], the reorderings chosen by
      a list of indices; sums and partial maps over a list updated at one
      index; cancellation of string concatenation).
    - [GoError]: Go [error] values as the program builds them:
      [errorString] for the library's errors and [wrapError] for
      [fmt.Errorf("...%w", err)]; [Error] and [Unwrap]; the five
      wrappings of the program ([stage_error]) and that a returned error
      names its stage ([stage_error_inj]).
    - [Channel]: the buffered channel [results]: [chan_make], [chan_send]
      (refuses when the buffer is full: the sender blocks), [chan_recv]
      (refuses when it is empty: the receiver blocks), with the lemmas on
      length and capacity the invariants use.
    - [GoMap]: the iteration order of [range] over a Go map, which the
      language leaves unspecified: [range_order seed m] is the order chosen
      by a list of indices; every order it gives is a permutation of the
      map's entries and every permutation is given by some seed.
    - [GitTypes]: the records of the go-github client the program touches
      ([Reference], [GitObject], [Blob], [TreeEntry], [Tree], [Commit]),
      pointer fields as [option], each in a Module of its own, with the
      getters the program calls ([GetSHA], [GetHTMLURL]).
    - [GitService]: the interface of the hosting service as a typeclass:
      the five remote calls as state transformers on an abstract server
      state; calls as values ([call]) and the server after a list of calls
      ([replay]).  The theorems on the program are proved for every
      instance of the class.  A second class, [GitLaws], states what the
      service promises about its references: [GetRef] and the calls that
      create objects move none, a failed [UpdateRef] moves none, and one
      that goes well moves the reference it names, which existed, to the
      object it names.
    - [Machine]: [commitMultipleFiles] as a small-step machine.  A
      configuration holds the server state, the channel, the pool of
      goroutines ([WStart], [WSend], [WDone]), the program counter of the
      calling goroutine (one constructor per blocking or remote operation
      of lines 18-89), the log of the calls made (a history variable) and
      the lines printed.  [step_main] and [step_worker] are the steps of the
      caller and of the i-th goroutine; [rule] gives the same steps branch
      by branch; [step] interleaves them; a schedule (a list of numbers,
      each choosing among the enabled threads) drives the executable [run],
      and [commitMultipleFiles] runs a schedule until the caller returns.
    - [MemGit]: a reference implementation of the service interface (an
      in-memory object store addressed by content, one repository, bearer
      token, a plan of injected faults): the instance the witnesses run on
      and the one on which the effect of a call on a repository is stated;
      it keeps the laws of [GitLaws].
    - [Examples]: concrete servers, arguments and configurations.
    - [Semantics]: [step_main] and [step_worker] compute exactly the steps
      of [rule]; schedules reach exactly the configurations [step] reaches;
      induction over the reachable configurations.
    - [Sequential]: the reference program: the uploads one after the other
      in some order, their results taken in some order, then the three last
      calls ([sequential]); its calls on each branch.
    - [Invariants]: the counting invariant of the machine and what follows
      from it: the channel never holds more than its capacity and no send
      blocks, no goroutine is left blocked (also after an early return),
      absence of deadlock, the bound [4 * len(files) + 4] on the length of
      every run, termination of [commitMultipleFiles] under every schedule;
      and the lemma that the server is the one the calls of the log leave
      ([remote_replay]).
    - [Branches]: against [GitLaws], for every server that keeps them: as
      long as the function has not returned nil no reference has moved;
      when it returns nil the branch it was given, and no other reference,
      is on the commit the server answered to the call of [CreateCommit],
      the one the reference sent to [UpdateRef] names by line 82.
    - [WellFormed]: the shape of the requests, as an invariant of the log:
      every call names the repository of the call, every tree is
      [len(files)] file entries on the empty base tree, every commit is
      parentless, every update is forced and names an object.
    - [Refinement]: the machine refines the sequential program.  The
      invariant [refine_inv] accounts, while the goroutines run, for every
      file (uploaded, about to be uploaded, or yet to be given to a
      goroutine) and every result (received, in the channel, or about to
      be sent) as the answer of the server to the upload of its file; past
      the receiving loop it says that what is left of the function is what
      the sequential program does from there.  From it: when nothing moves
      any more the outcome, the server, the calls and the output are those
      of the sequential program for some orders; the calls of a run that
      returns nil, with the tree and the commit the server answered; the
      calls made before each error and the cause of the error of a failed
      upload; when the function panics; and what an early return at a
      failed upload leaves behind: every file uploaded all the same and
      the results not received still in the channel.
    - [Complete]: the converse of [Refinement]: for every order of the
      uploads and every order of their results a schedule is built, stage
      by stage (the starts, the calls of the goroutines, their sends, the
      receives, the three last calls), under which the machine leaves what
      the sequential program leaves; so the complete runs of the machine
      and the runs of the sequential program have the same results.
    - [EndToEnd]: on [MemGit], when the server serves the client and the
      branch exists, [commitMultipleFiles] returns nil and leaves the branch
      on a parentless commit whose tree is exactly the files, for every
      order of the map and every schedule; when the branch does not exist
      it returns the error of [GetRef] and leaves the server as it was.
    - [Main]: [main] as a function of the world it runs in (the
      environment, [os.ReadFile], the server, the order of the map, the
      schedules, the text of the duration): the exit status, the lines on
      the standard output and through [log], the server left.  It exits
      before any call without a token or a readable file, always exits
      with status 0, 1 or 2, and on [MemGit] commits [main.go].

    ** How the model corresponds to the code

    Remote calls are atomic transitions of the server state, one per HTTP
    request; the client library and the network are not modelled beyond
    that (a failed request is an [Err] answer of the service).  The context
    passed to the calls is [context.Background()], which is never cancelled,
    and is left out.  A step of a thread is one operation on what the
    threads share (a call, a send, a receive, the start of a goroutine)
    with the local computation that follows it up to the next such
    operation.  The nondeterminism of the program is explicit: the order of
    [range files] and the schedule of the goroutines are arguments, and the
    theorems quantify over them.  [ref.Object.SHA = commit.SHA]
    dereferences [ref.Object]; a reference answered without an object makes
    the model panic, as the program would.  A send on a channel without
    buffer hands its value to a receiver that waits; the machine has the
    rule, which the capacity [len(files)] makes unreachable.

    ** Bounds and fuel

    [commitMultipleFiles] runs with fuel [4 * len(files) + 4]: the caller
    takes at most [2 * len(files) + 4] steps ([GetRef], the starts, the
    receives, the three last calls) and each of the [len(files)] goroutines
    two (its call, its send); [Invariants] proves that every step lowers a
    measure that starts at that bound, so the fuel never runs out before
    the caller returns.  The fuel of [is_ancestor] in [MemGit] is the
    number of commits of the store; no theorem depends on it, since the
    program forces its update.

    ** Not modelled

    The HTTP transport, JSON encoding, OAuth2 token source and rate
    limiting of the client library (the token is carried by [Client] and
    checked by the service); wall-clock time (the text printed for the
    duration is a field of the world of [main]); the time stamps [log] puts
    before its messages and the trace the runtime prints after a panic. *)

From stdpp Require Import prelude strings list.
From AAC_tactics Require Import AAC.
From AAC_tactics Require Instances.
Export Instances.Lists.

#[export] Set Warnings "-clear-no-such-hyp".

Declare Scope go_scope.
Delimit Scope go_scope with go.

(** ** Fallible calls

    A Go call returning [(T, error)] answers [Ok v] (the error is nil) or
    [Err e]. *)
Inductive result (E A : Type) : Type :=
| Ok (a : A)
| Err (e : E).
Arguments Ok {E A} a.
Arguments Err {E A} e.

Definition result_bind {E A B} (r : result E A) (k : A → result E B) : result E B :=
  match r with
  | Ok a => k a
  | Err e => Err e
  end.

Definition result_map {E A B} (f : A → B) (r : result E A) : result E B :=
  match r with
  | Ok a => Ok (f a)
  | Err e => Err e
  end.

Definition is_ok {E A} (r : result E A) : bool :=
  match r with
  | Ok _ => true
  | Err _ => false
  end.

Definition result_err {E A} (r : result E A) : option E :=
  match r with
  | Ok _ => None
  | Err e => Some e
  end.

Notation "x <-? e ;; k" := (result_bind e (fun x => k))
  (at level 100, e at next level, right associativity) : go_scope.

(** ** Choice of the k-th element

    [extract k l] takes the element at index [k] out of [l].  The map
    iteration order and the scheduler are both built from it. *)
Fixpoint extract {A} (k : nat) (l : list A) : option (A * list A) :=
  match l with
  | [] => None
  | x :: l' =>
      match k with
      | 0 => Some (x, l')
      | S k' =>
          match extract k' l' with
          | Some (y, r) => Some (y, x :: r)
          | None => None
          end
      end
  end.

(** [shuffle seed l] reorders [l]: each number of [seed] picks, modulo the
    number of elements left, the next element; what is left when the seed
    runs out keeps its order. *)
Fixpoint shuffle {A} (seed : list nat) (l : list A) : list A :=
  match seed with
  | [] => l
  | k :: seed' =>
      match extract (k `mod` length l) l with
      | Some (x, r) => x :: shuffle seed' r
      | None => l
      end
  end.

(** ** Tactics *)

(** Case analysis on every [match] and [if] of the goal and the context,
    closing the contradictory cases. *)
Ltac case_all := repeat (case_match; simplify_eq/=; try done).

(** Destruct the pairs and conjunctions of the context. *)
Ltac destruct_pairs :=
  repeat match goal with
    | p : _ * _ |- _ => destruct p
    | H : _ ∧ _ |- _ => destruct H
    | H : ∃ _, _ |- _ => destruct H
    end.

Create HintDb go discriminated.
Create Rewrite HintDb go_rw.

(** ** Lemmas *)

Section result_lemmas.
Context {E A B C : Type}.
Implicit Types (r : result E A) (f : A → result E B) (g : B → result E C).

Lemma result_bind_ok a f : result_bind (Ok a) f = f a.
Proof. done. Qed.

Lemma result_bind_err e f : result_bind (Err e) f = Err e.
Proof. done. Qed.

Lemma result_bind_ret r : result_bind r Ok = r.
Proof. by destruct r. Qed.

Lemma result_bind_assoc r f g :
  result_bind (result_bind r f) g = result_bind r (λ a, result_bind (f a) g).
Proof. by destruct r. Qed.

Lemma result_bind_inv_ok r f b :
  result_bind r f = Ok b → ∃ a, r = Ok a ∧ f a = Ok b.
Proof. destruct r; naive_solver. Qed.

Lemma result_err_None r : result_err r = None ↔ ∃ a, r = Ok a.
Proof. destruct r; naive_solver. Qed.

Lemma is_ok_true r : is_ok r = true ↔ ∃ a, r = Ok a.
Proof. destruct r; naive_solver. Qed.

End result_lemmas.

Section extract_lemmas.
Context {A : Type}.
Implicit Types (l r : list A) (x : A) (k : nat).

Lemma extract_Some k l x r :
  extract k l = Some (x, r) ↔ l !! k = Some x ∧ r = delete k l.
Proof.
  revert k x r. induction l as [|y l IH]; intros [|k] x r; simpl; try naive_solver.
  destruct (extract k l) as [[z r']|] eqn:Hk.
  - apply IH in Hk as [Hz ->]. naive_solver.
  - split; [done|]. intros [Hx ->].
    assert (extract k l = Some (x, delete k l)) as Hk'; [by apply IH|congruence].
Qed.

Lemma extract_lt k l : k < length l → is_Some (extract k l).
Proof.
  intros [x Hx]%lookup_lt_is_Some. exists (x, delete k l). by apply extract_Some.
Qed.

Lemma extract_None k l : extract k l = None ↔ length l ≤ k.
Proof.
  split.
  - intros Hn. destruct (decide (k < length l)) as [Hlt|]; [|lia].
    apply extract_lt in Hlt as [? ?]. congruence.
  - intros Hle. destruct (extract k l) as [[x r]|] eqn:Hk; [|done].
    apply extract_Some in Hk as [Hx%lookup_lt_Some _]. lia.
Qed.

Lemma extract_perm k l x r : extract k l = Some (x, r) → l ≡ₚ x :: r.
Proof.
  intros [Hx ->]%extract_Some. by apply delete_Permutation.
Qed.

Lemma extract_length k l x r : extract k l = Some (x, r) → length l = S (length r).
Proof. intros Hk%extract_perm. by rewrite Hk. Qed.

Lemma shuffle_perm seed l : shuffle seed l ≡ₚ l.
Proof.
  revert l. induction seed as [|k seed IH]; intros l; simpl; [done|].
  destruct (extract _ l) as [[x r]|] eqn:Hk; [|done].
  rewrite IH. symmetry. by eapply extract_perm.
Qed.

Lemma shuffle_length seed l : length (shuffle seed l) = length l.
Proof. by rewrite shuffle_perm. Qed.

Lemma shuffle_nil seed : shuffle seed (@nil A) = [].
Proof. apply Permutation_nil_r, shuffle_perm. Qed.

End extract_lemmas.

(** Reordering commutes with mapping. *)
Lemma extract_fmap {A B} (f : A → B) k (l : list A) :
  extract k (f <$> l) = (λ xr : A * list A, (f xr.1, f <$> xr.2)) <$> extract k l.
Proof.
  revert k. induction l as [|x l IH]; intros [|k]; simpl; try done.
  rewrite IH. by destruct (extract k l) as [[y r]|].
Qed.

Lemma shuffle_fmap {A B} (f : A → B) seed (l : list A) :
  shuffle seed (f <$> l) = f <$> shuffle seed l.
Proof.
  revert l. induction seed as [|k seed IH]; intros l; simpl; [done|].
  rewrite extract_fmap, length_fmap. destruct (extract _ l) as [[x r]|]; simpl; [|done].
  by rewrite IH.
Qed.

Section extract_complete.
Context {A : Type}.
Implicit Types (l r : list A) (x : A) (k : nat).

(** Every element of a list is at some index. *)
Lemma extract_elem_of x l : x ∈ l → ∃ k r, k < length l ∧ extract k l = Some (x, r).
Proof.
  intros [k Hk]%list_elem_of_lookup. exists k, (delete k l). split.
  - by eapply lookup_lt_Some.
  - by apply extract_Some.
Qed.

(** Every permutation of [l] is the order some seed gives. *)
Lemma shuffle_complete l l' : l' ≡ₚ l → ∃ seed, shuffle seed l = l'.
Proof.
  revert l. induction l' as [|x l' IH]; intros l Hp.
  - apply Permutation_nil_l in Hp as ->. by exists [].
  - assert (x ∈ l) as Hx by (rewrite <-Hp; apply list_elem_of_here).
    apply extract_elem_of in Hx as (k & r & Hlt & Hk).
    assert (l' ≡ₚ r) as Hr.
    { apply (Permutation_cons_inv (a:=x)). rewrite Hp. by eapply extract_perm. }
    destruct (IH r Hr) as [seed Hs]. exists (k :: seed). simpl.
    rewrite Nat.mod_small by done. by rewrite Hk, Hs.
Qed.

End extract_complete.

(** ** Sums over a list updated in place

    The counters of the machine (goroutines that have sent, steps left) are
    sums over the pool of goroutines, which steps update by index. *)
Section sum_lemmas.
Context {A : Type} (f : A → nat).
Implicit Types (l : list A) (x y : A) (i : nat).

Lemma sum_list_with_insert l i x y :
  l !! i = Some x → sum_list_with f (<[i:=y]> l) + f x = sum_list_with f l + f y.
Proof.
  revert i. induction l as [|z l IH]; intros [|i] Hi; simplify_eq/=; [lia|].
  specialize (IH i Hi). lia.
Qed.

Lemma sum_list_with_le_length l : (∀ x, f x ≤ 1) → sum_list_with f l ≤ length l.
Proof. intros Hf. induction l as [|x l IH]; simpl; [lia|]. specialize (Hf x). lia. Qed.

Lemma sum_list_with_lt_length l i x :
  (∀ x, f x ≤ 1) → l !! i = Some x → f x = 0 → sum_list_with f l < length l.
Proof.
  intros Hf Hi Hx.
  rewrite <-(take_drop_middle l i x Hi), sum_list_with_app, length_app. simpl.
  pose proof (sum_list_with_le_length (take i l) Hf).
  pose proof (sum_list_with_le_length (drop (S i) l) Hf). lia.
Qed.

Lemma sum_list_with_lt_length_inv l :
  (∀ x, f x ≤ 1) → sum_list_with f l < length l → ∃ i x, l !! i = Some x ∧ f x = 0.
Proof.
  intros Hf. induction l as [|x l IH]; simpl; [lia|]. intros Hlt.
  destruct (decide (f x = 0)) as [Hx|Hx]; [by exists 0, x|].
  specialize (Hf x). destruct IH as (i & y & Hi & Hy); [lia|]. by exists (S i), y.
Qed.

Lemma sum_list_with_zero l : sum_list_with f l = 0 ↔ Forall (λ x, f x = 0) l.
Proof.
  induction l as [|x l IH]; simpl; [by split|].
  rewrite Forall_cons, <-IH. lia.
Qed.

End sum_lemmas.

Lemma forallb_true_Forall {A} (f : A → bool) (l : list A) :
  forallb f l = true ↔ Forall (λ x, f x = true) l.
Proof.
  induction l as [|x l IH]; simpl; [by rewrite Forall_nil|].
  by rewrite andb_true_iff, Forall_cons, IH.
Qed.

(** ** Strings *)

Lemma string_list_app (s1 s2 : string) :
  String.list_ascii_of_string (s1 +:+ s2) =
    String.list_ascii_of_string s1 ++ String.list_ascii_of_string s2.
Proof. induction s1 as [|a s1 IH]; [done|]. cbn. by rewrite <-IH. Qed.

(** [+:+] cancels on the right as it does on the left. *)
Lemma string_app_inj_r (s1 s2 t : string) : s1 +:+ t = s2 +:+ t → s1 = s2.
Proof.
  intros Heq%(f_equal String.list_ascii_of_string).
  rewrite !string_list_app in Heq. apply app_inv_tail in Heq.
  rewrite <-(String.string_of_list_ascii_of_string s1), Heq.
  apply String.string_of_list_ascii_of_string.
Qed.

(** ** Partial maps over a list updated at one index *)

Section omap_lemmas.
Context {A B : Type} (f : A → option B).
Implicit Types (l : list A) (x y : A).

(** Updating an element by one with the same image changes nothing. *)
Lemma omap_insert_same l i x y :
  l !! i = Some x → f y = f x → omap f (<[i:=y]> l) = omap f l.
Proof.
  revert i. induction l as [|a l IH]; intros [|i] Hi Hf; simplify_eq/=; [by rewrite Hf|].
  by rewrite (IH i).
Qed.

(** Updating an element with an image by one without removes that image. *)
Lemma omap_insert_None l i x y b :
  l !! i = Some x → f x = Some b → f y = None → omap f l ≡ₚ [b] ++ omap f (<[i:=y]> l).
Proof.
  revert i. induction l as [|a l IH]; intros [|i] Hi Hx Hy; simplify_eq/=.
  - by rewrite Hx, Hy.
  - destruct (f a); simpl; rewrite (IH i Hi Hx Hy); [apply Permutation_swap|done].
Qed.

(** Updating an element without an image by one with an image adds it. *)
Lemma omap_insert_Some l i x y b :
  l !! i = Some x → f x = None → f y = Some b → omap f (<[i:=y]> l) ≡ₚ [b] ++ omap f l.
Proof.
  revert i. induction l as [|a l IH]; intros [|i] Hi Hx Hy; simplify_eq/=.
  - by rewrite Hx, Hy.
  - destruct (f a); simpl; rewrite (IH i Hi Hx Hy); [apply Permutation_swap|done].
Qed.

Lemma omap_snoc l x : omap f (l ++ [x]) = omap f l ++ option_list (f x).
Proof. rewrite omap_app. simpl. by destruct (f x). Qed.

Lemma omap_all_None l : Forall (λ x, f x = None) l → omap f l = [].
Proof. induction 1 as [|x l Hx _ IH]; simpl; [done|]. by rewrite Hx. Qed.

End omap_lemmas.

(** ** Permutations up to associativity and commutativity of [++] *)

#[export] Instance aac_lift_Permutation {A} : AAC_lift (@Permutation A) (@Permutation A).
Proof. split; apply _. Qed.

(** Writes every [x :: l] of the goal as [[x] ++ l]. *)
Ltac cons_to_app :=
  repeat match goal with
    | |- context [?x :: ?l] =>
        lazymatch l with
        | [] => fail
        | _ => change (x :: l) with ([x] ++ l)
        end
    end.

(** Proves a permutation between two concatenations of the same lists. *)
Ltac solve_perm :=
  rewrite ?fmap_app, ?fmap_cons, ?app_nil_r; simpl; cons_to_app; aac_reflexivity.

(** Proves a permutation that follows from the permutation [H] by
    rearranging concatenations. *)
Ltac solve_perm_using H := first [rewrite <-H|rewrite H]; solve_perm.

#[export] Hint Resolve shuffle_perm : go.
#[export] Hint Rewrite @shuffle_length @shuffle_nil : go_rw.
