(* ===== verification/GoError.v ===== *)
(** * Go error values

    The errors [commitMultipleFiles] returns: the error of a failed remote
    call, an opaque value of the client library of which only the message
    matters, wrapped by [fmt.Errorf] with the [%w] verb.  [Error] is the
    [Error()] method and [Unwrap] is [errors.Unwrap];
    [errGetRef], [errBlob], [errCreateTree], [errCreateCommit] and
    [errUpdateRef] are the five wrappings of [src/main.go]. *)

From stdpp Require Import prelude strings list.
From S2P Require Import Prelude.

(** An error is a message ([errors.New], or any error of a library), or the
    result of [fmt.Errorf] with one [%w]: the formatted message and the
    error it wraps. *)
Inductive error : Type :=
| errorString (s : string)
| wrapError (msg : string) (err : error).

#[export] Instance error_eq_dec : EqDecision error.
Proof. solve_decision. Defined.

(** The [Error()] method. *)
Definition Error (e : error) : string :=
  match e with
  | errorString s => s
  | wrapError msg _ => msg
  end.

(** [errors.Unwrap]. *)
Definition Unwrap (e : error) : option error :=
  match e with
  | errorString _ => None
  | wrapError _ err => Some err
  end.

(** [fmt.Errorf(prefix + "%w", err)]: the message is the prefix followed by
    the message of [err], and [err] is what [Unwrap] gives back. *)
Definition Errorf_w (prefix : string) (err : error) : error :=
  wrapError (prefix +:+ Error err) err.

(** The type of a call's answer [(T, error)]. *)
Abbreviation answer := (result error).

(** [fmt.Errorf("GetRef: %w", err)], line 20. *)
Definition errGetRef (err : error) : error := Errorf_w "GetRef: " err.

(** [fmt.Errorf("blob error for %s: %w", r.path, r.err)], line 54. *)
Definition errBlob (path : string) (err : error) : error :=
  Errorf_w ("blob error for " +:+ path +:+ ": ") err.

(** [fmt.Errorf("CreateTree: %w", err)], line 67. *)
Definition errCreateTree (err : error) : error := Errorf_w "CreateTree: " err.

(** [fmt.Errorf("CreateCommit: %w", err)], line 78. *)
Definition errCreateCommit (err : error) : error := Errorf_w "CreateCommit: " err.

(** [fmt.Errorf("UpdateRef: %w", err)], line 85. *)
Definition errUpdateRef (err : error) : error := Errorf_w "UpdateRef: " err.

(** The step of [commitMultipleFiles] an error comes from. *)
Inductive stage : Type :=
| StGetRef
| StBlob (path : string)
| StCreateTree
| StCreateCommit
| StUpdateRef.

#[export] Instance stage_eq_dec : EqDecision stage.
Proof. solve_decision. Defined.

(** The error returned when the call of stage [st] fails with [err]. *)
Definition stage_error (st : stage) (err : error) : error :=
  match st with
  | StGetRef => errGetRef err
  | StBlob path => errBlob path err
  | StCreateTree => errCreateTree err
  | StCreateCommit => errCreateCommit err
  | StUpdateRef => errUpdateRef err
  end.

(** ** Lemmas *)

Lemma Error_Errorf_w prefix err : Error (Errorf_w prefix err) = prefix +:+ Error err.
Proof. done. Qed.

Lemma Unwrap_Errorf_w prefix err : Unwrap (Errorf_w prefix err) = Some err.
Proof. done. Qed.

Lemma Unwrap_stage_error st err : Unwrap (stage_error st err) = Some err.
Proof. by destruct st. Qed.

(** The prefixes of the five wrappings differ, and the path is read back
    from the message of a failed upload: a returned error names its stage. *)
Lemma stage_error_inj st st' err err' :
  stage_error st err = stage_error st' err' → st = st' ∧ err = err'.
Proof.
  destruct st, st'; intros [= Hs He]; subst; try done;
    try (cbv [String.append] in Hs; discriminate).
  apply string_app_inj_r in Hs. apply (inj (String.app _)) in Hs.
  by apply string_app_inj_r in Hs as ->.
Qed.

#[export] Hint Rewrite Error_Errorf_w Unwrap_Errorf_w Unwrap_stage_error : go_rw.

(** The message of a returned error is the stage's prefix followed by
    the message of the failed call, as [fmt.Errorf] formats it. *)
Lemma stage_error_message (st : stage) (err : error) :
  Error (stage_error st err) =
    match st with
    | StGetRef => "GetRef: "
    | StBlob path => "blob error for " +:+ path +:+ ": "
    | StCreateTree => "CreateTree: "
    | StCreateCommit => "CreateCommit: "
    | StUpdateRef => "UpdateRef: "
    end +:+ Error err.
Proof. by destruct st. Qed.
