(* ===== verification/Channel.v ===== *)
(** * Buffered channels

    The channel [results] of [commitMultipleFiles]: a queue of at most
    [cap] elements.  [chan_send] and [chan_recv] answer [None] where the Go
    operation would block (the buffer is full, the buffer is empty); the
    machine leaves a thread whose operation answers [None] where it is.
    The hand-off of an unbuffered channel ([cap = 0]) needs the receiver
    and is a rule of the machine. *)

From stdpp Require Import prelude list.
From S2P Require Import Prelude.

Section chan.
Context {A : Type}.

(** A channel made by [make(chan A, cap)]: its capacity and the elements
    sent and not yet received, oldest first. *)
Record chan : Type := Chan { cap : nat; buf : list A }.

(** [make(chan A, n)]. *)
Definition chan_make (n : nat) : chan := {| cap := n; buf := [] |}.

(** [len(ch)]. *)
Definition chan_len (ch : chan) : nat := length (buf ch).

(** The buffer has no room: a send blocks. *)
Definition chan_full (ch : chan) : bool := bool_decide (cap ch ≤ chan_len ch).

(** [ch <- x]: the channel after the send, or [None] when the send blocks. *)
Definition chan_send (x : A) (ch : chan) : option chan :=
  if chan_full ch then None
  else Some {| cap := cap ch; buf := buf ch ++ [x] |}.

(** [<-ch]: the element received and the channel after it, or [None] when
    the receive blocks. *)
Definition chan_recv (ch : chan) : option (A * chan) :=
  match buf ch with
  | [] => None
  | x :: b => Some (x, {| cap := cap ch; buf := b |})
  end.

(** The invariant of a channel: the buffer respects the capacity. *)
Definition chan_wf (ch : chan) : Prop := chan_len ch ≤ cap ch.

#[export] Instance chan_wf_dec ch : Decision (chan_wf ch).
Proof. unfold chan_wf. apply _. Defined.

(** ** Lemmas *)

Implicit Types (ch : chan) (x : A) (xs : list A).

Lemma chan_make_wf n : chan_wf (chan_make n).
Proof. unfold chan_wf, chan_len. simpl. lia. Qed.

Lemma chan_full_false ch : chan_full ch = false ↔ chan_len ch < cap ch.
Proof. unfold chan_full. rewrite bool_decide_eq_false. lia. Qed.

Lemma chan_send_Some x ch ch' :
  chan_send x ch = Some ch' ↔
    chan_len ch < cap ch ∧ ch' = {| cap := cap ch; buf := buf ch ++ [x] |}.
Proof.
  unfold chan_send. destruct (chan_full ch) eqn:Hf.
  - apply bool_decide_eq_true in Hf. split; [done|]. intros [? _]. lia.
  - apply chan_full_false in Hf. naive_solver.
Qed.

Lemma chan_send_None x ch : chan_send x ch = None ↔ cap ch ≤ chan_len ch.
Proof.
  unfold chan_send. destruct (chan_full ch) eqn:Hf.
  - by apply bool_decide_eq_true in Hf.
  - apply chan_full_false in Hf. split; [done|lia].
Qed.

Lemma chan_send_is_Some x ch : chan_len ch < cap ch → is_Some (chan_send x ch).
Proof. intros Hlt. eexists. by apply chan_send_Some. Qed.

Lemma chan_send_cap x ch ch' : chan_send x ch = Some ch' → cap ch' = cap ch.
Proof. by intros [_ ->]%chan_send_Some. Qed.

Lemma chan_send_len x ch ch' : chan_send x ch = Some ch' → chan_len ch' = S (chan_len ch).
Proof.
  intros [_ ->]%chan_send_Some. unfold chan_len. simpl. rewrite length_app. simpl. lia.
Qed.

Lemma chan_send_wf x ch ch' : chan_send x ch = Some ch' → chan_wf ch'.
Proof.
  intros Hs. unfold chan_wf. rewrite (chan_send_len _ _ _ Hs), (chan_send_cap _ _ _ Hs).
  apply chan_send_Some in Hs as [? _]. lia.
Qed.

Lemma chan_recv_Some ch x ch' :
  chan_recv ch = Some (x, ch') ↔ buf ch = x :: buf ch' ∧ cap ch' = cap ch.
Proof.
  unfold chan_recv. destruct ch as [n [|y b]], ch' as [n' b']; simpl; naive_solver.
Qed.

Lemma chan_recv_None ch : chan_recv ch = None ↔ chan_len ch = 0.
Proof. unfold chan_recv, chan_len. destruct (buf ch); naive_solver. Qed.

Lemma chan_recv_is_Some ch : 0 < chan_len ch → is_Some (chan_recv ch).
Proof.
  intros Hlt. destruct (chan_recv ch) eqn:Hr; [done|].
  apply chan_recv_None in Hr. lia.
Qed.

Lemma chan_recv_len ch x ch' : chan_recv ch = Some (x, ch') → chan_len ch = S (chan_len ch').
Proof. intros [Hb _]%chan_recv_Some. unfold chan_len. by rewrite Hb. Qed.

Lemma chan_recv_wf ch x ch' : chan_wf ch → chan_recv ch = Some (x, ch') → chan_wf ch'.
Proof.
  unfold chan_wf. intros Hwf Hr. pose proof (chan_recv_len _ _ _ Hr).
  apply chan_recv_Some in Hr as [_ ->]. lia.
Qed.

End chan.

Arguments chan A : clear implicits.

#[export] Hint Resolve chan_make_wf chan_send_wf chan_recv_wf : go.
