(* ===== verification/GoMap.v ===== *)
(** * Iteration over a Go map

    [files] is a [map[string]string]; [range files] visits every entry once
    in an order the language leaves unspecified.  [range_order seed m] is
    the order the choices of [seed] give: the theorems hold for every seed,
    and every order is the order of some seed. *)

From stdpp Require Import prelude strings list gmap.
From S2P Require Import Prelude.

(** The entries of [m] in the order [for k, v := range m] visits them. *)
Definition range_order {V} (seed : list nat) (m : gmap string V) : list (string * V) :=
  shuffle seed (map_to_list m).

Section range.
Context {V : Type}.
Implicit Types (m : gmap string V) (seed : list nat).

Lemma range_order_perm seed m : range_order seed m ≡ₚ map_to_list m.
Proof. apply shuffle_perm. Qed.

(** [len(m)] iterations. *)
Lemma range_order_length seed m : length (range_order seed m) = size m.
Proof. unfold range_order. by rewrite shuffle_length, length_map_to_list. Qed.

Lemma range_order_NoDup_keys seed m : NoDup (range_order seed m).*1.
Proof. rewrite range_order_perm. apply NoDup_fst_map_to_list. Qed.

Lemma range_order_elem_of seed m k v : (k, v) ∈ range_order seed m ↔ m !! k = Some v.
Proof. rewrite range_order_perm. apply elem_of_map_to_list. Qed.

Lemma range_order_to_map seed m : list_to_map (range_order seed m) = m.
Proof.
  rewrite <-(list_to_map_to_list m) at 2.
  apply list_to_map_proper; [apply range_order_NoDup_keys|apply range_order_perm].
Qed.

Lemma range_order_complete m l : l ≡ₚ map_to_list m → ∃ seed, range_order seed m = l.
Proof. apply shuffle_complete. Qed.

End range.

#[export] Hint Resolve range_order_perm range_order_NoDup_keys : go.
#[export] Hint Rewrite @range_order_length @range_order_to_map : go_rw.
