(* ===== verification/GitTypes.v ===== *)
(** * The data of the hosting API

    The records of the go-github client that [src/main.go] builds, passes
    and reads.  A pointer field ([*string], [*Tree], ...) is an [option];
    fields the program neither sets nor reads and the service does not need
    are left out.  [Commit.Parents] holds the SHA of each parent, which is
    what the client sends of a parent.  Each record lives in a Module named
    after the Go type, so that the fields keep their Go names. *)

From stdpp Require Import prelude strings list.
From S2P Require Import Prelude.

(** [github.GitObject]. *)
Module GitObject.
Record t : Type := Build { Type_ : option string; SHA : option string; URL : option string }.
Definition set_SHA (sha : option string) (o : t) : t :=
  {| Type_ := Type_ o; SHA := sha; URL := URL o |}.
End GitObject.

(** [github.Reference]. *)
Module Reference.
Record t : Type := Build {
  Ref : option string;
  URL : option string;
  Object : option GitObject.t;
  NodeID : option string
}.
Definition set_Object (o : option GitObject.t) (r : t) : t :=
  {| Ref := Ref r; URL := URL r; Object := o; NodeID := NodeID r |}.
End Reference.

(** [github.Blob]. *)
Module Blob.
Record t : Type := Build {
  Content : option string;
  Encoding : option string;
  SHA : option string;
  Size : option nat;
  URL : option string;
  NodeID : option string
}.
(** [Blob.GetSHA]: the SHA, or the empty string when the field is nil. *)
Definition GetSHA (b : t) : string := default "" (SHA b).
End Blob.

(** [github.TreeEntry]. *)
Module TreeEntry.
Record t : Type := Build {
  SHA : option string;
  Path : option string;
  Mode : option string;
  Type_ : option string;
  Size : option nat;
  Content : option string;
  URL : option string
}.
End TreeEntry.

(** [github.Tree]. *)
Module Tree.
Record t : Type := Build {
  SHA : option string;
  Entries : list TreeEntry.t;
  Truncated : option bool
}.
End Tree.

(** [github.Commit]. *)
Module Commit.
Record t : Type := Build {
  SHA : option string;
  Message : option string;
  Tree : option Tree.t;
  Parents : list string;
  HTMLURL : option string;
  URL : option string
}.
(** [Commit.GetHTMLURL]. *)
Definition GetHTMLURL (c : t) : string := default "" (HTMLURL c).
End Commit.

(** [github.String]: a pointer to a copy of the string. *)
Definition String_ (s : string) : option string := Some s.

#[export] Instance GitObject_eq_dec : EqDecision GitObject.t.
Proof. solve_decision. Defined.
#[export] Instance Reference_eq_dec : EqDecision Reference.t.
Proof. solve_decision. Defined.
#[export] Instance Blob_eq_dec : EqDecision Blob.t.
Proof. solve_decision. Defined.
#[export] Instance TreeEntry_eq_dec : EqDecision TreeEntry.t.
Proof. solve_decision. Defined.
#[export] Instance Tree_eq_dec : EqDecision Tree.t.
Proof. solve_decision. Defined.
#[export] Instance Commit_eq_dec : EqDecision Commit.t.
Proof. solve_decision. Defined.

(** The zero values of the structs. *)
#[export] Instance Reference_inhabited : Inhabited Reference.t :=
  populate (Reference.Build None None None None).
#[export] Instance Tree_inhabited : Inhabited Tree.t := populate (Tree.Build None [] None).
