(* ===== verification/GitService.v ===== *)
(** * The hosting service as an interface

    What [commitMultipleFiles] asks of the service behind the client: the
    five calls of the Git-data API it makes.  A call is a transition of the
    server state that also gives the call's answer: the value or the error
    the client returns (the HTTP response, the second value the client
    returns, is dropped by the program and left out).  A property of the
    program is proved for every instance of [GitService]. *)

From stdpp Require Import prelude strings list gmap.
From S2P Require Import Prelude GoError GitTypes.

(** [*github.Client]: the HTTP client, of which the bearer token matters. *)
Record Client : Type := NewClient { token : string }.

#[export] Instance Client_eq_dec : EqDecision Client.
Proof. solve_decision. Defined.

(** The calls of [client.Git], with the owner and the repository first. *)
Class GitService (S : Type) : Type := {
  GetRef : Client → string → string → string → S → answer Reference.t * S;
  CreateBlob : Client → string → string → Blob.t → S → answer Blob.t * S;
  CreateTree :
    Client → string → string → string → list TreeEntry.t → S → answer Tree.t * S;
  CreateCommit : Client → string → string → Commit.t → S → answer Commit.t * S;
  UpdateRef :
    Client → string → string → Reference.t → bool → S → answer Reference.t * S
}.

(** A call as a value: what the log of a run records. *)
Inductive call : Type :=
| CallGetRef (owner repo ref : string)
| CallCreateBlob (owner repo : string) (blob : Blob.t)
| CallCreateTree (owner repo baseTree : string) (entries : list TreeEntry.t)
| CallCreateCommit (owner repo : string) (commit : Commit.t)
| CallUpdateRef (owner repo : string) (ref : Reference.t) (force : bool).

#[export] Instance call_eq_dec : EqDecision call.
Proof. solve_decision. Defined.

Definition is_CreateBlob (k : call) : bool :=
  match k with
  | CallCreateBlob _ _ _ => true
  | _ => false
  end.

Definition is_write (k : call) : bool :=
  match k with
  | CallGetRef _ _ _ => false
  | _ => true
  end.

Section service.
Context {S : Type} `{GitService S}.

(** The effect of a call on the server, its answer dropped. *)
Definition perform (client : Client) (k : call) (s : S) : S :=
  match k with
  | CallGetRef o r ref => (GetRef client o r ref s).2
  | CallCreateBlob o r b => (CreateBlob client o r b s).2
  | CallCreateTree o r base es => (CreateTree client o r base es s).2
  | CallCreateCommit o r c => (CreateCommit client o r c s).2
  | CallUpdateRef o r ref force => (UpdateRef client o r ref force s).2
  end.

(** The server after a sequence of calls, first call first. *)
Definition replay (client : Client) (ks : list call) (s : S) : S :=
  foldl (λ s k, perform client k s) s ks.

Lemma replay_app client ks1 ks2 s :
  replay client (ks1 ++ ks2) s = replay client ks2 (replay client ks1 s).
Proof. apply foldl_app. Qed.

Lemma replay_snoc client ks k s :
  replay client (ks ++ [k]) s = perform client k (replay client ks s).
Proof. by rewrite replay_app. Qed.

End service.

(** ** What a client may rely on

    The laws of a service with branch references: [heads] gives the
    references of a server with the names of the objects they point to.
    Reading a reference and creating objects move no reference; a failed
    update moves none; an update that goes well moves the reference it
    names, which exists, and that one only, to the object given; [GetRef]
    answers the reference asked for. *)
Class GitLaws (S : Type) `{GitService S} : Type := {
  heads : S → gmap string string;
  GetRef_heads client o r ref s : heads (GetRef client o r ref s).2 = heads s;
  GetRef_name client o r ref s a :
    (GetRef client o r ref s).1 = Ok a → Reference.Ref a = Some ref;
  CreateBlob_heads client o r b s : heads (CreateBlob client o r b s).2 = heads s;
  CreateTree_heads client o r base es s :
    heads (CreateTree client o r base es s).2 = heads s;
  CreateCommit_heads client o r c s : heads (CreateCommit client o r c s).2 = heads s;
  UpdateRef_failed client o r ref force s e :
    (UpdateRef client o r ref force s).1 = Err e →
    heads (UpdateRef client o r ref force s).2 = heads s;
  UpdateRef_moved client o r ref force s a :
    (UpdateRef client o r ref force s).1 = Ok a →
    ∃ name sha,
      Reference.Ref ref = Some name ∧ Reference.Object ref ≫= GitObject.SHA = Some sha ∧
      is_Some (heads s !! name) ∧
      heads (UpdateRef client o r ref force s).2 = <[name := sha]> (heads s)
}.

Section laws.
Context {S : Type} `{GitLaws S}.

(** A call other than [UpdateRef] moves no reference. *)
Lemma perform_heads client k s :
  (∀ o r ref force, k ≠ CallUpdateRef o r ref force) →
  heads (perform client k s) = heads s.
Proof.
  destruct k; simpl; intros Hk;
    [apply GetRef_heads|apply CreateBlob_heads|apply CreateTree_heads|
     apply CreateCommit_heads|by destruct (Hk owner repo ref force)].
Qed.

(** The laws, for a call with its answer and the server it leaves. *)
Lemma GetRef_heads_eq client o r ref s a s' :
  GetRef client o r ref s = (a, s') → heads s' = heads s.
Proof. intros Heq. by rewrite <-(GetRef_heads client o r ref s), Heq. Qed.

Lemma GetRef_name_eq client o r ref s a s' :
  GetRef client o r ref s = (Ok a, s') → Reference.Ref a = Some ref.
Proof. intros Heq. apply (GetRef_name client o r ref s). by rewrite Heq. Qed.

Lemma CreateBlob_heads_eq client o r b s a s' :
  CreateBlob client o r b s = (a, s') → heads s' = heads s.
Proof. intros Heq. by rewrite <-(CreateBlob_heads client o r b s), Heq. Qed.

Lemma CreateTree_heads_eq client o r base es s a s' :
  CreateTree client o r base es s = (a, s') → heads s' = heads s.
Proof. intros Heq. by rewrite <-(CreateTree_heads client o r base es s), Heq. Qed.

Lemma CreateCommit_heads_eq client o r c s a s' :
  CreateCommit client o r c s = (a, s') → heads s' = heads s.
Proof. intros Heq. by rewrite <-(CreateCommit_heads client o r c s), Heq. Qed.

Lemma UpdateRef_failed_eq client o r ref force s e s' :
  UpdateRef client o r ref force s = (Err e, s') → heads s' = heads s.
Proof.
  intros Heq. rewrite <-(UpdateRef_failed client o r ref force s e); by rewrite Heq.
Qed.

Lemma UpdateRef_moved_eq client o r ref force s a s' :
  UpdateRef client o r ref force s = (Ok a, s') →
  ∃ name sha,
    Reference.Ref ref = Some name ∧ Reference.Object ref ≫= GitObject.SHA = Some sha ∧
    is_Some (heads s !! name) ∧ heads s' = <[name := sha]> (heads s).
Proof.
  intros Heq. destruct (UpdateRef_moved client o r ref force s a) as (name & sha & Hm);
    [by rewrite Heq|]. rewrite Heq in Hm. by exists name, sha.
Qed.

End laws.
