(* ===== verification/Machine.v ===== *)
(** * [commitMultipleFiles] as a machine

    The function of [src/main.go], lines 14-90, as the steps of its threads:
    the calling goroutine ([step_main]) and the goroutines it starts, one
    per file ([step_worker]).  A step is one operation on what the threads
    share (a remote call, a send, a receive, the start of a goroutine)
    together with the local computation that follows it.  [step] lets any
    thread that is not blocked take its step; [run] follows a schedule;
    [commitMultipleFiles] runs a schedule until the caller has returned. *)

From stdpp Require Import prelude strings list gmap.
From S2P Require Import Prelude GoError Channel GoMap GitTypes GitService.

(** The local struct [blobResult], lines 28-32. *)
Record blobResult : Type := BlobResult { path : string; sha : string; err : option error }.

#[export] Instance blobResult_eq_dec : EqDecision blobResult.
Proof. solve_decision. Defined.

(** A goroutine started at line 36: before its call of [CreateBlob] (with
    the path and the content it was given), before its send (with the
    result it sends), returned. *)
Inductive worker : Type :=
| WStart (p c : string)
| WSend (r : blobResult)
| WDone.

#[export] Instance worker_eq_dec : EqDecision worker.
Proof. solve_decision. Defined.

(** Where the calling goroutine stands, with its live local variables:
    before [GetRef] (line 18); in the loop that starts the goroutines, about
    to start the one of the entry [(p, c)] of [files], with the entries
    still to visit after it (line 35); at the head of the loop that receives,
    with [i] and [entries] (line 51); before [CreateCommit] (line 76); before
    [UpdateRef], [ref] already updated (line 83); returned, with the error or
    nil; stopped by a run-time panic. *)
Inductive pc : Type :=
| PGetRef
| PSpawn (ref : Reference.t) (p c : string) (rest : list (string * string))
| PCollect (ref : Reference.t) (i : nat) (entries : list TreeEntry.t)
| PCreateCommit (ref : Reference.t) (tree : Tree.t)
| PUpdateRef (ref : Reference.t) (commit : Commit.t)
| PReturn (e : option error)
| PPanic (msg : string).

(** How a call of [commitMultipleFiles] ended. *)
Inductive outcome : Type :=
| Returned (e : option error)
| Panicked (msg : string)
| Running.

#[export] Instance outcome_eq_dec : EqDecision outcome.
Proof. solve_decision. Defined.

(** A thread: the caller, or the i-th goroutine started. *)
Inductive thread : Type :=
| TMain
| TWorker (i : nat).

#[export] Instance thread_eq_dec : EqDecision thread.
Proof. solve_decision. Defined.

(** [baseTreeSHA], line 25. *)
Definition baseTreeSHA : string := "".

(** ["refs/heads/"+branch], line 18. *)
Definition branch_ref (branch : string) : string := "refs/heads/" +:+ branch.

(** The blob a goroutine uploads, lines 37-40. *)
Definition blob_request (c : string) : Blob.t :=
  {| Blob.Content := String_ c; Blob.Encoding := String_ "utf-8";
     Blob.SHA := None; Blob.Size := None; Blob.URL := None; Blob.NodeID := None |}.

(** The result a goroutine sends for the answer of [CreateBlob], lines 41-45. *)
Definition blob_result (p : string) (a : answer Blob.t) : blobResult :=
  match a with
  | Err e => BlobResult p "" (Some e)
  | Ok blob => BlobResult p (Blob.GetSHA blob) None
  end.

(** The tree entry made of a result, lines 56-61. *)
Definition tree_entry (r : blobResult) : TreeEntry.t :=
  {| TreeEntry.Path := String_ (path r); TreeEntry.Mode := String_ "100644";
     TreeEntry.Type_ := String_ "blob"; TreeEntry.SHA := String_ (sha r);
     TreeEntry.Size := None; TreeEntry.Content := None; TreeEntry.URL := None |}.

(** [newCommit], lines 71-74: a message and a tree, no parent. *)
Definition newCommit (commitMessage : string) (tree : Tree.t) : Commit.t :=
  {| Commit.Message := String_ commitMessage; Commit.Tree := Some tree;
     Commit.SHA := None; Commit.Parents := []; Commit.HTMLURL := None;
     Commit.URL := None |}.

(** [ref.Object.SHA = commit.SHA], line 82: [None] when [ref.Object] is nil
    and the assignment dereferences a nil pointer. *)
Definition set_ref_sha (ref : Reference.t) (commit : Commit.t) : option Reference.t :=
  match Reference.Object ref with
  | None => None
  | Some o => Some (Reference.set_Object (Some (GitObject.set_SHA (Commit.SHA commit) o)) ref)
  end.

(** The caller after [GetRef] and after each start of a goroutine: at the
    next entry of [range files], or past the loop with [i = 0] and no entry
    (lines 35, 50-51). *)
Definition enter_loop (ref : Reference.t) (todo : list (string * string)) : pc :=
  match todo with
  | (p, c) :: rest => PSpawn ref p c rest
  | [] => PCollect ref 0 []
  end.

Definition nil_dereference : string :=
  "runtime error: invalid memory address or nil pointer dereference".

(** The last argument of [UpdateRef], line 83: the update is forced. *)
Definition force : bool := true.

(** The line [fmt.Println] prints at line 88. *)
Definition created_line (commit : Commit.t) : string :=
  "✅ Commit created: " +:+ Commit.GetHTMLURL commit.

(** The arguments of a call of [commitMultipleFiles], line 14; [files] is
    the map in the order [range] visits it. *)
Class Args : Type := {
  client : Client;
  owner : string;
  repo : string;
  branch : string;
  files : list (string * string);
  commitMessage : string
}.

Section machine.
Context {S : Type} `{GitService S}.

(** A configuration: the server, the channel [results], the goroutines in
    the order they were started, the caller, and two history variables: the
    calls made so far and the lines printed. *)
Record config : Type := Config {
  remote : S;
  results : chan blobResult;
  workers : list worker;
  main : pc;
  calls : list call;
  out : list string
}.

Definition set_main (p : pc) (c : config) : config :=
  {| remote := remote c; results := results c; workers := workers c; main := p;
     calls := calls c; out := out c |}.

Definition set_results (ch : chan blobResult) (c : config) : config :=
  {| remote := remote c; results := ch; workers := workers c; main := main c;
     calls := calls c; out := out c |}.

Definition set_worker (i : nat) (w : worker) (c : config) : config :=
  {| remote := remote c; results := results c; workers := <[i:=w]> (workers c);
     main := main c; calls := calls c; out := out c |}.

(** [go func(p, c string) {...}(path, content)], line 36: one more goroutine. *)
Definition spawn (w : worker) (c : config) : config :=
  {| remote := remote c; results := results c; workers := workers c ++ [w];
     main := main c; calls := calls c; out := out c |}.

(** The server after a call, the call logged. *)
Definition called (k : call) (s : S) (c : config) : config :=
  {| remote := s; results := results c; workers := workers c; main := main c;
     calls := calls c ++ [k]; out := out c |}.

Definition print (line : string) (c : config) : config :=
  {| remote := remote c; results := results c; workers := workers c; main := main c;
     calls := calls c; out := out c ++ [line] |}.

(** The configuration [commitMultipleFiles] starts in: no channel yet (a nil
    channel), no goroutine. *)
Definition init (s : S) : config :=
  {| remote := s; results := chan_make 0; workers := []; main := PGetRef;
     calls := []; out := [] |}.

Definition returned (c : config) : bool :=
  match main c with
  | PReturn _ | PPanic _ => true
  | _ => false
  end.

Definition outcome_of (c : config) : outcome :=
  match main c with
  | PReturn e => Returned e
  | PPanic msg => Panicked msg
  | _ => Running
  end.

Context {args : Args}.

(** The five calls with the arguments [commitMultipleFiles] gives them
    (lines 18, 37-40, 65, 76, 83), as the log records them. *)
Definition getref_call : call := CallGetRef owner repo (branch_ref branch).
Definition blob_call (c : string) : call := CallCreateBlob owner repo (blob_request c).
Definition tree_call (entries : list TreeEntry.t) : call :=
  CallCreateTree owner repo baseTreeSHA entries.
Definition commit_call (tree : Tree.t) : call :=
  CallCreateCommit owner repo (newCommit commitMessage tree).
Definition update_call (ref : Reference.t) : call := CallUpdateRef owner repo ref force.

(** [results := make(chan blobResult, len(files))], line 34. *)
Definition make_results : chan blobResult := chan_make (length files).

(** The caller with a result [r] in hand, lines 53-61: return at a failed
    upload, else one more entry and the next iteration. *)
Definition deliver (ref : Reference.t) (i : nat) (entries : list TreeEntry.t)
    (r : blobResult) (c : config) : config :=
  match err r with
  | Some e => set_main (PReturn (Some (errBlob (path r) e))) c
  | None => set_main (PCollect ref (i + 1) (entries ++ [tree_entry r])) c
  end.

(** [CreateTree], lines 65-68, and the commit to create, lines 71-74. *)
Definition create_tree (ref : Reference.t) (entries : list TreeEntry.t)
    (c : config) : config :=
  let '(a, s) := CreateTree client owner repo baseTreeSHA entries (remote c) in
  let c := called (tree_call entries) s c in
  match a with
  | Err e => set_main (PReturn (Some (errCreateTree e))) c
  | Ok tree => set_main (PCreateCommit ref tree) c
  end.

(** One turn of the loop of lines 51-62 and what follows it: while
    [i < len(files)] receive a result (blocked while the channel is empty),
    then create the tree. *)
Definition collect (ref : Reference.t) (i : nat) (entries : list TreeEntry.t)
    (c : config) : option config :=
  if bool_decide (i < length files) then
    match chan_recv (results c) with
    | None => None
    | Some (r, ch) => Some (deliver ref i entries r (set_results ch c))
    end
  else Some (create_tree ref entries c).

(** The next step of the caller; [None] when it is blocked or has returned. *)
Definition step_main (c : config) : option config :=
  match main c with
  | PGetRef =>
      let '(a, s) := GetRef client owner repo (branch_ref branch) (remote c) in
      let c := called getref_call s c in
      match a with
      | Err e => Some (set_main (PReturn (Some (errGetRef e))) c)
      | Ok ref =>
          Some (set_main (enter_loop ref files) (set_results make_results c))
      end
  | PSpawn ref p ct rest => Some (set_main (enter_loop ref rest) (spawn (WStart p ct) c))
  | PCollect ref i entries => collect ref i entries c
  | PCreateCommit ref tree =>
      let '(a, s) :=
        CreateCommit client owner repo (newCommit commitMessage tree) (remote c) in
      let c := called (commit_call tree) s c in
      match a with
      | Err e => Some (set_main (PReturn (Some (errCreateCommit e))) c)
      | Ok commit =>
          match set_ref_sha ref commit with
          | None => Some (set_main (PPanic nil_dereference) c)
          | Some ref => Some (set_main (PUpdateRef ref commit) c)
          end
      end
  | PUpdateRef ref commit =>
      let '(a, s) := UpdateRef client owner repo ref force (remote c) in
      let c := called (update_call ref) s c in
      match a with
      | Err e => Some (set_main (PReturn (Some (errUpdateRef e))) c)
      | Ok _ => Some (set_main (PReturn None) (print (created_line commit) c))
      end
  | PReturn _ | PPanic _ => None
  end.

(** The caller stands at the receive of line 52. *)
Definition receiving (c : config) : option (Reference.t * nat * list TreeEntry.t) :=
  match main c with
  | PCollect ref i entries =>
      if bool_decide (i < length files) then Some (ref, i, entries) else None
  | _ => None
  end.

(** The next step of the i-th goroutine, lines 36-46: the call of
    [CreateBlob], then the send of its result.  The send waits while the
    buffer is full; on a channel without buffer it hands the result to the
    caller when the caller stands at the receive. *)
Definition step_worker (i : nat) (c : config) : option config :=
  match workers c !! i with
  | Some (WStart p ct) =>
      let '(a, s) := CreateBlob client owner repo (blob_request ct) (remote c) in
      Some (set_worker i (WSend (blob_result p a))
              (called (blob_call ct) s c))
  | Some (WSend r) =>
      match chan_send r (results c) with
      | Some ch => Some (set_worker i WDone (set_results ch c))
      | None =>
          if bool_decide (cap (results c) = 0) then
            match receiving c with
            | Some (ref, j, entries) => Some (deliver ref j entries r (set_worker i WDone c))
            | None => None
            end
          else None
      end
  | Some WDone | None => None
  end.

Definition step_thread (t : thread) (c : config) : option config :=
  match t with
  | TMain => step_main c
  | TWorker i => step_worker i c
  end.

(** The steps as rules, one per branch of the code: what [step_main] and
    [step_worker] compute, case by case. *)
Inductive rule : config → config → Prop :=
| R_getref_err c e s :
    main c = PGetRef →
    GetRef client owner repo (branch_ref branch) (remote c) = (Err e, s) →
    rule c (set_main (PReturn (Some (errGetRef e)))
              (called getref_call s c))
| R_getref_ok c ref s :
    main c = PGetRef →
    GetRef client owner repo (branch_ref branch) (remote c) = (Ok ref, s) →
    rule c (set_main (enter_loop ref files)
              (set_results make_results
                 (called getref_call s c)))
| R_spawn c ref p ct rest :
    main c = PSpawn ref p ct rest →
    rule c (set_main (enter_loop ref rest) (spawn (WStart p ct) c))
| R_recv_ok c ref i entries r ch :
    main c = PCollect ref i entries →
    i < length files →
    chan_recv (results c) = Some (r, ch) →
    err r = None →
    rule c (set_main (PCollect ref (i + 1) (entries ++ [tree_entry r])) (set_results ch c))
| R_recv_err c ref i entries r ch e :
    main c = PCollect ref i entries →
    i < length files →
    chan_recv (results c) = Some (r, ch) →
    err r = Some e →
    rule c (set_main (PReturn (Some (errBlob (path r) e))) (set_results ch c))
| R_tree_err c ref i entries e s :
    main c = PCollect ref i entries →
    length files ≤ i →
    CreateTree client owner repo baseTreeSHA entries (remote c) = (Err e, s) →
    rule c (set_main (PReturn (Some (errCreateTree e)))
              (called (tree_call entries) s c))
| R_tree_ok c ref i entries tree s :
    main c = PCollect ref i entries →
    length files ≤ i →
    CreateTree client owner repo baseTreeSHA entries (remote c) = (Ok tree, s) →
    rule c (set_main (PCreateCommit ref tree)
              (called (tree_call entries) s c))
| R_commit_err c ref tree e s :
    main c = PCreateCommit ref tree →
    CreateCommit client owner repo (newCommit commitMessage tree) (remote c) = (Err e, s) →
    rule c (set_main (PReturn (Some (errCreateCommit e)))
              (called (commit_call tree) s c))
| R_commit_panic c ref tree commit s :
    main c = PCreateCommit ref tree →
    CreateCommit client owner repo (newCommit commitMessage tree) (remote c) = (Ok commit, s) →
    set_ref_sha ref commit = None →
    rule c (set_main (PPanic nil_dereference)
              (called (commit_call tree) s c))
| R_commit_ok c ref tree commit s ref' :
    main c = PCreateCommit ref tree →
    CreateCommit client owner repo (newCommit commitMessage tree) (remote c) = (Ok commit, s) →
    set_ref_sha ref commit = Some ref' →
    rule c (set_main (PUpdateRef ref' commit)
              (called (commit_call tree) s c))
| R_update_err c ref commit e s :
    main c = PUpdateRef ref commit →
    UpdateRef client owner repo ref force (remote c) = (Err e, s) →
    rule c (set_main (PReturn (Some (errUpdateRef e)))
              (called (update_call ref) s c))
| R_update_ok c ref commit ref' s :
    main c = PUpdateRef ref commit →
    UpdateRef client owner repo ref force (remote c) = (Ok ref', s) →
    rule c (set_main (PReturn None)
              (print (created_line commit) (called (update_call ref) s c)))
| R_blob c i p ct a s :
    workers c !! i = Some (WStart p ct) →
    CreateBlob client owner repo (blob_request ct) (remote c) = (a, s) →
    rule c (set_worker i (WSend (blob_result p a))
              (called (blob_call ct) s c))
| R_send c i r ch :
    workers c !! i = Some (WSend r) →
    chan_send r (results c) = Some ch →
    rule c (set_worker i WDone (set_results ch c))
| R_handoff_ok c i r ref j entries :
    workers c !! i = Some (WSend r) →
    chan_send r (results c) = None →
    cap (results c) = 0 →
    main c = PCollect ref j entries →
    j < length files →
    err r = None →
    rule c (set_main (PCollect ref (j + 1) (entries ++ [tree_entry r])) (set_worker i WDone c))
| R_handoff_err c i r ref j entries e :
    workers c !! i = Some (WSend r) →
    chan_send r (results c) = None →
    cap (results c) = 0 →
    main c = PCollect ref j entries →
    j < length files →
    err r = Some e →
    rule c (set_main (PReturn (Some (errBlob (path r) e))) (set_worker i WDone c)).

(** The interleaving: any thread takes its next step. *)
Inductive step : config → config → Prop :=
| step_of_main c c' : step_main c = Some c' → step c c'
| step_of_worker i c c' : step_worker i c = Some c' → step c c'.

Definition threads (c : config) : list thread :=
  TMain :: (TWorker <$> seq 0 (length (workers c))).

(** The threads that are not blocked. *)
Definition enabled (c : config) : list thread :=
  filter (λ t, is_Some (step_thread t c)) (threads c).

(** The step of the thread a number [k] chooses among the enabled ones. *)
Definition sched_step (k : nat) (c : config) : option config :=
  match enabled c !! (k `mod` length (enabled c)) with
  | Some t => step_thread t c
  | None => None
  end.

(** Follow a schedule, to its end or to a configuration where no thread
    can move. *)
Fixpoint run (sched : list nat) (c : config) : config :=
  match sched with
  | [] => c
  | k :: sched' =>
      match sched_step k c with
      | Some c' => run sched' c'
      | None => c
      end
  end.

(** Follow a schedule until the caller has returned; past its end the
    schedule goes on with zeros. *)
Fixpoint run_main (fuel : nat) (sched : list nat) (c : config) : config :=
  match fuel with
  | 0 => c
  | Datatypes.S fuel' =>
      if returned c then c
      else match sched_step (hd 0 sched) c with
           | Some c' => run_main fuel' (tl sched) c'
           | None => c
           end
  end.

(** A configuration a run from [init s] can be in. *)
Definition reachable (s : S) (c : config) : Prop := rtc step (init s) c.

End machine.

Arguments config S : clear implicits.

(** [commitMultipleFiles(client, owner, repo, branch, files, commitMessage)]
    on the server [s]: the configuration in which the caller returns, when
    [seed] orders the iteration over [files] and [sched] schedules the
    threads. *)
Definition commitMultipleFiles {S} `{GitService S} (client : Client)
    (owner repo branch : string) (files : gmap string string) (commitMessage : string)
    (seed sched : list nat) (s : S) : config S :=
  let args :=
    {| client := client; owner := owner; repo := repo; branch := branch;
       files := range_order seed files; commitMessage := commitMessage |} in
  run_main (4 * size files + 4) sched (init s).
