(* ===== verification/MemGit.v ===== *)
(** * A reference implementation of the hosting service

    An in-memory Git object store behind the interface [GitService]: one
    repository, one accepted token, objects addressed by a name computed
    from their content, branch references, and a plan of injected faults
    (the head of [faults] decides whether the next request fails before it
    reaches the store).  It is a model of the service, not of its code: it
    fixes what the calls of [src/main.go] mean, so that the effect of a run
    on a repository can be stated and the witnesses evaluated.

    Assumptions it makes of the service: object names are injective in the
    content (a name is the content behind a tag, where Git hashes it); a
    tree may only name blobs that exist and must have an entry; a commit may
    only name a tree and parents that exist; a reference moves to a commit
    that is not its descendant only when forced. *)

From stdpp Require Import prelude strings list gmap.
From S2P Require Import Prelude GoError GitTypes GitService.

Record store : Type := Store {
  repo_owner : string;
  repo_name : string;
  auth : string;
  blobs : gmap string string;
  trees : gmap string (list TreeEntry.t);
  commits : gmap string Commit.t;
  refs : gmap string string;
  faults : list (option string)
}.

Definition set_blobs (b : gmap string string) (s : store) : store :=
  {| repo_owner := repo_owner s; repo_name := repo_name s; auth := auth s; blobs := b;
     trees := trees s; commits := commits s; refs := refs s; faults := faults s |}.

Definition set_trees (t : gmap string (list TreeEntry.t)) (s : store) : store :=
  {| repo_owner := repo_owner s; repo_name := repo_name s; auth := auth s;
     blobs := blobs s; trees := t; commits := commits s; refs := refs s;
     faults := faults s |}.

Definition set_commits (c : gmap string Commit.t) (s : store) : store :=
  {| repo_owner := repo_owner s; repo_name := repo_name s; auth := auth s;
     blobs := blobs s; trees := trees s; commits := c; refs := refs s;
     faults := faults s |}.

Definition set_refs (r : gmap string string) (s : store) : store :=
  {| repo_owner := repo_owner s; repo_name := repo_name s; auth := auth s;
     blobs := blobs s; trees := trees s; commits := commits s; refs := r;
     faults := faults s |}.

Definition set_faults (f : list (option string)) (s : store) : store :=
  {| repo_owner := repo_owner s; repo_name := repo_name s; auth := auth s;
     blobs := blobs s; trees := trees s; commits := commits s; refs := refs s;
     faults := f |}.

(** ** Object names *)

Definition sha_blob (content : string) : string := "b:" +:+ content.

Definition entry_line (e : TreeEntry.t) : string :=
  default "" (TreeEntry.Mode e) +:+ " " +:+ default "" (TreeEntry.Path e) +:+ "=" +:+
  default "" (TreeEntry.SHA e) +:+ ";".

Definition sha_tree (entries : list TreeEntry.t) : string :=
  "t:" +:+ foldr (λ e acc, entry_line e +:+ acc) "" entries.

Definition sha_commit (tree : string) (parents : list string) (message : string) : string :=
  "c:" +:+ tree +:+ "<" +:+ foldr (λ p acc, p +:+ "," +:+ acc) "" parents +:+ ">" +:+ message.

(** ** Requests *)

(** What every request goes through first: the injected fault, the token,
    the repository. *)
Definition accept_request (client : Client) (owner repo : string) (s : store)
    : answer unit * store :=
  match faults s with
  | Some msg :: f => (Err (errorString msg), set_faults f s)
  | f =>
      let s := set_faults (tail f) s in
      if bool_decide (token client ≠ auth s) then (Err (errorString "401 Bad credentials"), s)
      else if bool_decide (owner ≠ repo_owner s ∨ repo ≠ repo_name s)
      then (Err (errorString "404 Not Found"), s)
      else (Ok (), s)
  end.

Definition object_url (s : store) (kind sha : string) : string :=
  "https://api.github.com/repos/" +:+ repo_owner s +:+ "/" +:+ repo_name s +:+ "/git/" +:+
  kind +:+ "/" +:+ sha.

Definition mem_GetRef (client : Client) (owner repo ref : string) (s : store)
    : answer Reference.t * store :=
  match accept_request client owner repo s with
  | (Err e, s) => (Err e, s)
  | (Ok _, s) =>
      match refs s !! ref with
      | None => (Err (errorString "404 Not Found"), s)
      | Some sha =>
          (Ok {| Reference.Ref := Some ref;
                 Reference.URL := Some (object_url s "refs" ref);
                 Reference.Object :=
                   Some {| GitObject.Type_ := Some "commit"; GitObject.SHA := Some sha;
                           GitObject.URL := Some (object_url s "commits" sha) |};
                 Reference.NodeID := None |}, s)
      end
  end.

Definition mem_CreateBlob (client : Client) (owner repo : string) (blob : Blob.t)
    (s : store) : answer Blob.t * store :=
  match accept_request client owner repo s with
  | (Err e, s) => (Err e, s)
  | (Ok _, s) =>
      match Blob.Content blob, Blob.Encoding blob with
      | Some content, (Some "utf-8" | None) =>
          let sha := sha_blob content in
          (Ok {| Blob.Content := None; Blob.Encoding := None; Blob.SHA := Some sha;
                 Blob.Size := None; Blob.URL := Some (object_url s "blobs" sha);
                 Blob.NodeID := None |},
           set_blobs (<[sha := content]> (blobs s)) s)
      | _, _ => (Err (errorString "422 Unprocessable Entity"), s)
      end
  end.

(** An entry the service accepts: a path, the mode and type of a file, and
    the name of a blob of the store. *)
Definition valid_entry (s : store) (e : TreeEntry.t) : bool :=
  bool_decide (is_Some (TreeEntry.Path e)) &&
  bool_decide (TreeEntry.Mode e = Some "100644") &&
  bool_decide (TreeEntry.Type_ e = Some "blob") &&
  bool_decide (is_Some (TreeEntry.SHA e ≫= λ sha, blobs s !! sha)).

(** The entries of a tree made from [base] and [entries]: an entry replaces
    the entry of [base] with its path. *)
Definition overlay (base entries : list TreeEntry.t) : list TreeEntry.t :=
  filter (λ b, TreeEntry.Path b ∉ TreeEntry.Path <$> entries) base ++ entries.

Definition mem_CreateTree (client : Client) (owner repo baseTree : string)
    (entries : list TreeEntry.t) (s : store) : answer Tree.t * store :=
  match accept_request client owner repo s with
  | (Err e, s) => (Err e, s)
  | (Ok _, s) =>
      let base := if bool_decide (baseTree = "") then Some [] else trees s !! baseTree in
      match base with
      | None => (Err (errorString "404 Not Found"), s)
      | Some base =>
          if bool_decide (entries = []) || negb (forallb (valid_entry s) entries)
          then (Err (errorString "422 Invalid tree info"), s)
          else
            let es := overlay base entries in
            let sha := sha_tree es in
            (Ok {| Tree.SHA := Some sha; Tree.Entries := es; Tree.Truncated := Some false |},
             set_trees (<[sha := es]> (trees s)) s)
      end
  end.

Definition mem_CreateCommit (client : Client) (owner repo : string) (commit : Commit.t)
    (s : store) : answer Commit.t * store :=
  match accept_request client owner repo s with
  | (Err e, s) => (Err e, s)
  | (Ok _, s) =>
      match Commit.Tree commit ≫= Tree.SHA, Commit.Message commit with
      | Some tree, Some message =>
          if bool_decide (is_Some (trees s !! tree)) &&
             forallb (λ p, bool_decide (is_Some (commits s !! p))) (Commit.Parents commit)
          then
            let sha := sha_commit tree (Commit.Parents commit) message in
            let stored :=
              {| Commit.SHA := Some sha; Commit.Message := Some message;
                 Commit.Tree :=
                   Some {| Tree.SHA := Some tree; Tree.Entries := []; Tree.Truncated := None |};
                 Commit.Parents := Commit.Parents commit;
                 Commit.HTMLURL :=
                   Some ("https://github.com/" +:+ repo_owner s +:+ "/" +:+ repo_name s +:+
                         "/commit/" +:+ sha);
                 Commit.URL := Some (object_url s "commits" sha) |} in
            (Ok stored, set_commits (<[sha := stored]> (commits s)) s)
          else (Err (errorString "422 Unprocessable Entity"), s)
      | _, _ => (Err (errorString "422 Unprocessable Entity"), s)
      end
  end.

(** [old] is [new] or an ancestor of it, looking [fuel] generations back. *)
Fixpoint is_ancestor (fuel : nat) (cs : gmap string Commit.t) (old new : string) : bool :=
  bool_decide (old = new) ||
  match fuel with
  | 0 => false
  | Datatypes.S fuel' =>
      match cs !! new with
      | Some c => existsb (is_ancestor fuel' cs old) (Commit.Parents c)
      | None => false
      end
  end.

Definition mem_UpdateRef (client : Client) (owner repo : string) (ref : Reference.t)
    (force : bool) (s : store) : answer Reference.t * store :=
  match accept_request client owner repo s with
  | (Err e, s) => (Err e, s)
  | (Ok _, s) =>
      match Reference.Ref ref, Reference.Object ref ≫= GitObject.SHA with
      | Some name, Some sha =>
          match refs s !! name with
          | None => (Err (errorString "422 Reference does not exist"), s)
          | Some old =>
              if negb (bool_decide (is_Some (commits s !! sha)))
              then (Err (errorString "422 Object does not exist"), s)
              else if negb force && negb (is_ancestor (size (commits s)) (commits s) old sha)
              then (Err (errorString "422 Update is not a fast forward"), s)
              else
                (Ok {| Reference.Ref := Some name;
                       Reference.URL := Some (object_url s "refs" name);
                       Reference.Object :=
                         Some {| GitObject.Type_ := Some "commit"; GitObject.SHA := Some sha;
                                 GitObject.URL := Some (object_url s "commits" sha) |};
                       Reference.NodeID := None |},
                 set_refs (<[name := sha]> (refs s)) s)
          end
      | _, _ => (Err (errorString "422 Unprocessable Entity"), s)
      end
  end.

#[export] Instance mem_service : GitService store := {|
  GetRef := mem_GetRef;
  CreateBlob := mem_CreateBlob;
  CreateTree := mem_CreateTree;
  CreateCommit := mem_CreateCommit;
  UpdateRef := mem_UpdateRef
|}.

(** ** Reading a repository *)

(** The file an entry stands for: its path and the content of its blob. *)
Definition entry_file (s : store) (e : TreeEntry.t) : option (string * string) :=
  p ← TreeEntry.Path e; sha ← TreeEntry.SHA e; content ← blobs s !! sha; Some (p, content).

(** The commit a reference points to. *)
Definition head_commit (s : store) (ref : string) : option Commit.t :=
  sha ← refs s !! ref; commits s !! sha.

(** The files of the tree of the commit a reference points to. *)
Definition checkout (s : store) (ref : string) : option (gmap string string) :=
  c ← head_commit s ref;
  tree ← Commit.Tree c ≫= Tree.SHA;
  es ← trees s !! tree;
  fs ← mapM (entry_file s) es;
  Some (list_to_map fs).

(** A repository with one commit of one file on one branch, that accepts
    the token [tok] and fails the requests its plan names. *)
Definition example_store (tok : string) (plan : list (option string)) : store :=
  let blob := sha_blob "# old" in
  let es := [ {| TreeEntry.Path := Some "README.md"; TreeEntry.Mode := Some "100644";
                 TreeEntry.Type_ := Some "blob"; TreeEntry.SHA := Some blob;
                 TreeEntry.Size := None; TreeEntry.Content := None;
                 TreeEntry.URL := None |} ] in
  let tree := sha_tree es in
  let sha := sha_commit tree [] "init" in
  {| repo_owner := "Santosh-etailify"; repo_name := "gitapis6"; auth := tok;
     blobs := {[ blob := "# old" ]};
     trees := {[ tree := es ]};
     commits := {[ sha := {| Commit.SHA := Some sha; Commit.Message := Some "init";
                             Commit.Tree := Some {| Tree.SHA := Some tree; Tree.Entries := [];
                                                   Tree.Truncated := None |};
                             Commit.Parents := []; Commit.HTMLURL := None;
                             Commit.URL := None |} ]};
     refs := {[ "refs/heads/main" := sha ]};
     faults := plan |}.

(** ** A server that serves the requests of a client *)

(** No fault is planned, the token is the accepted one and the repository
    is the one of the store. *)
Definition serves (client : Client) (owner repo : string) (s : store) : Prop :=
  faults s = [] ∧ token client = auth s ∧ owner = repo_owner s ∧ repo = repo_name s.

Section serves.
Context (client : Client) (owner repo : string).
Implicit Types (s : store).

Lemma set_faults_nil s : faults s = [] → set_faults [] s = s.
Proof. destruct s. simpl. by intros ->. Qed.

Lemma accept_request_serves s :
  serves client owner repo s → accept_request client owner repo s = (Ok (), s).
Proof.
  intros (Hf & Ht & Ho & Hr). unfold accept_request. rewrite Hf. simpl.
  rewrite !bool_decide_eq_false_2; [by rewrite set_faults_nil| |]; naive_solver.
Qed.

Lemma mem_GetRef_serves s ref sha :
  serves client owner repo s → refs s !! ref = Some sha →
  ∃ r, mem_GetRef client owner repo ref s = (Ok r, s) ∧
    Reference.Ref r = Some ref ∧ is_Some (Reference.Object r).
Proof.
  intros Hs Hr. unfold mem_GetRef. rewrite (accept_request_serves s Hs), Hr. eauto.
Qed.

(** A reference that does not exist is not found; the store is as it was. *)
Lemma mem_GetRef_missing s ref :
  serves client owner repo s → refs s !! ref = None →
  mem_GetRef client owner repo ref s = (Err (errorString "404 Not Found"), s).
Proof. intros Hs Hr. unfold mem_GetRef. by rewrite (accept_request_serves s Hs), Hr. Qed.

Lemma mem_CreateBlob_serves s blob content :
  serves client owner repo s →
  Blob.Content blob = Some content → Blob.Encoding blob = Some "utf-8" →
  ∃ b, mem_CreateBlob client owner repo blob s =
         (Ok b, set_blobs (<[sha_blob content := content]> (blobs s)) s) ∧
    Blob.SHA b = Some (sha_blob content).
Proof.
  intros Hs Hc He. unfold mem_CreateBlob. rewrite (accept_request_serves s Hs), Hc, He. eauto.
Qed.

Lemma overlay_nil entries : overlay [] entries = entries.
Proof. done. Qed.

Lemma mem_CreateTree_serves s entries :
  serves client owner repo s → entries ≠ [] → forallb (valid_entry s) entries = true →
  mem_CreateTree client owner repo "" entries s =
    (Ok {| Tree.SHA := Some (sha_tree entries); Tree.Entries := entries;
           Tree.Truncated := Some false |},
     set_trees (<[sha_tree entries := entries]> (trees s)) s).
Proof.
  intros Hs Hne Hv. unfold mem_CreateTree. rewrite (accept_request_serves s Hs). simpl.
  by rewrite Hv, bool_decide_eq_false_2.
Qed.

Lemma mem_CreateCommit_serves s commit tree message :
  serves client owner repo s →
  Commit.Tree commit ≫= Tree.SHA = Some tree → Commit.Message commit = Some message →
  Commit.Parents commit = [] → is_Some (trees s !! tree) →
  ∃ stored,
    mem_CreateCommit client owner repo commit s =
      (Ok stored, set_commits (<[sha_commit tree [] message := stored]> (commits s)) s) ∧
    Commit.SHA stored = Some (sha_commit tree [] message) ∧
    Commit.Parents stored = [] ∧ Commit.Message stored = Some message ∧
    Commit.Tree stored ≫= Tree.SHA = Some tree.
Proof.
  intros Hs Ht Hm Hp Hin. unfold mem_CreateCommit.
  rewrite (accept_request_serves s Hs), Ht, Hm, Hp, bool_decide_eq_true_2 by done.
  simpl. eauto 10.
Qed.

Lemma mem_UpdateRef_forced s ref name sha old :
  serves client owner repo s →
  Reference.Ref ref = Some name → Reference.Object ref ≫= GitObject.SHA = Some sha →
  refs s !! name = Some old → is_Some (commits s !! sha) →
  ∃ r, mem_UpdateRef client owner repo ref true s =
         (Ok r, set_refs (<[name := sha]> (refs s)) s).
Proof.
  intros Hs Hn Ho Hr Hc. unfold mem_UpdateRef.
  rewrite (accept_request_serves s Hs), Hn, Ho, Hr, bool_decide_eq_true_2 by done.
  simpl. eauto.
Qed.

End serves.

(** ** The store keeps the laws of the service *)

Section mem_laws.
Context (client : Client) (owner repo : string).
Implicit Types (s : store).

Lemma accept_request_refs s : refs (accept_request client owner repo s).2 = refs s.
Proof. unfold accept_request. by repeat case_match. Qed.

(** A request is looked at by [accept_request] first. *)
Ltac enter_request s :=
  pose proof (accept_request_refs s);
  destruct (accept_request client owner repo s) as [[[]|?] ?]; simpl in *.

Lemma mem_GetRef_refs ref s : refs (mem_GetRef client owner repo ref s).2 = refs s.
Proof. unfold mem_GetRef. enter_request s; by repeat case_match. Qed.

Lemma mem_GetRef_name ref s a :
  (mem_GetRef client owner repo ref s).1 = Ok a → Reference.Ref a = Some ref.
Proof. unfold mem_GetRef. enter_request s; repeat case_match; naive_solver. Qed.

Lemma mem_CreateBlob_refs blob s : refs (mem_CreateBlob client owner repo blob s).2 = refs s.
Proof. unfold mem_CreateBlob. enter_request s; by repeat case_match. Qed.

Lemma mem_CreateTree_refs base entries s :
  refs (mem_CreateTree client owner repo base entries s).2 = refs s.
Proof. unfold mem_CreateTree. enter_request s; by repeat case_match. Qed.

Lemma mem_CreateCommit_refs commit s :
  refs (mem_CreateCommit client owner repo commit s).2 = refs s.
Proof. unfold mem_CreateCommit. enter_request s; by repeat case_match. Qed.

Lemma mem_UpdateRef_failed ref force s e :
  (mem_UpdateRef client owner repo ref force s).1 = Err e →
  refs (mem_UpdateRef client owner repo ref force s).2 = refs s.
Proof. unfold mem_UpdateRef. enter_request s; by repeat case_match. Qed.

Lemma mem_UpdateRef_moved ref force s a :
  (mem_UpdateRef client owner repo ref force s).1 = Ok a →
  ∃ name sha,
    Reference.Ref ref = Some name ∧ Reference.Object ref ≫= GitObject.SHA = Some sha ∧
    is_Some (refs s !! name) ∧
    refs (mem_UpdateRef client owner repo ref force s).2 = <[name := sha]> (refs s).
Proof.
  unfold mem_UpdateRef. enter_request s; [|done].
  destruct (Reference.Ref ref) as [name|]; [|done].
  destruct (Reference.Object ref ≫= GitObject.SHA) as [sha|]; [|done].
  destruct (refs _ !! name) as [old|] eqn:Hold; [|done].
  repeat case_match; try done. intros _. exists name, sha. simpl.
  split_and!; [done..|by rewrite <-H, Hold|by rewrite H].
Qed.

End mem_laws.

#[export] Instance mem_laws : GitLaws store := {|
  heads := refs;
  GetRef_heads := mem_GetRef_refs;
  GetRef_name := mem_GetRef_name;
  CreateBlob_heads := mem_CreateBlob_refs;
  CreateTree_heads := mem_CreateTree_refs;
  CreateCommit_heads := mem_CreateCommit_refs;
  UpdateRef_failed := mem_UpdateRef_failed;
  UpdateRef_moved := mem_UpdateRef_moved
|}.
