(* ===== verification/Examples.v ===== *)
(** * Concrete inputs

    The call of [main] ([src/main.go], lines 99-107 and 136) on the example
    repository of [MemGit], and a call with two files: the inputs at which
    the witnesses of the development evaluate the machine. *)

From stdpp Require Import prelude strings list gmap.
From S2P Require Import Prelude GoError Channel GoMap GitTypes GitService Machine MemGit.

(** The server: the example repository, which accepts the token ["tok"] and
    fails no request. *)
Definition ex_store : store := example_store "tok" [].

(** The server when the third request fails. *)
Definition ex_faulty_store : store :=
  example_store "tok" [None; None; Some "502 Bad Gateway"].

(** Two files. *)
Definition ex_files : gmap string string :=
  {[ "main.go" := "package main"; "go.mod" := "module m" ]}.

(** The arguments of the call, [files] in the order of the seed [[1]]. *)
Definition ex_args : Args :=
  {| client := NewClient "tok"; owner := "Santosh-etailify"; repo := "gitapis6";
     branch := "main"; files := range_order [1] ex_files; commitMessage := "two files" |}.

(** The configuration after [GetRef], the start of both goroutines and the
    call of [CreateBlob] of the first: it stands before its send. *)
Definition ex_sending : config store := run (args := ex_args) [0; 0; 0; 1] (init ex_store).

(** The configuration in which a run without fault ends. *)
Definition ex_final : config store := run (args := ex_args) (replicate 12 0) (init ex_store).

(** The configuration in which a run with a failed upload ends when the
    goroutines run to their end. *)
Definition ex_failed : config store :=
  run (args := ex_args) (replicate 12 0) (init ex_faulty_store).

(** The server when the second request, the first upload, fails. *)
Definition ex_faulty_first : store := example_store "tok" [None; Some "502 Bad Gateway"].

(** The configuration in which the caller has returned at the failed
    upload of the first goroutine while the second has not made its call. *)
Definition ex_early : config store :=
  run (args := ex_args) (replicate 6 0) (init ex_faulty_first).

(** A server that answers every call with empty values: the reference it
    gives has no object. *)
Definition bare_service : GitService unit :=
  {| GetRef _ _ _ ref s :=
       (Ok {| Reference.Ref := String_ ref; Reference.URL := None;
              Reference.Object := None; Reference.NodeID := None |}, s);
     CreateBlob _ _ _ blob s := (Ok blob, s);
     CreateTree _ _ _ _ entries s :=
       (Ok {| Tree.SHA := None; Tree.Entries := entries; Tree.Truncated := None |}, s);
     CreateCommit _ _ _ commit s := (Ok commit, s);
     UpdateRef _ _ _ ref _ s := (Ok ref, s) |}.

(** The configuration in which a run on that server ends. *)
Definition ex_bare : config unit :=
  run (H := bare_service) (args := ex_args) (replicate 12 0) (init tt).

(** The configuration in which that run ends when the second goroutine has
    run to its end after the return of the caller. *)
Definition ex_undrained : config store :=
  run (args := ex_args) (replicate 12 0) (init ex_faulty_first).
