(* ===== verification/Semantics.v ===== *)
(** * The semantics of the machine

    The executable steps of [Machine] and the rules agree ([step_iff_rule]),
    a schedule follows the interleaving and every interleaving is followed
    by some schedule ([run_reachable], [rtc_step_run]).  The invariants of
    [Invariants] are proved by cases on the rules and carried to
    [commitMultipleFiles] through these lemmas. *)

From stdpp Require Import prelude strings list gmap relations.
From S2P Require Import Prelude GoError Channel GoMap GitTypes GitService Machine.

Section semantics.
Context {S : Type} `{GitService S}.
Context {args : Args}.

Implicit Types (c : config S) (t : thread) (i k : nat).

(** Once a rule is chosen, its premises are in the context. *)
Ltac by_rule := by (econstructor; eauto; lia).

Lemma step_main_rule c c' : step_main c = Some c' → rule c c'.
Proof.
  unfold step_main, collect, deliver, create_tree. intros Hs.
  destruct (main c) eqn:Hm; try done.
  - destruct (GetRef _ _ _ _ _) as [[ref|e] s] eqn:Hc; simplify_eq; by_rule.
  - simplify_eq. by_rule.
  - case_bool_decide.
    + destruct (chan_recv _) as [[r ch]|] eqn:Hr; [|done].
      destruct (err r) eqn:He; simplify_eq/=; rewrite ?He; by_rule.
    + destruct (CreateTree _ _ _ _ _ _) as [[tree|e] s] eqn:Hc; simplify_eq; by_rule.
  - destruct (CreateCommit _ _ _ _ _) as [[commit|e] s] eqn:Hc; [|simplify_eq; by_rule].
    destruct (set_ref_sha _ _) eqn:Hr; simplify_eq; by_rule.
  - destruct (UpdateRef _ _ _ _ _ _) as [[ref'|e] s] eqn:Hc; simplify_eq; by_rule.
Qed.

Lemma step_worker_rule i c c' : step_worker i c = Some c' → rule c c'.
Proof.
  unfold step_worker, receiving, deliver. intros Hs.
  destruct (workers c !! i) as [[p ct|r|]|] eqn:Hw; try done.
  - destruct (CreateBlob _ _ _ _ _) as [a s] eqn:Hc. simplify_eq. by_rule.
  - destruct (chan_send _ _) as [ch|] eqn:Hch; [simplify_eq; by_rule|].
    case_bool_decide; [|done]. destruct (main c) eqn:Hm; try done.
    case_bool_decide; [|done].
    destruct (err r) eqn:He; simplify_eq/=; rewrite ?He; by_rule.
Qed.

Lemma rule_step c c' : rule c c' → step c c'.
Proof.
  destruct 1.
  1-12: apply step_of_main; unfold step_main, collect, deliver, create_tree.
  13-16: eapply step_of_worker; unfold step_worker, receiving, deliver.
  all: repeat match goal with
         | H : _ = _ |- _ => rewrite H
         end; simpl;
       rewrite ?bool_decide_eq_true_2, ?bool_decide_eq_false_2 by lia;
       repeat match goal with
         | H : _ = _ |- _ => rewrite H
         end; done.
Qed.

Lemma step_rule c c' : step c c' → rule c c'.
Proof. destruct 1; eauto using step_main_rule, step_worker_rule. Qed.

Lemma step_iff_rule c c' : step c c' ↔ rule c c'.
Proof. split; eauto using step_rule, rule_step. Qed.

Lemma step_thread_step t c c' : step_thread t c = Some c' → step c c'.
Proof. destruct t; simpl; eauto using step_of_main, step_of_worker. Qed.

Lemma step_worker_lt i c : is_Some (step_worker i c) → i < length (workers c).
Proof.
  unfold step_worker. intros [c' Hs]. apply lookup_lt_is_Some.
  destruct (workers c !! i); [done|simplify_eq].
Qed.

Lemma elem_of_enabled t c :
  t ∈ enabled c ↔ is_Some (step_thread t c).
Proof.
  unfold enabled, threads. rewrite list_elem_of_filter. split; [naive_solver|].
  intros Hs. split; [done|]. destruct t as [|i]; [left|right].
  apply list_elem_of_fmap. exists i. split; [done|].
  apply elem_of_seq. apply step_worker_lt in Hs. lia.
Qed.

Lemma sched_step_step k c c' : sched_step k c = Some c' → step c c'.
Proof.
  unfold sched_step. destruct (enabled c !! _) as [t|]; [|done]. apply step_thread_step.
Qed.

(** A step is the step of an enabled thread, which some number chooses. *)
Lemma step_sched_step c c' : step c c' → ∃ k, sched_step k c = Some c'.
Proof.
  intros Hs.
  assert (∃ t, step_thread t c = Some c') as [t Ht].
  { destruct Hs as [c c' ?|i c c' ?]; [by exists TMain|by exists (TWorker i)]. }
  assert (t ∈ enabled c) as [k Hk]%list_elem_of_lookup by (apply elem_of_enabled; eauto).
  exists k. unfold sched_step.
  rewrite Nat.mod_small by (by eapply lookup_lt_Some). by rewrite Hk.
Qed.

Lemma sched_step_None k c : sched_step k c = None ↔ enabled c = [].
Proof.
  unfold sched_step. split.
  - destruct (enabled c) as [|t en] eqn:Hen; [done|].
    destruct ((t :: en) !! _) as [t'|] eqn:Ht.
    + assert (t' ∈ enabled c) as [? ?]%elem_of_enabled.
      { rewrite Hen. by eapply list_elem_of_lookup_2. }
      congruence.
    + apply lookup_ge_None in Ht.
      pose proof (Nat.mod_upper_bound k (length (t :: en))). simpl in *. lia.
  - by intros ->.
Qed.

Lemma run_reachable sched c : rtc step c (run sched c).
Proof.
  revert c. induction sched as [|k sched IH]; intros c; simpl; [done|].
  destruct (sched_step k c) as [c'|] eqn:Hk; [|done].
  eapply rtc_l; [by eapply sched_step_step|done].
Qed.

Lemma rtc_step_run c c' : rtc step c c' → ∃ sched, run sched c = c'.
Proof.
  induction 1 as [c|c c1 c' Hs _ [sched IH]]; [by exists []|].
  apply step_sched_step in Hs as [k Hk]. exists (k :: sched). simpl. by rewrite Hk.
Qed.

Lemma run_main_reachable fuel sched c : rtc step c (run_main fuel sched c).
Proof.
  revert sched c. induction fuel as [|fuel IH]; intros sched c; simpl; [done|].
  destruct (returned c); [done|].
  destruct (sched_step _ c) as [c'|] eqn:Hk; [|done].
  eapply rtc_l; [by eapply sched_step_step|done].
Qed.

(** Induction over the reachable configurations, by the rules. *)
Lemma reachable_ind s (P : config S → Prop) :
  P (init s) →
  (∀ c c', reachable s c → P c → rule c c' → P c') →
  ∀ c, reachable s c → P c.
Proof.
  intros Hi Hstep c Hr. eapply (rtc_ind_r (λ c, P c)); [exact Hi| |exact Hr].
  intros c1 c2 Hr1 Hs IH. eapply Hstep; [exact Hr1|exact IH|by apply step_rule].
Qed.

Lemma reachable_step s c c' : reachable s c → step c c' → reachable s c'.
Proof. intros Hr Hs. by eapply rtc_r. Qed.

Lemma reachable_run s sched : reachable s (run sched (init s)).
Proof. apply run_reachable. Qed.

Lemma reachable_run_main s fuel sched : reachable s (run_main fuel sched (init s)).
Proof. apply run_main_reachable. Qed.

(** A thread that has returned takes no step. *)
Lemma returned_step_main c : returned c = true → step_main c = None.
Proof. unfold returned, step_main. by destruct (main c). Qed.

End semantics.
