(* ===== verification/Sequential.v ===== *)
(** * The sequential reference program

    What [commitMultipleFiles] computes when nothing runs in parallel: the
    uploads of lines 36-46 one after the other in some order, then the
    results taken in some order by the loop of lines 51-62, then the three
    calls of lines 65-86.  [sequential seed_u seed_r] is that program with
    the two orders chosen by [seed_u] and [seed_r]; it gives the outcome,
    the server, the calls made and the lines printed.  The machine is
    compared with it in [Refinement]. *)

From stdpp Require Import prelude strings list.
From S2P Require Import Prelude GoError Channel GoMap GitTypes GitService Machine.

(** What a run leaves: how the call ended, the server, the log of the calls
    and the lines printed. *)
Definition run_result (S : Type) : Type := outcome * S * list call * list string.

Definition outcome_in {S} (r : run_result S) : outcome := r.1.1.1.
Definition server_in {S} (r : run_result S) : S := r.1.1.2.
Definition calls_in {S} (r : run_result S) : list call := r.1.2.
Definition out_in {S} (r : run_result S) : list string := r.2.

Local Open Scope go_scope.

Section sequential.
Context {S : Type} `{GitService S} {args : Args}.
Implicit Types (s : S) (log : list call) (o : list string) (rs : list blobResult).

(** What a configuration of the machine has left so far. *)
Definition result_of (c : config S) : run_result S :=
  (outcome_of c, remote c, calls c, out c).

(** The server after the call of [GetRef], line 18. *)
Definition after_getref (s0 : S) : S := (GetRef client owner repo (branch_ref branch) s0).2.

(** The calls of [CreateBlob] for a list of files, in its order. *)
Definition upload_calls (fs : list (string * string)) : list call :=
  (λ f, blob_call f.2) <$> fs.

(** The bodies of the goroutines of lines 36-46 run one after the other:
    the results they send and the server they leave. *)
Fixpoint upload_all (fs : list (string * string)) (s : S) : list blobResult * S :=
  match fs with
  | [] => ([], s)
  | (p, ct) :: fs =>
      let '(a, s) := CreateBlob client owner repo (blob_request ct) s in
      let '(rs, s) := upload_all fs s in
      (blob_result p a :: rs, s)
  end.

(** The loop of lines 51-62 over the results in the order they are
    received: the entries, or the error of the first failed upload. *)
Fixpoint gather (rs : list blobResult) : answer (list TreeEntry.t) :=
  match rs with
  | [] => Ok []
  | r :: rs =>
      match err r with
      | Some e => Err (errBlob (path r) e)
      | None => entries <-? gather rs ;; Ok (tree_entry r :: entries)
      end
  end.

(** Lines 82-89: the forced update and the line printed. *)
Definition seq_update (ref : Reference.t) (commit : Commit.t) s log o : run_result S :=
  let '(a, s) := UpdateRef client owner repo ref force s in
  let log := log ++ [update_call ref] in
  match a with
  | Err e => (Returned (Some (errUpdateRef e)), s, log, o)
  | Ok _ => (Returned None, s, log, o ++ [created_line commit])
  end.

(** Lines 71-82: the commit, and the new target of the reference. *)
Definition seq_commit (ref : Reference.t) (tree : Tree.t) s log o : run_result S :=
  let '(a, s) := CreateCommit client owner repo (newCommit commitMessage tree) s in
  let log := log ++ [commit_call tree] in
  match a with
  | Err e => (Returned (Some (errCreateCommit e)), s, log, o)
  | Ok commit =>
      match set_ref_sha ref commit with
      | None => (Panicked nil_dereference, s, log, o)
      | Some ref => seq_update ref commit s log o
      end
  end.

(** Lines 65-68: the tree. *)
Definition seq_tree (ref : Reference.t) (entries : list TreeEntry.t) s log o : run_result S :=
  let '(a, s) := CreateTree client owner repo baseTreeSHA entries s in
  let log := log ++ [tree_call entries] in
  match a with
  | Err e => (Returned (Some (errCreateTree e)), s, log, o)
  | Ok tree => seq_commit ref tree s log o
  end.

(** The whole function, the files uploaded in the order [seed_u] gives and
    their results received in the order [seed_r] gives. *)
Definition sequential (seed_u seed_r : list nat) s : run_result S :=
  let '(a, s) := GetRef client owner repo (branch_ref branch) s in
  let log := [getref_call] in
  match a with
  | Err e => (Returned (Some (errGetRef e)), s, log, [])
  | Ok ref =>
      let uploads := shuffle seed_u files in
      let '(rs, s) := upload_all uploads s in
      let log := log ++ upload_calls uploads in
      match gather (shuffle seed_r rs) with
      | Err e => (Returned (Some e), s, log, [])
      | Ok entries => seq_tree ref entries s log []
      end
  end.

(** ** Lemmas *)

Lemma upload_calls_app fs1 fs2 :
  upload_calls (fs1 ++ fs2) = upload_calls fs1 ++ upload_calls fs2.
Proof. apply fmap_app. Qed.

Lemma upload_calls_perm fs1 fs2 : fs1 ≡ₚ fs2 → upload_calls fs1 ≡ₚ upload_calls fs2.
Proof. apply fmap_Permutation. Qed.

Lemma upload_all_snoc fs p ct s a s' :
  CreateBlob client owner repo (blob_request ct) (upload_all fs s).2 = (a, s') →
  upload_all (fs ++ [(p, ct)]) s = ((upload_all fs s).1 ++ [blob_result p a], s').
Proof.
  revert s. induction fs as [|[q cq] fs IH]; intros s Ha; simpl in *.
  - by rewrite Ha.
  - destruct (CreateBlob _ _ _ _ s) as [b s1]. destruct (upload_all fs s1) as [rs s2] eqn:Hu.
    rewrite (IH s1); rewrite Hu; done.
Qed.

Lemma upload_all_app fs1 fs2 s :
  upload_all (fs1 ++ fs2) s =
    ((upload_all fs1 s).1 ++ (upload_all fs2 (upload_all fs1 s).2).1,
     (upload_all fs2 (upload_all fs1 s).2).2).
Proof.
  revert s. induction fs1 as [|[p ct] fs1 IH]; intros s; simpl.
  - by destruct (upload_all fs2 s).
  - destruct (CreateBlob _ _ _ _ s) as [a s1]. rewrite (IH s1).
    by destruct (upload_all fs1 s1).
Qed.

(** The results carry the paths of the files, in their order. *)
Lemma upload_all_path fs s : path <$> (upload_all fs s).1 = fs.*1.
Proof.
  revert s. induction fs as [|[p ct] fs IH]; intros s; simpl; [done|].
  destruct (CreateBlob _ _ _ _ s) as [a s1]. specialize (IH s1).
  destruct (upload_all fs s1) as [rs s2]. simpl in *. f_equal; [by destruct a|exact IH].
Qed.

Lemma upload_all_length fs s : length (upload_all fs s).1 = length fs.
Proof. by rewrite <-(length_fmap path), upload_all_path, length_fmap. Qed.

(** The server after the uploads is the server after their calls. *)
Lemma upload_all_replay fs s : (upload_all fs s).2 = replay client (upload_calls fs) s.
Proof.
  revert s. induction fs as [|[p ct] fs IH]; intros s; simpl; [done|].
  destruct (CreateBlob _ _ _ _ s) as [a s1] eqn:Ha. specialize (IH s1).
  destruct (upload_all fs s1) as [rs s2]. simpl in *. rewrite IH.
  unfold replay. simpl. by rewrite ?Ha.
Qed.

(** Every result is the answer of the server to the upload of one of the
    files, at the state the uploads before it left. *)
Lemma upload_all_elem_of fs s r :
  r ∈ (upload_all fs s).1 →
  ∃ fs1 p ct fs2, fs = fs1 ++ (p, ct) :: fs2 ∧
    r = blob_result p (CreateBlob client owner repo (blob_request ct) (upload_all fs1 s).2).1.
Proof.
  revert s. induction fs as [|[p ct] fs IH]; intros s; simpl; [by intros ?%elem_of_nil|].
  destruct (CreateBlob _ _ _ _ s) as [a s1] eqn:Ha. specialize (IH s1).
  destruct (upload_all fs s1) as [rs s2]. simpl in *.
  intros [->|Hr]%elem_of_cons.
  - exists [], p, ct, fs. simpl. by rewrite Ha.
  - destruct (IH Hr) as (fs1 & q & cq & fs2 & -> & ->).
    exists ((p, ct) :: fs1), q, cq, fs2. simpl. rewrite Ha.
    by destruct (upload_all fs1 s1).
Qed.

Lemma gather_Ok rs entries :
  gather rs = Ok entries ↔ entries = tree_entry <$> rs ∧ Forall (λ r, err r = None) rs.
Proof.
  revert entries. induction rs as [|r rs IH]; intros entries; simpl.
  - rewrite Forall_nil. split; [by intros [= <-]|by intros [-> _]].
  - rewrite Forall_cons. destruct (err r) as [e|]; [split; [done|by intros (_ & ? & _)]|].
    destruct (gather rs) as [es|e]; simpl.
    + destruct (IH es) as [[-> Hok] _]; [done|]. split; [by intros [= <-]|by intros [-> _]].
    + split; [done|]. intros (_ & _ & Hok).
      by destruct (IH (tree_entry <$> rs)) as [_ ?%(λ H, H (conj eq_refl Hok))].
Qed.

Lemma gather_snoc rs r entries :
  gather rs = Ok entries → err r = None → gather (rs ++ [r]) = Ok (entries ++ [tree_entry r]).
Proof.
  rewrite !gather_Ok, fmap_app, Forall_app, Forall_singleton. naive_solver.
Qed.

(** The loop returns at the first failed result and looks at no later one. *)
Lemma gather_failed rs r rest entries e :
  gather rs = Ok entries → err r = Some e →
  gather (rs ++ r :: rest) = Err (errBlob (path r) e).
Proof.
  intros [_ Hok]%gather_Ok Hr. induction Hok as [|r' rs Hr' _ IH]; simpl.
  - by rewrite Hr.
  - by rewrite Hr', IH.
Qed.

Lemma gather_length rs entries : gather rs = Ok entries → length entries = length rs.
Proof. intros [-> _]%gather_Ok. apply length_fmap. Qed.

(** ** The three last calls *)

Lemma seq_update_inv ref commit s log o r :
  seq_update ref commit s log o = r →
  calls_in r = log ++ [update_call ref] ∧
  server_in r = (UpdateRef client owner repo ref force s).2 ∧
  match (UpdateRef client owner repo ref force s).1 with
  | Err e => outcome_in r = Returned (Some (errUpdateRef e)) ∧ out_in r = o
  | Ok _ => outcome_in r = Returned None ∧ out_in r = o ++ [created_line commit]
  end.
Proof. intros <-. unfold seq_update. by destruct (UpdateRef _ _ _ _ _ _) as [[?|?] ?]. Qed.

Lemma seq_commit_inv ref tree s log o r :
  seq_commit ref tree s log o = r →
  let a := CreateCommit client owner repo (newCommit commitMessage tree) s in
  match a.1 with
  | Err e => r = (Returned (Some (errCreateCommit e)), a.2, log ++ [commit_call tree], o)
  | Ok commit =>
      match set_ref_sha ref commit with
      | None => r = (Panicked nil_dereference, a.2, log ++ [commit_call tree], o)
      | Some ref' => r = seq_update ref' commit a.2 (log ++ [commit_call tree]) o
      end
  end.
Proof.
  intros <-. unfold seq_commit. destruct (CreateCommit _ _ _ _ _) as [[commit|?] ?]; [|done].
  simpl. by destruct (set_ref_sha _ _).
Qed.

Lemma seq_tree_inv ref entries s log o r :
  seq_tree ref entries s log o = r →
  let a := CreateTree client owner repo baseTreeSHA entries s in
  match a.1 with
  | Err e => r = (Returned (Some (errCreateTree e)), a.2, log ++ [tree_call entries], o)
  | Ok tree => r = seq_commit ref tree a.2 (log ++ [tree_call entries]) o
  end.
Proof. intros <-. unfold seq_tree. by destruct (CreateTree _ _ _ _ _ _) as [[?|?] ?]. Qed.

(** The calls of a run that returns nil: the tree the server answered, the
    commit it answered for that tree and the forced update, and one line
    printed. *)
Lemma seq_tree_success ref entries s log o s' log' o' :
  seq_tree ref entries s log o = (Returned None, s', log', o') →
  ∃ tree commit ref',
    (CreateTree client owner repo baseTreeSHA entries s).1 = Ok tree ∧
    (CreateCommit client owner repo (newCommit commitMessage tree)
       (CreateTree client owner repo baseTreeSHA entries s).2).1 = Ok commit ∧
    set_ref_sha ref commit = Some ref' ∧
    log' = log ++ [tree_call entries; commit_call tree; update_call ref'] ∧
    o' = o ++ [created_line commit].
Proof.
  intros Ht%seq_tree_inv. simpl in Ht.
  destruct (CreateTree _ _ _ _ _ _).1 as [tree|] eqn:Htree; [|done].
  symmetry in Ht. apply seq_commit_inv in Ht. simpl in Ht.
  destruct (CreateCommit _ _ _ _ _).1 as [commit|] eqn:Hcommit; [|done].
  destruct (set_ref_sha ref commit) as [ref'|] eqn:Hset; [|done].
  symmetry in Ht. apply seq_update_inv in Ht as (Hl & _ & Ho). exists tree, commit, ref'.
  unfold calls_in, out_in, outcome_in in *. simpl in *. rewrite <-!app_assoc in Hl.
  by destruct (UpdateRef _ _ _ _ _ _).1; destruct Ho.
Qed.

(** The run panics only at line 82, when the reference [GetRef] gave has no
    object, and then the commit is already created. *)
Lemma seq_tree_panic ref entries s log o msg s' log' o' :
  seq_tree ref entries s log o = (Panicked msg, s', log', o') →
  Reference.Object ref = None ∧ msg = nil_dereference ∧ o' = o ∧
  ∃ tree, log' = log ++ [tree_call entries; commit_call tree].
Proof.
  intros Ht%seq_tree_inv. simpl in Ht. destruct (CreateTree _ _ _ _ _ _).1 as [tree|]; [|done].
  symmetry in Ht. apply seq_commit_inv in Ht. simpl in Ht.
  destruct (CreateCommit _ _ _ _ _).1 as [commit|]; [|done].
  destruct (set_ref_sha ref commit) as [ref'|] eqn:Hset.
  - symmetry in Ht. apply seq_update_inv in Ht as (_ & _ & Ho).
    unfold outcome_in in Ho. simpl in Ho. by destruct (UpdateRef _ _ _ _ _ _).1; destruct Ho.
  - simplify_eq. unfold set_ref_sha in Hset. destruct (Reference.Object ref); [done|].
    rewrite <-app_assoc. eauto.
Qed.

(** The calls of a run that returns the error of one of the three last
    calls: those up to the failed one, and nothing printed. *)
Lemma seq_tree_error ref entries s log o e s' log' o' :
  seq_tree ref entries s log o = (Returned (Some e), s', log', o') →
  o' = o ∧ ∃ st e0 tree ref',
    e = stage_error st e0 ∧
    match st with
    | StCreateTree => log' = log ++ [tree_call entries]
    | StCreateCommit => log' = log ++ [tree_call entries; commit_call tree]
    | StUpdateRef =>
        log' = log ++ [tree_call entries; commit_call tree; update_call ref']
    | _ => False
    end.
Proof.
  intros Ht%seq_tree_inv. simpl in Ht. destruct (CreateTree _ _ _ _ _ _).1 as [tree|e1].
  2:{ simplify_eq. split; [done|]. by exists StCreateTree, e1, inhabitant, ref. }
  symmetry in Ht. apply seq_commit_inv in Ht. simpl in Ht.
  destruct (CreateCommit _ _ _ _ _).1 as [commit|e1].
  2:{ simplify_eq. split; [done|]. exists StCreateCommit, e1, tree, ref.
      by rewrite <-app_assoc. }
  destruct (set_ref_sha ref commit) as [ref'|]; [|done].
  symmetry in Ht. apply seq_update_inv in Ht as (Hl & _ & Ho).
  unfold calls_in, out_in, outcome_in in *. simpl in *.
  destruct (UpdateRef _ _ _ _ _ _).1 as [?|e1]; [by destruct Ho|].
  destruct Ho as [[= ->] ->]. split; [done|]. exists StUpdateRef, e1, tree, ref'.
  by rewrite Hl, <-!app_assoc.
Qed.

(** What the three last calls print: the address of the commit when they
    all went well, nothing otherwise. *)
Lemma seq_tree_out ref entries s log o :
  let r := seq_tree ref entries s log o in
  (outcome_in r ≠ Returned None ∧ out_in r = o) ∨
  (outcome_in r = Returned None ∧ ∃ commit, out_in r = o ++ [created_line commit]).
Proof.
  unfold seq_tree, seq_commit, seq_update.
  destruct (CreateTree _ _ _ _ _ _) as [[tree|?] s1]; [|by left].
  destruct (CreateCommit _ _ _ _ _) as [[commit|?] s2]; [|by left].
  destruct (set_ref_sha _ _) as [ref'|]; [|by left].
  destruct (UpdateRef _ _ _ _ _ _) as [[?|?] s3]; [right|by left].
  split; [done|]. by exists commit.
Qed.

(** The sequential program with the uploads in the order [U] and the
    results in the order [rs]: some seeds give these orders. *)
Lemma sequential_orders s0 ref U rs :
  (GetRef client owner repo (branch_ref branch) s0).1 = Ok ref →
  U ≡ₚ files → rs ≡ₚ (upload_all U (after_getref s0)).1 →
  ∃ seed_u seed_r, sequential seed_u seed_r s0 =
    match gather rs with
    | Err e =>
        (Returned (Some e), (upload_all U (after_getref s0)).2,
         getref_call :: upload_calls U, [])
    | Ok entries =>
        seq_tree ref entries (upload_all U (after_getref s0)).2
          (getref_call :: upload_calls U) []
    end.
Proof.
  intros Href HU Hrs. destruct (shuffle_complete files U HU) as [su Hsu].
  destruct (shuffle_complete _ rs Hrs) as [sr Hsr]. exists su, sr.
  unfold sequential, after_getref in *. destruct (GetRef _ _ _ _ _) as [a s1].
  simpl in *. subst a. rewrite Hsu. destruct (upload_all U s1) as [rs' s2].
  simpl in *. by rewrite Hsr.
Qed.

End sequential.
