(* ===== verification/Invariants.v ===== *)
(** * Invariants of the machine

    What holds in every configuration a run of [commitMultipleFiles] can
    reach, and what it gives: the channel [results] never holds more than
    its capacity and no send on it ever waits; a configuration in which no
    thread can move is one where the caller has returned and every goroutine
    is done, so none is left blocked; every step lowers [measure], which
    starts at [4 * len(files) + 4], so every run is finite and
    [commitMultipleFiles], which runs with that fuel, returns. *)

From stdpp Require Import prelude strings list gmap relations.
From S2P Require Import Prelude GoError Channel GoMap GitTypes GitService Machine.
From S2P Require Import MemGit Examples Semantics.

(** A goroutine that has returned counts for one. *)
Definition is_done (w : worker) : nat :=
  match w with
  | WDone => 1
  | _ => 0
  end.

(** The number of goroutines that have returned, each after its send. *)
Definition done_count (ws : list worker) : nat := sum_list_with is_done ws.

(** The steps a goroutine has left. *)
Definition worker_fuel (w : worker) : nat :=
  match w with
  | WStart _ _ => 2
  | WSend _ => 1
  | WDone => 0
  end.

Section invariants.
Context {S : Type} `{GitService S} {args : Args}.
Implicit Types (c : config S) (ws : list worker) (w : worker) (i : nat).

(** The steps the caller and the goroutines it has yet to start have left. *)
Definition main_fuel (p : pc) : nat :=
  match p with
  | PGetRef => 4 * length files + 4
  | PSpawn _ _ _ rest => 3 * (length rest + 1) + length files + 3
  | PCollect _ i _ => (length files - i) + 3
  | PCreateCommit _ _ => 2
  | PUpdateRef _ _ => 1
  | PReturn _ | PPanic _ => 0
  end.

(** A bound on the steps a configuration has left. *)
Definition measure c : nat :=
  main_fuel (main c) + sum_list_with worker_fuel (workers c).

(** Every goroutine was started and has returned. *)
Definition finished c : Prop :=
  length (workers c) = length files ∧ done_count (workers c) = length files.

(** What the program counter of the caller says of the rest: before
    [GetRef] there is no goroutine; while goroutines are started, those
    started and those to start are the files, and nothing was received; in
    the receiving loop there are [len(files)] goroutines, [i] results were
    received, and [entries] has one entry for each; past that loop, unless
    it was left at a failed upload, every goroutine has returned. *)
Definition pc_inv c : Prop :=
  match main c with
  | PGetRef => workers c = []
  | PSpawn _ _ _ rest =>
      cap (results c) = length files ∧
      length (workers c) + Datatypes.S (length rest) = length files ∧
      chan_len (results c) = done_count (workers c)
  | PCollect _ i entries =>
      cap (results c) = length files ∧
      length (workers c) = length files ∧
      i + chan_len (results c) = done_count (workers c) ∧
      length entries = i
  | PCreateCommit _ _ | PUpdateRef _ _ | PPanic _ | PReturn None => finished c
  | PReturn (Some _) => True
  end.

(** The invariant: every buffered result was sent by a goroutine that has
    returned, the channel has room for one result of each goroutine and for
    no more than [len(files)], and [pc_inv]. *)
Definition inv c : Prop :=
  chan_len (results c) ≤ done_count (workers c) ∧
  length (workers c) ≤ cap (results c) ∧
  cap (results c) ≤ length files ∧
  pc_inv c.

(** No thread can move. *)
Definition quiescent c : Prop := ∀ c', ¬ step c c'.

(** Every goroutine has returned. *)
Definition all_done c : Prop := Forall (λ w, w = WDone) (workers c).

(** ** Counting lemmas *)

Lemma is_done_le w : is_done w ≤ 1.
Proof. destruct w; simpl; lia. Qed.

Lemma is_done_zero w : is_done w = 0 ↔ w ≠ WDone.
Proof. destruct w; naive_solver. Qed.

Lemma done_count_app ws w : done_count (ws ++ [w]) = done_count ws + is_done w.
Proof. unfold done_count. rewrite sum_list_with_app. simpl. lia. Qed.

Lemma done_count_insert ws i w w' :
  ws !! i = Some w → done_count (<[i:=w']> ws) + is_done w = done_count ws + is_done w'.
Proof. apply sum_list_with_insert. Qed.

Lemma done_count_le ws : done_count ws ≤ length ws.
Proof. apply sum_list_with_le_length, is_done_le. Qed.

Lemma done_count_lt ws i w : ws !! i = Some w → w ≠ WDone → done_count ws < length ws.
Proof.
  intros Hi Hw. eapply sum_list_with_lt_length; [apply is_done_le|done|].
  by apply is_done_zero.
Qed.

Lemma done_count_lt_inv ws :
  done_count ws < length ws → ∃ i w, ws !! i = Some w ∧ w ≠ WDone.
Proof.
  intros (i & w & Hi & Hw)%sum_list_with_lt_length_inv; [|apply is_done_le].
  exists i, w. by rewrite <-is_done_zero.
Qed.

Lemma done_count_all ws : done_count ws = length ws → Forall (λ w, w = WDone) ws.
Proof.
  induction ws as [|w ws IH]; simpl; [done|]. intros Hc.
  pose proof (done_count_le ws). pose proof (is_done_le w).
  unfold done_count in *. constructor; [destruct w; simpl in *; done || lia|].
  apply IH. lia.
Qed.

Lemma main_fuel_enter_loop ref todo :
  main_fuel (enter_loop ref todo) = 3 * length todo + length files + 3.
Proof. destruct todo as [|[p ct] rest]; simpl; lia. Qed.

(** The facts the steps of a channel and of the pool give on the counters. *)
Ltac count_facts :=
  repeat match goal with
    | H : chan_recv _ = Some _ |- _ =>
        pose proof (chan_recv_len _ _ _ H); apply chan_recv_Some in H as [? ?]
    | H : chan_send _ _ = Some _ |- _ =>
        pose proof (chan_send_len _ _ _ H); pose proof (chan_send_cap _ _ _ H); clear H
    | H : chan_send _ _ = None |- _ => apply chan_send_None in H
    | H : workers _ !! ?i = Some ?w |- context [<[?i:=?w']> _] =>
        lazymatch goal with
        | _ : done_count (<[i:=w']> _) + _ = _ |- _ => fail
        | _ => pose proof (done_count_insert _ _ _ w' H);
               pose proof (sum_list_with_insert worker_fuel _ _ _ w' H);
               try pose proof (done_count_lt _ _ _ H ltac:(done))
        end
    end.

(** ** The invariant holds in every reachable configuration *)

Lemma inv_init s : inv (init s).
Proof. unfold inv, pc_inv, chan_len, done_count. simpl. repeat split; lia. Qed.

Lemma pc_inv_enter_loop c ref todo :
  cap (results c) = length files →
  length (workers c) + length todo = length files →
  chan_len (results c) = done_count (workers c) →
  pc_inv (set_main (enter_loop ref todo) c).
Proof.
  intros. unfold pc_inv. destruct todo as [|[p ct] rest]; simpl in *; repeat split; lia.
Qed.

Lemma inv_rule c c' : inv c → rule c c' → inv c'.
Proof.
  intros (Hlen & Hcap & Hfiles & Hpc) Hr. unfold pc_inv in Hpc.
  destruct Hr; destruct (main c) eqn:Hm; simplify_eq/=;
    try (rewrite Hpc in *; simplify_eq/=);
    (split; [|split; [|split]]); try apply pc_inv_enter_loop; unfold make_results;
    unfold pc_inv, finished, make_results in *; simpl in *; rewrite ?Hm; count_facts;
    pose proof (done_count_le (workers c));
    rewrite ?length_app, ?done_count_app, ?length_insert in *;
    unfold chan_len in *; simpl in *; destruct_and?; simplify_eq/=;
    repeat case_match; repeat split; rewrite ?Hpc; simpl; try lia.
Qed.

Lemma inv_reachable s c : reachable s c → inv c.
Proof. apply reachable_ind; [apply inv_init|eauto using inv_rule]. Qed.

(** ** No send waits *)

Lemma send_ready c i r :
  inv c → workers c !! i = Some (WSend r) → is_Some (chan_send r (results c)).
Proof.
  intros (Hlen & Hcap & _ & _) Hi. apply chan_send_is_Some.
  assert (done_count (workers c) < length (workers c)); [|lia].
  by eapply done_count_lt.
Qed.

Lemma worker_ready c i w :
  inv c → workers c !! i = Some w → w ≠ WDone → is_Some (step_worker i c).
Proof.
  intros Hinv Hi Hw. unfold step_worker. rewrite Hi. destruct w as [p ct|r|]; [|..|done].
  - by destruct (CreateBlob _ _ _ _ _).
  - by destruct (send_ready c i r Hinv Hi) as [ch ->].
Qed.

Lemma inv_chan_wf c : inv c → chan_wf (results c).
Proof.
  intros (Hlen & Hcap & _ & _). unfold chan_wf. pose proof (done_count_le (workers c)). lia.
Qed.

(** The hand-over of a result on a channel without buffer never takes
    place: a goroutine at its send finds room in the buffer. *)
Lemma handoff_never c i r :
  inv c → workers c !! i = Some (WSend r) → chan_send r (results c) ≠ None.
Proof. intros Hinv Hi Hs. destruct (send_ready c i r Hinv Hi) as [ch Hch]. congruence. Qed.

(** ** When every goroutine has returned *)

Lemma finished_worker c i w : finished c → workers c !! i = Some w → w = WDone.
Proof.
  intros [Hn Hd] Hi. rewrite <-Hn in Hd.
  by apply (proj1 (Forall_lookup _ _) (done_count_all _ Hd) i w).
Qed.

Lemma finished_all_done c : finished c → all_done c.
Proof. intros [Hn Hd]. apply done_count_all. congruence. Qed.

(** The receiving loop is left with every goroutine returned and the
    channel empty. *)
Lemma collect_finished c ref i entries :
  inv c → main c = PCollect ref i entries → length files ≤ i →
  finished c ∧ buf (results c) = [].
Proof.
  intros (_ & _ & _ & Hpc) Hm Hi. unfold pc_inv in Hpc. rewrite Hm in Hpc.
  destruct Hpc as (_ & Hn & Hd & _). pose proof (done_count_le (workers c)).
  unfold finished, chan_len in *. split; [lia|]. apply nil_length_inv. lia.
Qed.

(** ** Progress *)

Lemma progress c : inv c → returned c = false → ∃ c', step c c'.
Proof.
  intros Hinv Hret. pose proof Hinv as (Hlen & Hcap & _ & Hpc).
  destruct (step_main c) as [c'|] eqn:Hs; [exists c'; by constructor|].
  unfold returned, pc_inv, step_main, collect in *.
  destruct (main c) eqn:Hm; try done.
  - by destruct (GetRef _ _ _ _ _) as [[?|?] ?].
  - case_bool_decide; [|done]. destruct (chan_recv _) as [[r ch]|] eqn:Hr; [done|].
    apply chan_recv_None in Hr. destruct Hpc as (_ & Hn & Hi & _).
    destruct (done_count_lt_inv (workers c)) as (j & w & Hj & Hw); [lia|].
    destruct (worker_ready c j w Hinv Hj Hw) as [c' Hc']. exists c'. by econstructor.
  - destruct (CreateCommit _ _ _ _ _) as [[?|?] ?]; [|done]. by destruct (set_ref_sha _ _).
  - by destruct (UpdateRef _ _ _ _ _ _) as [[?|?] ?].
Qed.

Lemma quiescent_enabled c : quiescent c ↔ enabled c = [].
Proof.
  split.
  - intros Hq. destruct (enabled c) as [|t en] eqn:Hen; [done|].
    assert (t ∈ enabled c) as [c' Hc']%elem_of_enabled by (rewrite Hen; left).
    destruct (Hq c'). by eapply step_thread_step.
  - intros Hen c' [k Hk]%step_sched_step.
    apply (sched_step_None k) in Hen. congruence.
Qed.

Lemma quiescent_done c : inv c → quiescent c → returned c = true ∧ all_done c.
Proof.
  intros Hinv Hq. split.
  - destruct (returned c) eqn:Hret; [done|].
    destruct (progress c Hinv Hret) as [c' Hc']. by destruct (Hq c').
  - apply Forall_lookup. intros i w Hi. destruct (decide (w = WDone)) as [|Hw]; [done|].
    destruct (worker_ready c i w Hinv Hi Hw) as [c' Hc']. destruct (Hq c'). by econstructor.
Qed.

(** ** Every step lowers the measure *)

Lemma measure_rule c c' : rule c c' → measure c' < measure c.
Proof.
  destruct 1; unfold measure; simpl;
    repeat match goal with
      | Hm : main _ = _ |- _ => rewrite Hm; clear Hm
      end;
    rewrite ?main_fuel_enter_loop, ?sum_list_with_app; count_facts; simpl in *; lia.
Qed.

Lemma measure_step c c' : step c c' → measure c' < measure c.
Proof. intros Hs%step_rule. by apply measure_rule. Qed.

Lemma measure_init s : measure (init s) = 4 * length files + 4.
Proof. unfold measure. simpl. lia. Qed.

Lemma measure_zero_returned c : measure c = 0 → returned c = true.
Proof. unfold measure, returned. destruct (main c); simpl; try done; lia. Qed.

Lemma nsteps_measure k c c' : nsteps step k c c' → k + measure c' ≤ measure c.
Proof.
  induction 1 as [|k c c1 c' Hs _ IH]; [lia|]. apply measure_step in Hs. lia.
Qed.

(** A schedule moves a configuration at most [measure] times. *)
Lemma run_take sched c k : measure c ≤ k → run (take k sched) c = run sched c.
Proof.
  revert c k. induction sched as [|j sched IH]; intros c k Hk; [by rewrite take_nil|].
  destruct k as [|k]; simpl.
  - destruct (sched_step j c) as [c'|] eqn:Hs; [|done].
    apply sched_step_step, measure_step in Hs. lia.
  - destruct (sched_step j c) as [c'|] eqn:Hs; [|done].
    apply IH. apply sched_step_step, measure_step in Hs. lia.
Qed.

(** [run_main] has returned when its fuel covers the measure. *)
Lemma run_main_returned s fuel sched c :
  reachable s c → measure c ≤ fuel → returned (run_main fuel sched c) = true.
Proof.
  revert sched c. induction fuel as [|fuel IH]; intros sched c Hr Hm; simpl.
  - apply measure_zero_returned. lia.
  - destruct (returned c) eqn:Hret; [done|].
    destruct (sched_step _ c) as [c'|] eqn:Hs.
    + pose proof (sched_step_step _ _ _ Hs) as Hstep.
      apply IH; [by eapply reachable_step|]. apply measure_step in Hstep. lia.
    + apply sched_step_None, quiescent_enabled in Hs.
      apply inv_reachable in Hr. destruct (quiescent_done c Hr Hs). congruence.
Qed.

(** The log is faithful: the server is the one the calls of the log, made
    in their order from the initial server, leave.  The goroutines and the
    caller act on the server through the five calls only. *)
Lemma remote_replay s c : reachable s c → remote c = replay client (calls c) s.
Proof.
  revert c. apply reachable_ind; [done|]. intros c c' _ IH Hr.
  destruct Hr; simpl; rewrite ?replay_snoc, <- ?IH; try done;
    unfold getref_call, blob_call, tree_call, commit_call, update_call; simpl;
    match goal with
    | Heq : _ = (_, _) |- _ => by rewrite Heq
    end.
Qed.

End invariants.

(** ** The properties *)

Section properties.
Context {S : Type} `{GitService S} {args : Args}.

(** C3. No goroutine ever waits at its send: in every configuration a run
    can reach, a goroutine that has its result in hand finds room in the
    channel [results], which was made with room for [len(files)] results
    while each of the [len(files)] goroutines sends one. *)
Theorem no_send_blocks (s : S) (c : config S) (i : nat) (r : blobResult) :
  reachable s c →
  workers c !! i = Some (WSend r) →
  ∃ ch, chan_send r (results c) = Some ch ∧ chan_len ch ≤ length files.
Proof.
  intros Hr Hi. pose proof (inv_reachable s c Hr) as Hinv.
  destruct (send_ready c i r Hinv Hi) as [ch Hch]. exists ch. split; [done|].
  pose proof (chan_send_len _ _ _ Hch). destruct Hinv as (Hlen & Hcap & Hfiles & _).
  pose proof (done_count_lt _ _ _ Hi ltac:(done)). lia.
Qed.

(** C6. No goroutine is left behind blocked: a reachable configuration in
    which no thread can move is one where the caller has returned and every
    goroutine has returned too, also when the caller returned early at a
    failed upload and stopped receiving. *)
Theorem no_goroutine_left_blocked (s : S) (c : config S) :
  reachable s c → quiescent c → returned c = true ∧ all_done c.
Proof. intros Hr. apply quiescent_done. by eapply inv_reachable. Qed.

(** C19. The run cannot deadlock: as long as the caller has not returned,
    some thread can take a step; when the caller waits at the receive of
    line 52 with an empty channel, a goroutine is still on its way. *)
Theorem deadlock_free (s : S) (c : config S) :
  reachable s c → returned c = false → ∃ c', step c c'.
Proof. intros Hr. apply progress. by eapply inv_reachable. Qed.

(** C20. Every run is finite: no schedule drives [commitMultipleFiles] and
    its goroutines through more than [4 * len(files) + 4] steps, whatever
    the server answers; what a schedule asks beyond that bound changes
    nothing. *)
Theorem run_within_bound (s : S) (sched : list nat) :
  run sched (init s) = run (take (4 * length files + 4) sched) (init s).
Proof. symmetry. apply run_take. by rewrite measure_init. Qed.

End properties.

(** The fuel of [commitMultipleFiles] is enough for the caller to return. *)
Lemma commitMultipleFiles_returned {S : Type} `{GitService S} (client : Client)
    (owner repo branch : string) (files : gmap string string) (commitMessage : string)
    (seed sched : list nat) (s : S) :
  returned (commitMultipleFiles client owner repo branch files commitMessage seed sched s)
    = true.
Proof.
  unfold commitMultipleFiles. set (args := Build_Args _ _ _ _ _ _).
  eapply (run_main_returned (args := args)); [apply rtc_refl|].
  rewrite measure_init. simpl. by rewrite range_order_length.
Qed.

(** A configuration in which the caller has returned and every goroutine
    too does not move. *)
Lemma returned_all_done_run {S : Type} `{GitService S} {args : Args} (c : config S) sched :
  returned c = true → all_done c → run sched c = c.
Proof.
  intros Hret Hd. destruct sched as [|k sched]; [done|]. simpl.
  destruct (sched_step k c) as [c'|] eqn:Hs; [|done].
  apply sched_step_step in Hs. destruct Hs as [c c' Hs|i c c' Hs].
  - by rewrite returned_step_main in Hs.
  - unfold step_worker in Hs. destruct (workers c !! i) as [w|] eqn:Hi; [|done].
    by rewrite (proj1 (Forall_lookup _ _) Hd i w Hi) in Hs.
Qed.

(** C4. [commitMultipleFiles] returns, with nil, with an error or by the
    panic of line 82, under every order of the map, every schedule and
    every behaviour of the server: the fuel it runs with is never used up
    while it is still running. *)
Theorem commitMultipleFiles_returns {S : Type} `{GitService S} (client : Client)
    (owner repo branch : string) (files : gmap string string) (commitMessage : string)
    (seed sched : list nat) (s : S) :
  outcome_of (commitMultipleFiles client owner repo branch files commitMessage seed sched s)
    ≠ Running.
Proof.
  pose proof (commitMultipleFiles_returned client owner repo branch files commitMessage
                seed sched s) as Hret.
  unfold returned, outcome_of in *. by destruct (main _).
Qed.

Lemma no_send_blocks_witness :
  ∃ ch, chan_send (BlobResult "go.mod" "b:module m" None) (results ex_sending) = Some ch ∧
        chan_len ch ≤ length (@files ex_args).
Proof.
  apply (no_send_blocks (args := ex_args) ex_store ex_sending 1).
  - apply reachable_run.
  - vm_compute. reflexivity.
Defined.

Lemma no_goroutine_left_blocked_witness :
  returned ex_failed = true ∧ all_done ex_failed.
Proof.
  apply (no_goroutine_left_blocked (args := ex_args) ex_faulty_store ex_failed).
  - apply reachable_run.
  - apply quiescent_enabled. vm_compute. reflexivity.
Defined.

Lemma deadlock_free_witness :
  ∃ c', step (args := ex_args) ex_sending c'.
Proof.
  apply (deadlock_free (args := ex_args) ex_store ex_sending).
  - apply reachable_run.
  - vm_compute. reflexivity.
Defined.
