(* ===== verification/Branches.v ===== *)
(** * The branches of the repository

    What [commitMultipleFiles] does to the references of a server that
    keeps the laws of [GitLaws], whatever else the server does: as long as
    the function has not returned nil no reference has moved, so a call
    that fails, at any stage, or panics leaves every branch where it was
    (objects may have been created); a call that returns nil has moved the
    branch it was given, and no other, to the commit the server answered
    to its call of [CreateCommit]: the reference it sent to [UpdateRef]
    names the branch and, by the assignment of line 82, that commit. *)

From stdpp Require Import prelude strings list gmap relations.
From S2P Require Import Prelude GoError Channel GoMap GitTypes GitService Machine.
From S2P Require Import MemGit Examples Semantics Invariants.

Section branches.
Context {S : Type} `{GitLaws S} {args : Args}.
Implicit Types (c : config S) (s : S) (ref : Reference.t).

(** The reference is the one of the branch. *)
Definition names_branch ref : Prop := Reference.Ref ref = Some (branch_ref branch).

(** The commit is the answer of the server to [CreateCommit], the last call
    of the log, made after the calls before it. *)
Definition created (s0 : S) (log : list call) (commit : Commit.t) : Prop :=
  ∃ log0 tree,
    log = log0 ++ [commit_call tree] ∧
    (CreateCommit client owner repo (newCommit commitMessage tree)
       (replay client log0 s0)).1 = Ok commit.

(** What a call that returned nil has done: its two last calls are
    [CreateCommit] and the forced [UpdateRef] of a reference that names the
    branch and the commit the server answered; it printed the address of
    that commit; the branch, which existed, is on that commit and no other
    reference has moved. *)
Definition moved (s0 : S) c : Prop :=
  ∃ log ref commit sha,
    calls c = log ++ [update_call ref] ∧ created s0 log commit ∧
    names_branch ref ∧ Reference.Object ref ≫= GitObject.SHA = Some sha ∧
    Commit.SHA commit = Some sha ∧ last (out c) = Some (created_line commit) ∧
    is_Some (heads s0 !! branch_ref branch) ∧
    heads (remote c) = <[branch_ref branch := sha]> (heads s0).

(** The references of the server, by the program counter of the caller:
    they are those of the initial server until [UpdateRef] has gone well;
    the reference the caller holds is the one of the branch, and before
    [UpdateRef] it points to the commit just created. *)
Definition heads_inv (s0 : S) c : Prop :=
  match main c with
  | PGetRef | PReturn (Some _) | PPanic _ => heads (remote c) = heads s0
  | PSpawn ref _ _ _ | PCollect ref _ _ | PCreateCommit ref _ =>
      heads (remote c) = heads s0 ∧ names_branch ref
  | PUpdateRef ref commit =>
      heads (remote c) = heads s0 ∧ names_branch ref ∧
      Reference.Object ref ≫= GitObject.SHA = Commit.SHA commit ∧
      created s0 (calls c) commit
  | PReturn None => moved s0 c
  end.

(** ** Lemmas *)

Lemma set_ref_sha_Some ref commit ref' :
  set_ref_sha ref commit = Some ref' →
  Reference.Ref ref' = Reference.Ref ref ∧
  Reference.Object ref' ≫= GitObject.SHA = Commit.SHA commit.
Proof.
  unfold set_ref_sha. destruct (Reference.Object ref); [|done]. by intros [= <-].
Qed.

Lemma heads_inv_enter_loop s0 c ref todo :
  heads (remote c) = heads s0 → names_branch ref →
  heads_inv s0 (set_main (enter_loop ref todo) c).
Proof. unfold heads_inv. by destruct todo as [|[p ct] rest]. Qed.

(** A step of a goroutine: the caller stays where it is, in or before the
    receiving loop or returned with an error, and no reference moves. *)
Lemma heads_inv_worker s0 c c' i w :
  inv c → workers c !! i = Some w → w ≠ WDone →
  main c' = main c → heads (remote c') = heads (remote c) →
  heads_inv s0 c → heads_inv s0 c'.
Proof.
  unfold heads_inv. intros (_ & _ & _ & Hpc) Hi Hw -> ->. unfold pc_inv in Hpc.
  destruct (main c) as [| | | | |[e|]|]; try done;
    by destruct Hw; apply (finished_worker c i).
Qed.

(** A step of the caller from the receiving loop that moves no reference. *)
Lemma heads_inv_collect s0 c c' ref i entries :
  main c = PCollect ref i entries → heads (remote c') = heads (remote c) →
  match main c' with
  | PCollect ref' _ _ | PCreateCommit ref' _ => ref' = ref
  | PReturn (Some _) => True
  | _ => False
  end →
  heads_inv s0 c → heads_inv s0 c'.
Proof.
  unfold heads_inv. intros -> -> Hm [Hh Hn].
  destruct (main c') as [| | | | |[e|]|]; naive_solver.
Qed.

(** ** The invariant holds in every reachable configuration *)

Lemma heads_inv_init s0 : heads_inv s0 (init s0).
Proof. done. Qed.

Lemma heads_inv_getref s0 c a s :
  heads_inv s0 c → main c = PGetRef →
  GetRef client owner repo (branch_ref branch) (remote c) = (a, s) →
  heads_inv s0
    match a with
    | Err e => set_main (PReturn (Some (errGetRef e))) (called getref_call s c)
    | Ok ref => set_main (enter_loop ref files) (set_results make_results (called getref_call s c))
    end.
Proof.
  unfold heads_inv at 1. intros Hi Hm Ha. rewrite Hm in Hi.
  pose proof (GetRef_heads_eq _ _ _ _ _ _ _ Ha) as Hs. destruct a as [ref|e].
  - apply heads_inv_enter_loop; simpl; [congruence|]. by eapply GetRef_name_eq.
  - unfold heads_inv. simpl. congruence.
Qed.

Lemma heads_inv_commit s0 c ref tree a s :
  remote c = replay client (calls c) s0 →
  heads_inv s0 c → main c = PCreateCommit ref tree →
  CreateCommit client owner repo (newCommit commitMessage tree) (remote c) = (a, s) →
  heads_inv s0
    (set_main
       match a with
       | Err e => PReturn (Some (errCreateCommit e))
       | Ok commit =>
           match set_ref_sha ref commit with
           | None => PPanic nil_dereference
           | Some ref' => PUpdateRef ref' commit
           end
       end (called (commit_call tree) s c)).
Proof.
  unfold heads_inv at 1. intros Hrep Hi Hm Ha. rewrite Hm in Hi. destruct Hi as [Hh Hn].
  pose proof (CreateCommit_heads_eq _ _ _ _ _ _ _ Ha) as Hs.
  unfold heads_inv, names_branch in *. destruct a as [commit|e]; simpl; [|congruence].
  destruct (set_ref_sha ref commit) as [ref'|] eqn:Hset; simpl; [|congruence].
  apply set_ref_sha_Some in Hset as [Hr Ho]. split_and!; [congruence..|].
  exists (calls c), tree. by rewrite <-Hrep, Ha.
Qed.

Lemma heads_inv_update s0 c ref commit a s :
  heads_inv s0 c → main c = PUpdateRef ref commit →
  UpdateRef client owner repo ref force (remote c) = (a, s) →
  heads_inv s0
    match a with
    | Err e => set_main (PReturn (Some (errUpdateRef e))) (called (update_call ref) s c)
    | Ok _ => set_main (PReturn None) (print (created_line commit) (called (update_call ref) s c))
    end.
Proof.
  unfold heads_inv at 1. intros Hi Hm Ha. rewrite Hm in Hi. destruct Hi as (Hh & Hn & Ho & Hc).
  unfold heads_inv, moved, names_branch in *. destruct a as [ref'|e]; simpl.
  - apply UpdateRef_moved_eq in Ha as (name & sha & Hname & Hsha & Hin & Hs).
    assert (name = branch_ref branch) as -> by congruence. rewrite Hh in Hin, Hs.
    exists (calls c), ref, commit, sha. rewrite last_snoc. split_and!; congruence.
  - apply UpdateRef_failed_eq in Ha. by rewrite Ha.
Qed.

Lemma heads_inv_main s0 c c' :
  remote c = replay client (calls c) s0 →
  heads_inv s0 c → step_main c = Some c' → heads_inv s0 c'.
Proof.
  intros Hrep Hi Hs. unfold step_main, collect, deliver, create_tree in Hs.
  destruct (main c) eqn:Hm; try done.
  - destruct (GetRef _ _ _ _ _) as [a s] eqn:Ha.
    pose proof (heads_inv_getref s0 c a s Hi Hm Ha). destruct a; by simplify_eq.
  - simplify_eq. unfold heads_inv in Hi. rewrite Hm in Hi. destruct Hi.
    by apply heads_inv_enter_loop.
  - case_bool_decide.
    + destruct (chan_recv _) as [[r ch]|]; [|done]. simplify_eq.
      destruct (err r); by eapply (heads_inv_collect s0 c).
    + destruct (CreateTree _ _ _ _ _ _) as [[tree|e] s] eqn:Ha; simplify_eq;
        (eapply (heads_inv_collect s0 c); [done|simpl; by eapply CreateTree_heads_eq|done..]).
  - destruct (CreateCommit _ _ _ _ _) as [a s] eqn:Ha.
    pose proof (heads_inv_commit s0 c ref tree a s Hrep Hi Hm Ha).
    destruct a as [commit|e]; [destruct (set_ref_sha _ _)|]; by simplify_eq.
  - destruct (UpdateRef _ _ _ _ _ _) as [a s] eqn:Ha.
    pose proof (heads_inv_update s0 c ref commit a s Hi Hm Ha). destruct a; by simplify_eq.
Qed.

Lemma heads_inv_step_worker s0 c c' i :
  inv c → heads_inv s0 c → step_worker i c = Some c' → heads_inv s0 c'.
Proof.
  intros Hinv Hi Hs. unfold step_worker, receiving, deliver in Hs.
  destruct (workers c !! i) as [[p ct|r|]|] eqn:Hw; [| |done..].
  - destruct (CreateBlob _ _ _ _ _) as [a s] eqn:Ha. simplify_eq.
    eapply (heads_inv_worker s0 c); [done..|simpl; by eapply CreateBlob_heads_eq|done].
  - destruct (chan_send _ _); [simplify_eq; by eapply (heads_inv_worker s0 c)|].
    case_bool_decide; [|done]. destruct (main c) eqn:Hm; try done.
    case_bool_decide; [|done]. simplify_eq. destruct (err r); by eapply (heads_inv_collect s0 c).
Qed.

Lemma heads_inv_reachable s0 c : reachable s0 c → heads_inv s0 c.
Proof.
  revert c. apply reachable_ind; [apply heads_inv_init|].
  intros c c' Hr Hi Hs%rule_step. destruct Hs.
  - by eapply heads_inv_main; [apply remote_replay|..].
  - by eapply heads_inv_step_worker; [eapply inv_reachable|..].
Qed.

End branches.

(** ** The properties *)

Section branches_properties.
Context {S : Type} `{GitLaws S} {args : Args}.

(** C10. A call that does not return nil moves no branch: on a server that
    keeps the laws of the service, as long as [commitMultipleFiles] has not
    returned nil, and so when it has returned an error of any stage or has
    panicked, every reference of the server is where it was before the call
    (the blobs, the tree and the commit it created stay behind). *)
Theorem failure_moves_no_branch (s0 : S) (c : config S) :
  reachable s0 c → outcome_of c ≠ Returned None → heads (remote c) = heads s0.
Proof.
  intros Hi%heads_inv_reachable Ho. unfold heads_inv, outcome_of in *.
  destruct (main c) as [| | | | |[e|]|]; naive_solver.
Qed.

(** C9. A call that returns nil has moved the branch it was given, which
    existed, and no other reference, to the commit the server answered to
    [CreateCommit]: the two last calls of the run are [CreateCommit] and a
    forced [UpdateRef]; [commit] is the answer of the server to that
    [CreateCommit], made after the calls before it; the reference sent to
    [UpdateRef] names the branch and the SHA of [commit] (the assignment of
    line 82); the line printed gives the address of [commit]; and the
    references of the server are those it had, the branch on that SHA. *)
Theorem success_moves_branch (s0 : S) (c : config S) :
  reachable s0 c → outcome_of c = Returned None →
  ∃ log tree commit ref sha,
    calls c = log ++ [CallCreateCommit owner repo (newCommit commitMessage tree);
                      CallUpdateRef owner repo ref true] ∧
    (CreateCommit client owner repo (newCommit commitMessage tree)
       (replay client log s0)).1 = Ok commit ∧
    Commit.SHA commit = Some sha ∧
    Reference.Ref ref = Some ("refs/heads/" +:+ branch) ∧
    Reference.Object ref ≫= GitObject.SHA = Some sha ∧
    last (out c) = Some (created_line commit) ∧
    is_Some (heads s0 !! ("refs/heads/" +:+ branch)) ∧
    heads (remote c) = <["refs/heads/" +:+ branch := sha]> (heads s0).
Proof.
  intros Hi%heads_inv_reachable Ho. unfold heads_inv, outcome_of in *.
  destruct (main c) as [| | | | |[e|]|]; try done.
  destruct Hi as (log & ref & commit & sha & Hcalls & (log0 & tree & -> & Hc) & Hrest).
  exists log0, tree, commit, ref, sha. rewrite Hcalls, <-app_assoc. by split_and!; destruct_and?.
Qed.

End branches_properties.

Lemma failure_moves_no_branch_witness : heads (remote ex_failed) = heads ex_faulty_store.
Proof.
  apply (failure_moves_no_branch (args := ex_args) ex_faulty_store ex_failed).
  - apply reachable_run.
  - vm_compute. discriminate.
Defined.

Lemma success_moves_branch_witness :
  ∃ log tree commit ref sha,
    calls ex_final =
      log ++ [CallCreateCommit (@owner ex_args) (@repo ex_args)
                (newCommit (@commitMessage ex_args) tree);
              CallUpdateRef (@owner ex_args) (@repo ex_args) ref true] ∧
    (CreateCommit (@client ex_args) (@owner ex_args) (@repo ex_args)
       (newCommit (@commitMessage ex_args) tree)
       (replay (@client ex_args) log ex_store)).1 = Ok commit ∧
    Commit.SHA commit = Some sha ∧
    Reference.Ref ref = Some ("refs/heads/" +:+ @branch ex_args) ∧
    Reference.Object ref ≫= GitObject.SHA = Some sha ∧
    last (out ex_final) = Some (created_line commit) ∧
    is_Some (heads ex_store !! ("refs/heads/" +:+ @branch ex_args)) ∧
    heads (remote ex_final) = <["refs/heads/" +:+ @branch ex_args := sha]> (heads ex_store).
Proof.
  apply (success_moves_branch (args := ex_args) ex_store ex_final).
  - apply reachable_run.
  - vm_compute. reflexivity.
Defined.
