(* ===== verification/WellFormed.v ===== *)
(** * The requests are well formed

    Every request [commitMultipleFiles] sends has the shape the service
    asks for: it names the repository of the call; a blob carries the
    content of one of the files, in UTF-8; a tree is made of one file entry
    per file (a path, mode 100644, type blob, the name of a blob, no inline
    content) on the empty base tree; a commit carries the message and a
    tree and has no parent; an update is forced and names an object. *)

From stdpp Require Import prelude strings list gmap relations.
From S2P Require Import Prelude GoError Channel GoMap GitTypes GitService Machine.
From S2P Require Import MemGit Examples Semantics Invariants.

(** A tree entry for a file given by the name of its blob. *)
Definition file_entry (e : TreeEntry.t) : Prop :=
  is_Some (TreeEntry.Path e) ∧ TreeEntry.Mode e = Some "100644" ∧
  TreeEntry.Type_ e = Some "blob" ∧ is_Some (TreeEntry.SHA e) ∧ TreeEntry.Content e = None.

#[export] Instance file_entry_dec e : Decision (file_entry e).
Proof. unfold file_entry. apply _. Defined.

Section well_formed.
Context {S : Type} `{GitService S} {args : Args}.
Implicit Types (c : config S) (k : call) (w : worker).

(** A request of the shape the call of [commitMultipleFiles] gives it. *)
Definition request_wf k : Prop :=
  match k with
  | CallGetRef o r ref => o = owner ∧ r = repo ∧ ref = "refs/heads/" +:+ branch
  | CallCreateBlob o r b =>
      o = owner ∧ r = repo ∧ (∃ f, f ∈ files ∧ Blob.Content b = Some f.2) ∧
      Blob.Encoding b = Some "utf-8" ∧ Blob.SHA b = None
  | CallCreateTree o r base entries =>
      o = owner ∧ r = repo ∧ base = "" ∧ Forall file_entry entries ∧
      length entries = length files
  | CallCreateCommit o r commit =>
      o = owner ∧ r = repo ∧ Commit.Message commit = Some commitMessage ∧
      is_Some (Commit.Tree commit) ∧ Commit.Parents commit = [] ∧ Commit.SHA commit = None
  | CallUpdateRef o r ref f =>
      o = owner ∧ r = repo ∧ f = true ∧ is_Some (Reference.Object ref)
  end.

(** A goroutine was given one of the files. *)
Definition worker_wf w : Prop :=
  match w with
  | WStart p ct => (p, ct) ∈ files
  | _ => True
  end.

(** The local variables of the caller: the entries of [range] still to
    visit are files; [entries] holds [i] file entries; the reference to
    update has an object. *)
Definition pc_wf (p : pc) : Prop :=
  match p with
  | PSpawn _ p ct rest => ∀ f, f ∈ (p, ct) :: rest → f ∈ files
  | PCollect _ i entries => Forall file_entry entries ∧ length entries = i
  | PUpdateRef ref _ => is_Some (Reference.Object ref)
  | _ => True
  end.

Definition wf_inv c : Prop :=
  Forall request_wf (calls c) ∧ Forall worker_wf (workers c) ∧ pc_wf (main c).

(** ** Lemmas *)

Lemma file_entry_tree_entry r : file_entry (tree_entry r).
Proof. by repeat split. Qed.

Lemma pc_wf_enter_loop ref todo : (∀ f, f ∈ todo → f ∈ files) → pc_wf (enter_loop ref todo).
Proof. destruct todo as [|[p ct] rest]; simpl; [by split|done]. Qed.

Lemma set_ref_sha_object ref commit ref' :
  set_ref_sha ref commit = Some ref' → is_Some (Reference.Object ref').
Proof.
  unfold set_ref_sha. destruct (Reference.Object ref); [|done]. intros [= <-]. by eexists.
Qed.

(** The configuration after a call. *)
Lemma wf_inv_called c k s p :
  wf_inv c → request_wf k → pc_wf p → wf_inv (set_main p (called k s c)).
Proof.
  intros (Hc & Hw & _) Hk Hp. split_and!; simpl; [|done..].
  apply Forall_app. by rewrite Forall_singleton.
Qed.

(** The caller with a result in hand. *)
Lemma wf_inv_deliver c c0 ref i entries r :
  wf_inv c → main c = PCollect ref i entries →
  calls c0 = calls c → Forall worker_wf (workers c0) →
  wf_inv (deliver ref i entries r c0).
Proof.
  intros (Hc & _ & Hp) Hm Hc0 Hw0. rewrite Hm in Hp. destruct Hp as [He Hl].
  unfold deliver. destruct (err r); (split_and!; simpl; [by rewrite Hc0|done|]); [done|].
  split; [apply Forall_app; split; [done|]; apply Forall_singleton, file_entry_tree_entry|].
  rewrite length_app. simpl. lia.
Qed.

Lemma wf_inv_init s : wf_inv (init s).
Proof. by split_and!. Qed.

Lemma wf_inv_main c c' : inv c → wf_inv c → step_main c = Some c' → wf_inv c'.
Proof.
  intros Hinv Hwf Hs. pose proof Hwf as (Hc & Hw & Hp).
  unfold step_main, collect, create_tree in Hs. destruct (main c) eqn:Hm; try done.
  - destruct (GetRef _ _ _ _ _) as [[ref|e] s]; simplify_eq.
    + destruct (wf_inv_called c getref_call s (enter_loop ref files) Hwf) as (? & ? & ?);
        [done|by apply pc_wf_enter_loop|by split_and!].
    + by apply wf_inv_called.
  - simplify_eq. split_and!; simpl; [done| |].
    + apply Forall_app. split; [done|]. apply Forall_singleton, Hp. left.
    + apply pc_wf_enter_loop. intros f Hf. apply Hp. by right.
  - case_bool_decide as Hi.
    + destruct (chan_recv _) as [[r ch]|]; [|done]. simplify_eq. by eapply wf_inv_deliver.
    + destruct (collect_finished c ref i entries Hinv Hm) as [[Hn Hd] _]; [lia|].
      destruct Hinv as (_ & _ & _ & Hpc). unfold pc_inv in Hpc. rewrite Hm in Hpc.
      destruct Hp as [He Hl]. pose proof (done_count_le (workers c)).
      assert (request_wf (tree_call entries)) by (repeat split; try done; lia).
      destruct (CreateTree _ _ _ _ _ _) as [[tree|e] s]; simplify_eq; by apply wf_inv_called.
  - assert (request_wf (commit_call tree)) by (repeat split; by eexists).
    destruct (CreateCommit _ _ _ _ _) as [[commit|e] s]; [|simplify_eq; by apply wf_inv_called].
    destruct (set_ref_sha ref commit) as [ref'|] eqn:Hset; simplify_eq;
      apply wf_inv_called; try done. by eapply set_ref_sha_object.
  - assert (request_wf (update_call ref)) by by repeat split.
    destruct (UpdateRef _ _ _ _ _ _) as [[ref'|e] s]; simplify_eq; [|by apply wf_inv_called].
    destruct (wf_inv_called c (update_call ref) s (PReturn None) Hwf) as (? & ? & ?); done.
Qed.

Lemma wf_inv_step_worker c c' i : wf_inv c → step_worker i c = Some c' → wf_inv c'.
Proof.
  intros Hwf Hs. pose proof Hwf as (Hc & Hw & Hp). unfold step_worker, receiving in Hs.
  destruct (workers c !! i) as [[p ct|r|]|] eqn:Hi; [| |done..].
  - destruct (CreateBlob _ _ _ _ _) as [a s]. simplify_eq. split_and!; simpl; [| |done].
    + apply Forall_app. split; [done|]. apply Forall_singleton. repeat split.
      exists (p, ct). split; [|done]. by apply (proj1 (Forall_lookup _ _) Hw i _ Hi).
    + by apply Forall_insert.
  - assert (Forall worker_wf (<[i:=WDone]> (workers c))) by by apply Forall_insert.
    destruct (chan_send _ _); [by simplify_eq|].
    case_bool_decide; [|done]. destruct (main c) eqn:Hm; try done.
    case_bool_decide; [|done]. simplify_eq. by eapply wf_inv_deliver.
Qed.

Lemma wf_inv_reachable s c : reachable s c → wf_inv c.
Proof.
  revert c. apply reachable_ind; [apply wf_inv_init|].
  intros c c' Hinv%inv_reachable Hwf Hs%rule_step.
  destruct Hs; [by eapply wf_inv_main|by eapply wf_inv_step_worker].
Qed.

End well_formed.

(** ** The properties *)

Section well_formed_properties.
Context {S : Type} `{GitService S} {args : Args}.

(** C16. Every request of a run is well formed: in every configuration a
    run can reach, each call of the log names the repository of the call
    and has the shape of [request_wf]; in particular every tree is made of
    exactly [len(files)] file entries on the empty base tree, every blob
    carries the content of one of the files, every commit is parentless and
    every update is forced. *)
Theorem requests_well_formed (s : S) (c : config S) :
  reachable s c → Forall request_wf (calls c).
Proof. by intros (? & _)%wf_inv_reachable. Qed.

End well_formed_properties.

Lemma requests_well_formed_witness : Forall (request_wf (args := ex_args)) (calls ex_final).
Proof. apply (requests_well_formed (args := ex_args) ex_store ex_final), reachable_run. Defined.
