(* ===== verification/Refinement.v ===== *)
(** * The machine refines the sequential program

    Every run of the machine of [Machine] ends as a run of the program of
    [Sequential] does: with the same outcome, the same server, the same
    calls in the same order, the same lines printed, for some order of the
    uploads and some order of the results.  The invariant [refine_inv]
    carries it: while the goroutines run, the files are those uploaded,
    those a goroutine has yet to upload and those whose goroutine is yet to
    start, and the results received, buffered and about to be sent are the
    answers to the uploads made ([phase]); once the receiving loop is left,
    what is left of the function is what the sequential program does from
    there ([concluded]). *)

From stdpp Require Import prelude strings list gmap relations.
From S2P Require Import Prelude GoError Channel GoMap GitTypes GitService Machine.
From S2P Require Import MemGit Examples Semantics Sequential Invariants.

(** The file a goroutine has yet to upload. *)
Definition worker_item (w : worker) : option (string * string) :=
  match w with
  | WStart p ct => Some (p, ct)
  | _ => None
  end.

(** The result a goroutine has yet to send. *)
Definition worker_result (w : worker) : option blobResult :=
  match w with
  | WSend r => Some r
  | _ => None
  end.

(** The files whose goroutine the caller has yet to start. *)
Definition todo (p : pc) : list (string * string) :=
  match p with
  | PSpawn _ p ct rest => (p, ct) :: rest
  | _ => []
  end.

Section refinement.
Context {S : Type} `{GitService S} {args : Args}.
Implicit Types (c : config S) (s : S) (U : list (string * string)) (rs : list blobResult).

(** Between [GetRef] and [CreateTree]: [GetRef] answered [ref]; the files
    [U] were uploaded in that order and nothing else was called; the files
    are [U], those of the goroutines before their call and those still to
    start; the results [rs], those in the channel and those about to be
    sent are the answers to the uploads of [U]. *)
Record phase (s0 : S) c (ref : Reference.t) U rs : Prop := Phase {
  phase_ref : (GetRef client owner repo (branch_ref branch) s0).1 = Ok ref;
  phase_remote : remote c = (upload_all U (after_getref s0)).2;
  phase_calls : calls c = getref_call :: upload_calls U;
  phase_out : out c = [];
  phase_items : U ++ omap worker_item (workers c) ++ todo (main c) ≡ₚ files;
  phase_held :
    rs ++ buf (results c) ++ omap worker_result (workers c) ≡ₚ
      (upload_all U (after_getref s0)).1
}.

(** What the caller leaves when it goes on alone from [c]. *)
Definition conclude c : run_result S :=
  match main c with
  | PCreateCommit ref tree => seq_commit ref tree (remote c) (calls c) (out c)
  | PUpdateRef ref commit => seq_update ref commit (remote c) (calls c) (out c)
  | _ => result_of c
  end.

(** Past the receiving loop: every goroutine has returned, and what the
    caller leaves is what the sequential program leaves after the uploads
    [U] and the results [rs]. *)
Definition concluded (s0 : S) c : Prop :=
  finished c ∧
  ∃ ref U rs entries,
    (GetRef client owner repo (branch_ref branch) s0).1 = Ok ref ∧
    U ≡ₚ files ∧ rs ≡ₚ (upload_all U (after_getref s0)).1 ∧ gather rs = Ok entries ∧
    conclude c =
      seq_tree ref entries (upload_all U (after_getref s0)).2
        (getref_call :: upload_calls U) [].

(** Returned at line 20: one call, no goroutine. *)
Definition getref_failed (s0 : S) c (e : error) : Prop :=
  ∃ e0, GetRef client owner repo (branch_ref branch) s0 = (Err e0, remote c) ∧
    e = errGetRef e0 ∧ workers c = [] ∧ calls c = [getref_call] ∧ out c = [].

(** Returned at line 54, at the failed result [r] received after [rs]. *)
Definition blob_failed (s0 : S) c (e : error) : Prop :=
  ∃ ref U rs r entries e0,
    phase s0 c ref U (rs ++ [r]) ∧ gather rs = Ok entries ∧
    err r = Some e0 ∧ e = errBlob (path r) e0 ∧ length (workers c) = length files.

(** The invariant, by the program counter of the caller. *)
Definition refine_inv (s0 : S) c : Prop :=
  match main c with
  | PGetRef => remote c = s0 ∧ calls c = [] ∧ out c = []
  | PSpawn ref _ _ _ => ∃ U, phase s0 c ref U []
  | PCollect ref _ entries => ∃ U rs, phase s0 c ref U rs ∧ gather rs = Ok entries
  | PReturn (Some e) => getref_failed s0 c e ∨ blob_failed s0 c e ∨ concluded s0 c
  | _ => concluded s0 c
  end.

(** ** Steps inside a phase *)

Lemma todo_enter_loop ref rest : todo (enter_loop ref rest) = rest.
Proof. by destruct rest as [|[p ct] rest]. Qed.

Lemma phase_spawn s0 c ref p ct rest U rs :
  main c = PSpawn ref p ct rest → phase s0 c ref U rs →
  phase s0 (set_main (enter_loop ref rest) (spawn (WStart p ct) c)) ref U rs.
Proof.
  intros Hm [Href Hrem Hcalls Hout Hitems Hheld]. rewrite Hm in Hitems.
  split; simpl; rewrite ?todo_enter_loop, ?omap_snoc; simpl in *; try done.
  - solve_perm_using Hitems.
  - by rewrite app_nil_r.
Qed.

Lemma phase_blob s0 c ref i p ct a s U rs :
  workers c !! i = Some (WStart p ct) →
  CreateBlob client owner repo (blob_request ct) (remote c) = (a, s) →
  phase s0 c ref U rs →
  phase s0 (set_worker i (WSend (blob_result p a)) (called (blob_call ct) s c))
    ref (U ++ [(p, ct)]) rs.
Proof.
  intros Hi Ha [Href Hrem Hcalls Hout Hitems Hheld]. rewrite Hrem in Ha.
  split; simpl; rewrite ?(upload_all_snoc _ _ _ _ _ _ Ha); simpl; try done.
  - by rewrite Hcalls, upload_calls_app.
  - rewrite <-Hitems, (omap_insert_None worker_item _ _ _ (WSend (blob_result p a)) (p, ct) Hi);
      [solve_perm|done..].
  - rewrite <-Hheld, (omap_insert_Some worker_result _ _ _ (WSend (blob_result p a))
                       (blob_result p a) Hi); [solve_perm|done..].
Qed.

Lemma phase_send s0 c ref i r ch U rs :
  workers c !! i = Some (WSend r) → chan_send r (results c) = Some ch →
  phase s0 c ref U rs → phase s0 (set_worker i WDone (set_results ch c)) ref U rs.
Proof.
  intros Hi [_ ->]%chan_send_Some [Href Hrem Hcalls Hout Hitems Hheld].
  split; simpl; try done.
  - by rewrite (omap_insert_same worker_item _ _ _ _ Hi).
  - rewrite <-Hheld, (omap_insert_None worker_result _ _ _ WDone r Hi); [solve_perm|done..].
Qed.

Lemma phase_recv s0 c ref p r ch U rs :
  chan_recv (results c) = Some (r, ch) → todo (main c) = [] → todo p = [] →
  phase s0 c ref U rs → phase s0 (set_main p (set_results ch c)) ref U (rs ++ [r]).
Proof.
  intros [Hb _]%chan_recv_Some Hc Hp [Href Hrem Hcalls Hout Hitems Hheld].
  rewrite Hb in Hheld. rewrite Hc in Hitems.
  split; simpl; rewrite ?Hp; try done. solve_perm_using Hheld.
Qed.

(** ** From the receiving loop to the end *)

Lemma all_done_no_item c : all_done c → omap worker_item (workers c) = [].
Proof. intros Hd. apply omap_all_None. eapply Forall_impl; [exact Hd|]. by intros w ->. Qed.

Lemma all_done_no_result c : all_done c → omap worker_result (workers c) = [].
Proof. intros Hd. apply omap_all_None. eapply Forall_impl; [exact Hd|]. by intros w ->. Qed.

(** The phase at the end of the receiving loop: all files are uploaded and
    all results received. *)
Lemma phase_complete s0 c ref U rs :
  finished c → buf (results c) = [] → todo (main c) = [] → phase s0 c ref U rs →
  U ≡ₚ files ∧ rs ≡ₚ (upload_all U (after_getref s0)).1.
Proof.
  intros Hf%finished_all_done Hb Ht [_ _ _ _ Hitems Hheld].
  rewrite (all_done_no_item c Hf), Ht in Hitems.
  rewrite (all_done_no_result c Hf), Hb in Hheld.
  by rewrite !app_nil_r in *.
Qed.

Lemma phase_concluded s0 c c' ref i entries U rs :
  inv c → main c = PCollect ref i entries → length files ≤ i →
  phase s0 c ref U rs → gather rs = Ok entries →
  workers c' = workers c →
  conclude c' = seq_tree ref entries (remote c) (calls c) (out c) →
  concluded s0 c'.
Proof.
  intros Hinv Hm Hi Hph Hg Hw Hc.
  destruct (collect_finished c ref i entries Hinv Hm Hi) as [Hf Hb].
  destruct (phase_complete s0 c ref U rs) as [HU Hrs]; [by rewrite ?Hm..|].
  split; [unfold finished; by rewrite Hw|]. exists ref, U, rs, entries.
  destruct Hph as [Href Hrem Hcalls Hout _ _]. by rewrite Hc, Hrem, Hcalls, Hout.
Qed.

Lemma concluded_next s0 c c' :
  concluded s0 c → workers c' = workers c → conclude c' = conclude c → concluded s0 c'.
Proof. unfold concluded, finished. intros Hc -> ->. exact Hc. Qed.

(** A goroutine that has not returned: the receiving loop is not left. *)
Lemma concluded_worker s0 c i w : concluded s0 c → workers c !! i = Some w → w = WDone.
Proof. intros [Hf _]. by apply finished_worker. Qed.

(** ** The invariant holds in every reachable configuration *)

Lemma refine_inv_init s0 : refine_inv s0 (init s0).
Proof. done. Qed.

Lemma refine_enter_loop s0 c ref todo U :
  phase s0 (set_main (enter_loop ref todo) c) ref U [] →
  refine_inv s0 (set_main (enter_loop ref todo) c).
Proof.
  unfold refine_inv. destruct todo as [|[p ct] rest]; simpl; intros Hph.
  - by exists U, [].
  - by exists U.
Qed.

(** A configuration with a goroutine that has not returned. *)
Lemma refine_inv_worker s0 c c' i w :
  inv c → refine_inv s0 c → workers c !! i = Some w → w ≠ WDone →
  main c' = main c → length (workers c') = length (workers c) →
  (∀ ref U rs, phase s0 c ref U rs → ∃ U', phase s0 c' ref U' rs) →
  refine_inv s0 c'.
Proof.
  intros (_ & _ & _ & Hpc) Hri Hi Hw Hm Hn Hph. unfold refine_inv, pc_inv in *.
  rewrite Hm. destruct (main c) as [|ref q cq rest|ref j es|ref tree|ref commit|[e|]|msg];
    try (by destruct (Hw (concluded_worker s0 c i w Hri Hi))).
  - by rewrite Hpc in Hi.
  - destruct Hri as [U HU]. exact (Hph _ _ _ HU).
  - destruct Hri as (U & rs & HU & Hg). destruct (Hph _ _ _ HU) as [U' HU']. by exists U', rs.
  - destruct Hri as [(e0 & _ & _ & Hws & _)|[Hb|Hc]].
    + by rewrite Hws in Hi.
    + destruct Hb as (ref & U & rs & r & es & e0 & HU & Hg & Hr & -> & Hlen).
      destruct (Hph _ _ _ HU) as [U' HU']. right; left.
      exists ref, U', rs, r, es, e0. by rewrite Hn.
    + by destruct (Hw (concluded_worker s0 c i w Hc Hi)).
Qed.

Lemma refine_inv_getref s0 c a s :
  inv c → refine_inv s0 c → main c = PGetRef →
  GetRef client owner repo (branch_ref branch) (remote c) = (a, s) →
  refine_inv s0
    match a with
    | Err e => set_main (PReturn (Some (errGetRef e))) (called getref_call s c)
    | Ok ref => set_main (enter_loop ref files) (set_results make_results (called getref_call s c))
    end.
Proof.
  intros (_ & _ & _ & Hpc) Hri Hm Ha. unfold refine_inv, pc_inv in Hri, Hpc.
  rewrite Hm in Hri, Hpc. destruct Hri as (Hs & Hcalls & Hout). rewrite Hs in Ha.
  destruct a as [ref|e].
  - apply (refine_enter_loop _ _ _ _ []).
    split; simpl; unfold after_getref; rewrite ?Ha, ?Hcalls, ?Hpc, ?todo_enter_loop; done.
  - left. exists e. simpl. by rewrite Hcalls.
Qed.

Lemma refine_inv_recv s0 c ref i entries r ch :
  inv c → refine_inv s0 c → main c = PCollect ref i entries →
  chan_recv (results c) = Some (r, ch) →
  refine_inv s0 (deliver ref i entries r (set_results ch c)).
Proof.
  intros (_ & _ & _ & Hpc) Hri Hm Hr. unfold refine_inv, pc_inv, deliver in *.
  rewrite Hm in Hri, Hpc. destruct Hri as (U & rs & HU & Hg).
  destruct (err r) as [e|] eqn:He; simpl.
  - right; left. exists ref, U, rs, r, entries, e.
    split_and!; [apply phase_recv; by rewrite ?Hm|done..|by destruct Hpc as (_ & ? & _)].
  - exists U, (rs ++ [r]). split; [apply phase_recv; by rewrite ?Hm|by apply gather_snoc].
Qed.

Lemma refine_inv_tree s0 c ref i entries :
  inv c → refine_inv s0 c → main c = PCollect ref i entries → length files ≤ i →
  refine_inv s0 (create_tree ref entries c).
Proof.
  intros Hinv Hri Hm Hi. pose proof Hri as Hri'. unfold refine_inv in Hri'. rewrite Hm in Hri'.
  destruct Hri' as (U & rs & HU & Hg).
  assert (concluded s0 (create_tree ref entries c)) as Hc.
  { eapply phase_concluded; [done..| |]; unfold create_tree, conclude, seq_tree;
      destruct (CreateTree _ _ _ _ _ _) as [[tree|e] s]; done. }
  revert Hc. unfold refine_inv, create_tree.
  destruct (CreateTree _ _ _ _ _ _) as [[tree|e] s]; simpl; auto.
Qed.

Lemma refine_inv_concluded s0 c c' :
  refine_inv s0 c → step_main c = Some c' →
  match main c with
  | PCreateCommit _ _ | PUpdateRef _ _ => True
  | _ => False
  end →
  refine_inv s0 c'.
Proof.
  unfold refine_inv, step_main. intros Hri Hs Hm.
  assert (concluded s0 c') as Hc; [|revert Hc; unfold refine_inv].
  - destruct (main c) eqn:Hpc; try done; (eapply concluded_next; [exact Hri|..]);
      unfold conclude, seq_commit, seq_update; rewrite ?Hpc;
      repeat (case_match; simplify_eq/=); done.
  - destruct (main c) eqn:Hpc; try done; repeat (case_match; simplify_eq/=); auto.
Qed.

Lemma refine_inv_main s0 c c' :
  inv c → refine_inv s0 c → step_main c = Some c' → refine_inv s0 c'.
Proof.
  intros Hinv Hri Hs. destruct (main c) eqn:Hm;
    try (by eapply refine_inv_concluded; [done..|by rewrite Hm]);
    unfold step_main, collect in Hs; rewrite Hm in Hs.
  - destruct (GetRef _ _ _ _ _) as [[ref|e] s] eqn:Ha; simplify_eq.
    + exact (refine_inv_getref s0 c (Ok ref) s Hinv Hri Hm Ha).
    + exact (refine_inv_getref s0 c (Err e) s Hinv Hri Hm Ha).
  - simplify_eq. unfold refine_inv in Hri. rewrite Hm in Hri. destruct Hri as [U HU].
    by apply (refine_enter_loop _ _ _ _ U), phase_spawn.
  - case_bool_decide; [destruct (chan_recv _) as [[r ch]|] eqn:Hr|]; simplify_eq.
    + by apply refine_inv_recv.
    + eapply refine_inv_tree; [done..|lia].
  - done.
  - done.
Qed.

Lemma refine_inv_step_worker s0 c c' i :
  inv c → refine_inv s0 c → step_worker i c = Some c' → refine_inv s0 c'.
Proof.
  intros Hinv Hri Hs. unfold step_worker in Hs.
  destruct (workers c !! i) as [[p ct|r|]|] eqn:Hi; [| |done..].
  - destruct (CreateBlob _ _ _ _ _) as [a s] eqn:Ha. simplify_eq.
    eapply refine_inv_worker; [done..|by simpl; rewrite length_insert|].
    intros ref U rs HU. eexists. by eapply phase_blob.
  - destruct (chan_send _ _) as [ch|] eqn:Hch; [|by destruct (handoff_never c i r)].
    simplify_eq. eapply refine_inv_worker; [done..|by simpl; rewrite length_insert|].
    intros ref U rs HU. exists U. by eapply phase_send.
Qed.

Lemma refine_inv_reachable s0 c : reachable s0 c → refine_inv s0 c.
Proof.
  revert c. apply reachable_ind; [apply refine_inv_init|].
  intros c c' Hinv%inv_reachable Hri Hs%rule_step.
  destruct Hs; [by eapply refine_inv_main|by eapply refine_inv_step_worker].
Qed.

(** ** What a returned caller leaves *)

Lemma concluded_sequential s0 c :
  concluded s0 c → returned c = true →
  ∃ seed_u seed_r, sequential seed_u seed_r s0 = result_of c.
Proof.
  intros (_ & ref & U & rs & es & Href & HU & Hrs & Hg & Hc) Hret.
  destruct (sequential_orders s0 ref U rs Href HU Hrs) as (su & sr & Heq).
  exists su, sr. rewrite Heq, Hg, <-Hc. unfold conclude, returned in *. by destruct (main c).
Qed.

Lemma getref_failed_sequential s0 c e seed_u seed_r :
  main c = PReturn (Some e) → getref_failed s0 c e →
  sequential seed_u seed_r s0 = result_of c.
Proof.
  intros Hm (e0 & Hg & -> & Hw & Hcalls & Hout).
  unfold sequential, result_of, outcome_of. by rewrite Hg, Hm, Hcalls, Hout.
Qed.

(** After a failed upload: the sequential program that goes on with the
    uploads [V] the goroutines have yet to make returns the same error. *)
Lemma blob_failed_sequential s0 c e :
  main c = PReturn (Some e) → blob_failed s0 c e →
  ∃ seed_u seed_r U,
    calls c = getref_call :: upload_calls U ∧
    remote c = (upload_all U (after_getref s0)).2 ∧ out c = [] ∧
    let V := omap worker_item (workers c) in
    sequential seed_u seed_r s0 =
      (Returned (Some e), (upload_all (U ++ V) (after_getref s0)).2,
       getref_call :: upload_calls (U ++ V), []).
Proof.
  intros Hm (ref & U & rs & r & es & e0 & Hph & Hg & Hr & -> & _).
  destruct Hph as [Href Hrem Hcalls Hout Hitems Hheld]. rewrite Hm, app_nil_r in Hitems.
  set (V := omap worker_item (workers c)) in *.
  set (rest := buf (results c) ++ omap worker_result (workers c) ++
                 (upload_all V (upload_all U (after_getref s0)).2).1).
  destruct (sequential_orders s0 ref (U ++ V) (rs ++ r :: rest) Href Hitems) as (su & sr & Heq).
  { rewrite upload_all_app. simpl. rewrite <-Hheld. unfold rest. solve_perm. }
  exists su, sr, U. by rewrite Heq, (gather_failed rs r rest es e0 Hg Hr).
Qed.

(** After a failed upload: the error is the answer of the server to the
    upload of the file it names, one of the uploads made. *)
Lemma blob_failed_cause s0 c e :
  blob_failed s0 c e →
  ∃ U1 p ct U2 e0,
    e = errBlob p e0 ∧ (U1 ++ (p, ct) :: U2) ⊆+ files ∧
    (CreateBlob client owner repo (blob_request ct) (upload_all U1 (after_getref s0)).2).1 =
      Err e0 ∧
    calls c = getref_call :: upload_calls (U1 ++ (p, ct) :: U2) ∧ out c = [].
Proof.
  intros (ref & U & rs & r & es & e0 & [_ _ Hcalls Hout Hitems Hheld] & _ & Hr & -> & _).
  assert (r ∈ (upload_all U (after_getref s0)).1) as Hin.
  { rewrite <-Hheld. set_solver. }
  apply upload_all_elem_of in Hin as (U1 & p & ct & U2 & -> & ->).
  exists U1, p, ct, U2, e0. split_and!; [|by rewrite <-Hitems; apply submseteq_inserts_r| |done..].
  - by destruct (CreateBlob _ _ _ _ _).1.
  - destruct (CreateBlob _ _ _ _ _).1; naive_solver.
Qed.

(** A returned error that names a file comes from line 54. *)
Lemma returned_errBlob s0 c p e0 :
  refine_inv s0 c → main c = PReturn (Some (errBlob p e0)) → blob_failed s0 c (errBlob p e0).
Proof.
  unfold refine_inv. intros Hri Hm. rewrite Hm in Hri. destruct Hri as [Hg|[Hb|Hc]]; [|done|].
  - destruct Hg as (e1 & _ & He & _).
    by apply (stage_error_inj (StBlob p) StGetRef) in He as [? _].
  - destruct Hc as (_ & ref & U & rs & es & _ & _ & _ & _ & Hc).
    unfold conclude, result_of, outcome_of in Hc. rewrite Hm in Hc. symmetry in Hc.
    apply seq_tree_error in Hc as (_ & st' & e1 & tree & ref' & He & Hl).
    apply (stage_error_inj (StBlob p)) in He as [Hst _]. by rewrite <-Hst in Hl.
Qed.

(** After a failed upload, once every goroutine has returned: every file
    was uploaded, and the results are those received before the failed one,
    the failed one, and those left in the channel. *)
Lemma blob_failed_left s0 c e :
  main c = PReturn (Some e) → blob_failed s0 c e → all_done c →
  ∃ U rs r e0,
    e = errBlob (path r) e0 ∧ err r = Some e0 ∧ Forall (λ r, err r = None) rs ∧
    U ≡ₚ files ∧ calls c = getref_call :: upload_calls U ∧
    remote c = (upload_all U (after_getref s0)).2 ∧
    rs ++ r :: buf (results c) ≡ₚ (upload_all U (after_getref s0)).1.
Proof.
  intros Hm (ref & U & rs & r & es & e0 & Hph & [_ Hg]%gather_Ok & Hr & -> & _) Hd.
  destruct Hph as [_ Hrem Hcalls _ Hitems Hheld]. exists U, rs, r, e0.
  rewrite (all_done_no_item c Hd), Hm in Hitems.
  rewrite (all_done_no_result c Hd) in Hheld. simpl in Hitems.
  rewrite !app_nil_r in *. by rewrite <-Hheld, <-app_assoc.
Qed.

Lemma outcome_of_Returned c e : outcome_of c = Returned e ↔ main c = PReturn e.
Proof. unfold outcome_of. destruct (main c); naive_solver. Qed.

Lemma returned_cases s0 c :
  refine_inv s0 c → returned c = true →
  (∃ e, main c = PReturn (Some e) ∧ (getref_failed s0 c e ∨ blob_failed s0 c e)) ∨
  concluded s0 c.
Proof.
  unfold refine_inv, returned. destruct (main c) as [| | | | |[e|]|]; naive_solver.
Qed.

(** When [GetRef] fails the caller returns its error at line 20: one call,
    no goroutine, nothing printed. *)
Lemma getref_error_returned s0 c e0 s1 :
  refine_inv s0 c → returned c = true →
  GetRef client owner repo (branch_ref branch) s0 = (Err e0, s1) →
  result_of c = (Returned (Some (errGetRef e0)), s1, [getref_call], []) ∧ workers c = [].
Proof.
  intros Hri Hret Hg. destruct (returned_cases s0 c Hri Hret) as [(e & Hm & [Hf|Hb])|Hc].
  - destruct Hf as (e1 & Hf & -> & Hw & Hcalls & Hout). rewrite Hg in Hf.
    injection Hf as -> ->. unfold result_of, outcome_of. by rewrite Hm, Hcalls, Hout.
  - destruct Hb as (ref & U & rs & r & es & e1 & [Href _ _ _ _ _] & _). by rewrite Hg in Href.
  - destruct Hc as (_ & ref & U & rs & es & Href & _). by rewrite Hg in Href.
Qed.

(** A caller that has returned with every goroutine returned leaves what
    the sequential program leaves. *)
Lemma returned_sequential s0 c :
  refine_inv s0 c → returned c = true → all_done c →
  ∃ seed_u seed_r, sequential seed_u seed_r s0 = result_of c.
Proof.
  intros Hri Hret Hd.
  destruct (returned_cases s0 c Hri Hret) as [(e & Hm & [Hg|Hb])|Hc].
  - exists [], []. by apply (getref_failed_sequential s0 c e).
  - destruct (blob_failed_sequential s0 c e Hm Hb) as (su & sr & U & Hl & Hs & Ho & Heq).
    exists su, sr. simpl in Heq. rewrite (all_done_no_item c Hd), app_nil_r in Heq.
    unfold result_of, outcome_of. by rewrite Heq, Hm, Hl, Hs, Ho.
  - by apply concluded_sequential.
Qed.

(** What a returned caller has printed: the address of the commit when it
    returns nil, nothing otherwise. *)
Lemma returned_out s0 c :
  refine_inv s0 c → returned c = true →
  (outcome_of c ≠ Returned None ∧ out c = []) ∨
  (outcome_of c = Returned None ∧ ∃ commit, out c = [created_line commit]).
Proof.
  intros Hri Hret. destruct (returned_cases s0 c Hri Hret) as [(e & Hm & [Hg|Hb])|Hc].
  - left. destruct Hg as (_ & _ & _ & _ & _ & Ho). unfold outcome_of. by rewrite Hm.
  - left. destruct Hb as (? & ? & ? & ? & ? & ? & [_ _ _ Ho _ _] & _).
    unfold outcome_of. by rewrite Hm.
  - destruct Hc as (_ & ref & U & rs & es & _ & _ & _ & _ & Hc).
    assert (conclude c = result_of c) as Heq.
    { unfold conclude, returned in *. by destruct (main c). }
    rewrite Heq in Hc.
    pose proof (seq_tree_out ref es (upload_all U (after_getref s0)).2
                  (getref_call :: upload_calls U) []) as Hout.
    simpl in Hout. by rewrite <-Hc in Hout.
Qed.

(** A caller that returns nil leaves no goroutine behind. *)
Lemma success_all_done s0 c :
  refine_inv s0 c → outcome_of c = Returned None → all_done c.
Proof.
  unfold refine_inv, outcome_of. destruct (main c) as [| | | | |[e|]|]; try done.
  intros [Hf _] _. by apply finished_all_done.
Qed.

End refinement.

(** ** The properties *)

Section refinement_properties.
Context {S : Type} `{GitService S} {args : Args}.

(** C1. The concurrent function refines the sequential one: when the caller
    has returned and no goroutine can move any more, the outcome, the
    server, the calls in their order and the lines printed are those of the
    sequential program for some order of the uploads and some order in
    which their results are received. *)
Theorem refines_sequential (s0 : S) (c : config S) :
  reachable s0 c → quiescent c →
  ∃ seed_u seed_r, sequential seed_u seed_r s0 = result_of c.
Proof.
  intros Hr Hq. destruct (quiescent_done c (inv_reachable s0 c Hr) Hq) as [Hret Hd].
  by apply returned_sequential; [apply refine_inv_reachable|..].
Qed.

(** C12. At the moment the caller returns, goroutines possibly still
    running, it returns what the sequential program returns for some
    orders, has printed what it prints, and the calls made so far are the
    first of the calls it makes. *)
Theorem return_refines (s0 : S) (c : config S) :
  reachable s0 c → returned c = true →
  ∃ seed_u seed_r,
    outcome_of c = outcome_in (sequential seed_u seed_r s0) ∧
    calls c `prefix_of` calls_in (sequential seed_u seed_r s0) ∧
    out c = out_in (sequential seed_u seed_r s0).
Proof.
  intros Hri%refine_inv_reachable Hret.
  destruct (returned_cases s0 c Hri Hret) as [(e & Hm & [Hg|Hb])|Hc].
  - exists [], []. by rewrite (getref_failed_sequential s0 c e [] [] Hm Hg).
  - destruct (blob_failed_sequential s0 c e Hm Hb) as (su & sr & U & Hl & _ & Ho & Heq).
    exists su, sr. rewrite Heq, Hl, Ho. unfold outcome_of. rewrite Hm.
    split_and!; [done| |done]. rewrite upload_calls_app. by apply prefix_cons, prefix_app_r.
  - destruct (concluded_sequential s0 c Hc Hret) as (su & sr & Heq).
    exists su, sr. by rewrite Heq.
Qed.

(** C5. A call that returns nil has made these calls and no other:
    [GetRef]; one [CreateBlob] per file, in some order; [CreateTree] with
    no base tree and one entry per result, each result the answer to the
    upload of one file, none failed; [CreateCommit] with the tree the
    server answered and no parent; [UpdateRef], forced, of the reference
    [GetRef] gave with its target set to the commit the server answered;
    and it has printed one line, the address of that commit. *)
Theorem success_calls (s0 : S) (c : config S) :
  reachable s0 c → outcome_of c = Returned None →
  ∃ U rs ref tree commit ref',
    (GetRef client owner repo (branch_ref branch) s0).1 = Ok ref ∧
    U ≡ₚ files ∧ rs ≡ₚ (upload_all U (after_getref s0)).1 ∧
    Forall (λ r, err r = None) rs ∧
    (CreateTree client owner repo "" (tree_entry <$> rs)
       (upload_all U (after_getref s0)).2).1 = Ok tree ∧
    (CreateCommit client owner repo (newCommit commitMessage tree)
       (CreateTree client owner repo "" (tree_entry <$> rs)
          (upload_all U (after_getref s0)).2).2).1 = Ok commit ∧
    set_ref_sha ref commit = Some ref' ∧
    calls c =
      CallGetRef owner repo ("refs/heads/" +:+ branch) ::
        ((λ f, CallCreateBlob owner repo (blob_request f.2)) <$> U) ++
        [CallCreateTree owner repo "" (tree_entry <$> rs);
         CallCreateCommit owner repo (newCommit commitMessage tree);
         CallUpdateRef owner repo ref' true] ∧
    out c = [created_line commit].
Proof.
  intros Hri%refine_inv_reachable Hm. unfold refine_inv, outcome_of in *.
  destruct (main c) as [| | | | |[e|]|] eqn:Hpc; try done.
  destruct Hri as (_ & ref & U & rs & es & Href & HU & Hrs & Hg & Hc).
  unfold conclude, result_of, outcome_of in Hc. rewrite Hpc in Hc. symmetry in Hc.
  apply seq_tree_success in Hc as (tree & commit & ref' & Htree & Hcommit & Hset & Hl & Ho).
  apply gather_Ok in Hg as [-> Hok]. by exists U, rs, ref, tree, commit, ref'.
Qed.

(** C15. The function panics only at line 82, by the assignment through
    [ref.Object] when the reference [GetRef] answered has no object; the
    commit is created by then and the branch is left where it was: the
    last call is [CreateCommit] and nothing is printed. *)
Theorem panic_nil_object (s0 : S) (c : config S) (msg : string) :
  reachable s0 c → outcome_of c = Panicked msg →
  ∃ ref tree,
    (GetRef client owner repo (branch_ref branch) s0).1 = Ok ref ∧
    Reference.Object ref = None ∧ msg = nil_dereference ∧
    last (calls c) = Some (commit_call tree) ∧ out c = [].
Proof.
  intros Hri%refine_inv_reachable Hm. unfold refine_inv, outcome_of in *.
  destruct (main c) as [| | | | |[e|]|] eqn:Hpc; try done. simplify_eq.
  destruct Hri as (_ & ref & U & rs & es & Href & HU & Hrs & Hg & Hc).
  unfold conclude, result_of, outcome_of in Hc. rewrite Hpc in Hc. symmetry in Hc.
  apply seq_tree_panic in Hc as (Hobj & -> & Ho & tree & Hl).
  exists ref, tree. split_and!; try done. rewrite Hl.
  by rewrite last_app.
Qed.

(** C13. The calls made when an error is returned: [GetRef] alone when it
    failed; [GetRef] and uploads, that of the named file among them, at a
    failed upload; [GetRef], the uploads of all files, and the calls up to
    the failed one after that.  [UpdateRef] is called only when everything
    before it went well, and nothing is printed. *)
Theorem error_calls (s0 : S) (c : config S) (st : stage) (e0 : error) :
  reachable s0 c → outcome_of c = Returned (Some (stage_error st e0)) →
  out c = [] ∧
  ∃ U entries tree ref',
    U ⊆+ files ∧
    calls c = getref_call :: upload_calls U ++
      match st with
      | StGetRef | StBlob _ => []
      | StCreateTree => [tree_call entries]
      | StCreateCommit => [tree_call entries; commit_call tree]
      | StUpdateRef => [tree_call entries; commit_call tree; update_call ref']
      end ∧
    match st with
    | StGetRef => U = []
    | StBlob p => p ∈ U.*1
    | _ => U ≡ₚ files
    end.
Proof.
  intros Hri%refine_inv_reachable Hm%outcome_of_Returned.
  assert (returned c = true) as Hret by (unfold returned; by rewrite Hm).
  destruct (returned_cases s0 c Hri Hret) as [(e & Hpc & [Hg|Hb])|Hc].
  - destruct Hg as (e1 & _ & He & _ & Hl & Ho). rewrite Hm in Hpc. injection Hpc as <-.
    apply (stage_error_inj _ StGetRef) in He as [-> ->]. split; [done|].
    exists [], [], inhabitant, inhabitant. split_and!; [apply submseteq_nil_l|done..].
  - apply blob_failed_cause in Hb as (U1 & p & ct & U2 & e1 & He & HU & _ & Hl & Ho).
    rewrite Hm in Hpc. injection Hpc as <-.
    apply (stage_error_inj _ (StBlob p)) in He as [-> ->]. split; [done|].
    exists (U1 ++ (p, ct) :: U2), [], inhabitant, inhabitant.
    rewrite app_nil_r. split_and!; [done..|]. rewrite fmap_app, fmap_cons. set_solver.
  - destruct Hc as (_ & ref & U & rs & es & _ & HU & _ & _ & Hc).
    unfold conclude, result_of, outcome_of in Hc. rewrite Hm in Hc. symmetry in Hc.
    apply seq_tree_error in Hc as (Ho & st' & e1 & tree & ref' & [-> ->]%stage_error_inj & Hl).
    split; [done|]. exists U, es, tree, ref'.
    destruct st'; try done; (split_and!; [by rewrite HU|by rewrite Hl|done]).
Qed.

(** C14. The error returned for a failed upload is the error the server
    answered to the upload of the content of the file it names; up to
    then only [GetRef] and uploads of some of the files were called. *)
Theorem blob_failure (s0 : S) (c : config S) (p : string) (e0 : error) :
  reachable s0 c → outcome_of c = Returned (Some (errBlob p e0)) →
  ∃ U1 ct U2,
    (U1 ++ (p, ct) :: U2) ⊆+ files ∧
    (CreateBlob client owner repo (blob_request ct) (upload_all U1 (after_getref s0)).2).1 =
      Err e0 ∧
    calls c = getref_call :: upload_calls (U1 ++ (p, ct) :: U2).
Proof.
  intros Hri%refine_inv_reachable Hm%outcome_of_Returned.
  apply (returned_errBlob s0 c p e0), blob_failed_cause in Hri
    as (U1 & q & ct & U2 & e1 & He & HU & Ha & Hl & _); [|done].
  apply (stage_error_inj (StBlob p) (StBlob q)) in He as [[= ->] ->].
  by exists U1, ct, U2.
Qed.

(** C21. The caller does not drain the channel before it returns the error
    of a failed upload: when nothing moves any more after such a return,
    every file has been uploaded all the same (the goroutines the caller
    did not wait for made their calls and sent), and the results are those
    received before the failed one, all good, the failed one, which names
    the file of the error, and the [len(files) - i - 1] others, which are
    still in the channel, never received. *)
Theorem early_return_undrained (s0 : S) (c : config S) (p : string) (e0 : error) :
  reachable s0 c → quiescent c → outcome_of c = Returned (Some (errBlob p e0)) →
  ∃ U rs r,
    U ≡ₚ files ∧ calls c = getref_call :: upload_calls U ∧
    remote c = (upload_all U (after_getref s0)).2 ∧
    rs ++ r :: buf (results c) ≡ₚ (upload_all U (after_getref s0)).1 ∧
    Forall (λ r, err r = None) rs ∧ path r = p ∧ err r = Some e0 ∧
    length rs + 1 + length (buf (results c)) = length files.
Proof.
  intros Hr Hq Hm%outcome_of_Returned.
  destruct (quiescent_done c (inv_reachable s0 c Hr) Hq) as [_ Hd].
  pose proof (returned_errBlob s0 c p e0 (refine_inv_reachable s0 c Hr) Hm) as Hb.
  destruct (blob_failed_left s0 c _ Hm Hb Hd)
    as (U & rs & r & e1 & He & Her & Hok & HU & Hcalls & Hrem & Hheld).
  apply (stage_error_inj (StBlob p) (StBlob (path r))) in He as [[= ->] ->].
  exists U, rs, r. split_and!; try done.
  rewrite <-HU, <-(upload_all_length U (after_getref s0)), <-Hheld, length_app. simpl. lia.
Qed.

End refinement_properties.

Lemma refines_sequential_witness :
  ∃ seed_u seed_r,
    sequential (args := ex_args) seed_u seed_r ex_faulty_store = result_of ex_failed.
Proof.
  apply (refines_sequential (args := ex_args) ex_faulty_store ex_failed).
  - apply reachable_run.
  - apply quiescent_enabled. vm_compute. reflexivity.
Defined.

Lemma return_refines_witness :
  ∃ seed_u seed_r,
    outcome_of ex_early =
      outcome_in (sequential (args := ex_args) seed_u seed_r ex_faulty_first) ∧
    calls ex_early `prefix_of`
      calls_in (sequential (args := ex_args) seed_u seed_r ex_faulty_first) ∧
    out ex_early = out_in (sequential (args := ex_args) seed_u seed_r ex_faulty_first).
Proof.
  apply (return_refines (args := ex_args) ex_faulty_first ex_early).
  - apply reachable_run.
  - vm_compute. reflexivity.
Defined.

Lemma success_calls_witness :
  ∃ U rs ref tree commit ref',
    (GetRef (client (Args := ex_args)) (owner (Args := ex_args)) (repo (Args := ex_args))
       (branch_ref (branch (Args := ex_args))) ex_store).1 = Ok ref ∧
    U ≡ₚ files (Args := ex_args) ∧
    rs ≡ₚ (upload_all (args := ex_args) U (after_getref (args := ex_args) ex_store)).1 ∧
    Forall (λ r, err r = None) rs ∧
    (CreateTree (client (Args := ex_args)) (owner (Args := ex_args)) (repo (Args := ex_args))
       "" (tree_entry <$> rs)
       (upload_all (args := ex_args) U (after_getref (args := ex_args) ex_store)).2).1 =
      Ok tree ∧
    (CreateCommit (client (Args := ex_args)) (owner (Args := ex_args)) (repo (Args := ex_args))
       (newCommit (commitMessage (Args := ex_args)) tree)
       (CreateTree (client (Args := ex_args)) (owner (Args := ex_args))
          (repo (Args := ex_args)) "" (tree_entry <$> rs)
          (upload_all (args := ex_args) U (after_getref (args := ex_args) ex_store)).2).2).1 =
      Ok commit ∧
    set_ref_sha ref commit = Some ref' ∧
    calls ex_final =
      CallGetRef "Santosh-etailify" "gitapis6" "refs/heads/main" ::
        ((λ f, CallCreateBlob "Santosh-etailify" "gitapis6" (blob_request f.2)) <$> U) ++
        [CallCreateTree "Santosh-etailify" "gitapis6" "" (tree_entry <$> rs);
         CallCreateCommit "Santosh-etailify" "gitapis6" (newCommit "two files" tree);
         CallUpdateRef "Santosh-etailify" "gitapis6" ref' true] ∧
    out ex_final = [created_line commit].
Proof.
  apply (success_calls (args := ex_args) ex_store ex_final).
  - apply reachable_run.
  - vm_compute. reflexivity.
Defined.

Lemma panic_nil_object_witness :
  ∃ ref tree,
    (GetRef (GitService := bare_service) (client (Args := ex_args)) (owner (Args := ex_args))
       (repo (Args := ex_args)) (branch_ref (branch (Args := ex_args))) tt).1 = Ok ref ∧
    Reference.Object ref = None ∧ nil_dereference = nil_dereference ∧
    last (calls ex_bare) = Some (commit_call (args := ex_args) tree) ∧ out ex_bare = [].
Proof.
  apply (panic_nil_object (H := bare_service) (args := ex_args) tt ex_bare).
  - apply reachable_run.
  - vm_compute. reflexivity.
Defined.

Lemma error_calls_witness :
  out ex_early = [] ∧
  ∃ U (entries : list TreeEntry.t) (tree : Tree.t) (ref' : Reference.t),
    U ⊆+ files (Args := ex_args) ∧
    calls ex_early = getref_call (args := ex_args) :: upload_calls (args := ex_args) U ++ [] ∧
    "main.go" ∈ U.*1.
Proof.
  apply (error_calls (args := ex_args) ex_faulty_first ex_early (StBlob "main.go")
           (errorString "502 Bad Gateway")).
  - apply reachable_run.
  - vm_compute. reflexivity.
Defined.

Lemma blob_failure_witness :
  ∃ U1 ct U2,
    (U1 ++ ("main.go", ct) :: U2) ⊆+ files (Args := ex_args) ∧
    (CreateBlob (client (Args := ex_args)) (owner (Args := ex_args)) (repo (Args := ex_args))
       (blob_request ct)
       (upload_all (args := ex_args) U1 (after_getref (args := ex_args) ex_faulty_first)).2).1 =
      Err (errorString "502 Bad Gateway") ∧
    calls ex_early =
      getref_call (args := ex_args) ::
        upload_calls (args := ex_args) (U1 ++ ("main.go", ct) :: U2).
Proof.
  apply (blob_failure (args := ex_args) ex_faulty_first ex_early "main.go"
           (errorString "502 Bad Gateway")).
  - apply reachable_run.
  - vm_compute. reflexivity.
Defined.

Lemma early_return_undrained_witness :
  ∃ U rs r,
    U ≡ₚ files (Args := ex_args) ∧
    calls ex_undrained = getref_call (args := ex_args) :: upload_calls (args := ex_args) U ∧
    remote ex_undrained =
      (upload_all (args := ex_args) U (after_getref (args := ex_args) ex_faulty_first)).2 ∧
    rs ++ r :: buf (results ex_undrained) ≡ₚ
      (upload_all (args := ex_args) U (after_getref (args := ex_args) ex_faulty_first)).1 ∧
    Forall (λ r, err r = None) rs ∧ path r = "main.go" ∧
    err r = Some (errorString "502 Bad Gateway") ∧
    length rs + 1 + length (buf (results ex_undrained)) = length (files (Args := ex_args)).
Proof.
  apply (early_return_undrained (args := ex_args) ex_faulty_first ex_undrained "main.go"
           (errorString "502 Bad Gateway")).
  - apply reachable_run.
  - apply quiescent_enabled. vm_compute. reflexivity.
  - vm_compute. reflexivity.
Defined.
