(* ===== verification/Complete.v ===== *)
(** * Every sequential run is a run of the machine

    The converse of [Refinement]: for every order of the uploads and every
    order of their results there is a schedule under which the machine ends
    with what the sequential program leaves.  The run is built in stages:
    the caller starts every goroutine; the goroutines make their calls in
    the order of the uploads; they send in the order of the results; the
    caller receives until a failed result or the last one, and goes on
    alone.  With [Refinement] the results of the complete runs of the
    machine are exactly the results of the sequential program. *)

From stdpp Require Import prelude strings list gmap relations.
From S2P Require Import Prelude GoError Channel GitTypes GitService Machine.
From S2P Require Import Semantics Sequential Invariants Refinement.

Section complete.
Context {S : Type} `{GitService S} {args : Args}.
Implicit Types (c : config S) (U : list (string * string)) (rs : list blobResult).

(** The configuration after the start of a goroutine for each file of a
    list, lines 35-47. *)
Definition spawn_all (todo : list (string * string)) c : config S :=
  foldl (λ c f, spawn (WStart f.1 f.2) c) c todo.

(** ** Lemmas *)

Lemma worker_item_Some w f : worker_item w = Some f → w = WStart f.1 f.2.
Proof. destruct w, f; naive_solver. Qed.

Lemma worker_result_Some w r : worker_result w = Some r → w = WSend r.
Proof. destruct w; naive_solver. Qed.

(** The goroutine of a file that is yet to be uploaded. *)
Lemma item_worker c p ct :
  (p, ct) ∈ omap worker_item (workers c) → ∃ i, workers c !! i = Some (WStart p ct).
Proof.
  intros (w & [i Hi]%list_elem_of_lookup & ->%worker_item_Some)%list_elem_of_omap. eauto.
Qed.

(** The goroutine that is about to send a result. *)
Lemma result_worker c r :
  r ∈ omap worker_result (workers c) → ∃ i, workers c !! i = Some (WSend r).
Proof.
  intros (w & [i Hi]%list_elem_of_lookup & ->%worker_result_Some)%list_elem_of_omap. eauto.
Qed.

Lemma spawn_all_eq todo c :
  spawn_all todo c =
    {| remote := remote c; results := results c;
       workers := workers c ++ ((λ f, WStart f.1 f.2) <$> todo);
       main := main c; calls := calls c; out := out c |}.
Proof.
  revert c. induction todo as [|f todo IH]; intros c; simpl.
  - rewrite app_nil_r. by destruct c.
  - rewrite IH. simpl. by rewrite <-app_assoc.
Qed.

Lemma omap_item_starts (todo : list (string * string)) :
  omap worker_item ((λ f, WStart f.1 f.2) <$> todo) = todo.
Proof. induction todo as [|[p ct] todo IH]; simpl; [done|]. by f_equal. Qed.

Lemma omap_result_starts (todo : list (string * string)) :
  omap worker_result ((λ f, WStart f.1 f.2) <$> todo) = [].
Proof. induction todo as [|[p ct] todo IH]; simpl; done. Qed.

(** Every goroutine whose file is uploaded and whose result is sent has
    returned. *)
Lemma no_item_no_result_done c :
  omap worker_item (workers c) = [] → omap worker_result (workers c) = [] → all_done c.
Proof.
  unfold all_done. induction (workers c) as [|w ws IH]; simpl; [done|].
  destruct w; simpl; try done. intros ??. constructor; [done|]. by apply IH.
Qed.

(** A configuration in which the caller and every goroutine have returned
    does not move. *)
Lemma returned_all_done_quiescent c : returned c = true → all_done c → quiescent c.
Proof.
  intros Hret Hd. apply quiescent_enabled.
  destruct (enabled c) as [|t en] eqn:Hen; [done|].
  assert (t ∈ enabled c) as [c' Hc']%elem_of_enabled by (rewrite Hen; left).
  pose proof (returned_all_done_run c [0] Hret Hd) as Hrun. simpl in Hrun.
  destruct (sched_step 0 c) as [c1|] eqn:Hs.
  - apply sched_step_step, measure_step in Hs. rewrite Hrun in Hs. lia.
  - apply sched_step_None in Hs. congruence.
Qed.

(** ** The stages of the run *)

(** The caller starts the goroutines of the files still to visit, lines
    35-47. *)
Lemma set_main_spawn_all p q todo c :
  set_main p (spawn_all todo (set_main q c)) = set_main p (spawn_all todo c).
Proof. revert c. induction todo as [|f todo IH]; intros c; [done|]. apply (IH (spawn _ c)). Qed.

Lemma spawn_run c ref todo :
  main c = enter_loop ref todo →
  rtc step c (set_main (PCollect ref 0 []) (spawn_all todo c)).
Proof.
  revert c. induction todo as [|[p ct] todo IH]; intros c Hm; simpl in *.
  - destruct c; simpl in *; subst. apply rtc_refl.
  - eapply rtc_l; [by apply rule_step, R_spawn|].
    rewrite <-(set_main_spawn_all _ (enter_loop ref todo)). by apply IH.
Qed.

Lemma upload_all_cons p ct U s a s1 :
  CreateBlob client owner repo (blob_request ct) s = (a, s1) →
  upload_all ((p, ct) :: U) s = (blob_result p a :: (upload_all U s1).1, (upload_all U s1).2).
Proof. intros Hb. simpl. rewrite Hb. by destruct (upload_all U s1). Qed.

(** The goroutines of the files [U] make their calls in the order of [U],
    lines 37-40; the goroutines of the files [X] wait. *)
Lemma upload_run c U X :
  U ++ X ≡ₚ omap worker_item (workers c) →
  ∃ c', rtc step c c' ∧ main c' = main c ∧ results c' = results c ∧ out c' = out c ∧
    calls c' = calls c ++ upload_calls U ∧
    remote c' = (upload_all U (remote c)).2 ∧
    omap worker_result (workers c') ≡ₚ
      omap worker_result (workers c) ++ (upload_all U (remote c)).1 ∧
    omap worker_item (workers c') ≡ₚ X.
Proof.
  revert c. induction U as [|[p ct] U IH]; intros c HU.
  { exists c. by rewrite !app_nil_r. }
  destruct (item_worker c p ct) as [i Hi]; [rewrite <-HU; left|].
  destruct (CreateBlob client owner repo (blob_request ct) (remote c)) as [a s] eqn:Hb.
  set (c1 := set_worker i (WSend (blob_result p a)) (called (blob_call ct) s c)).
  destruct (IH c1) as (c' & Hrun & Hm & Hres & Hout & Hcalls & Hrem & Hrs & Hit).
  { apply (inj (cons (p, ct))). rewrite HU. by apply (omap_insert_None _ _ _ (WStart p ct)). }
  exists c'. rewrite (upload_all_cons p ct U _ a s Hb).
  split_and!; try done.
  - eapply rtc_l; [by apply rule_step, R_blob|done].
  - rewrite Hcalls. simpl. by rewrite <-app_assoc.
  - rewrite Hrs. simpl.
    rewrite (omap_insert_Some _ _ _ (WStart p ct) _ (blob_result p a)); [solve_perm|done..].
Qed.

(** The goroutines with the results [π] send them in the order of [π],
    line 45: the buffer has room for each. *)
Lemma send_run c π X :
  π ++ X ≡ₚ omap worker_result (workers c) →
  length (buf (results c)) + length π ≤ cap (results c) →
  ∃ c', rtc step c c' ∧ main c' = main c ∧ remote c' = remote c ∧
    calls c' = calls c ∧ out c' = out c ∧
    results c' = {| cap := cap (results c); buf := buf (results c) ++ π |} ∧
    omap worker_result (workers c') ≡ₚ X ∧
    omap worker_item (workers c') = omap worker_item (workers c).
Proof.
  revert c. induction π as [|r π IH]; intros c Hπ Hcap.
  { exists c. rewrite app_nil_r. by destruct (results c). }
  destruct (result_worker c r) as [i Hi]; [rewrite <-Hπ; left|].
  set (ch := {| cap := cap (results c); buf := buf (results c) ++ [r] |}).
  assert (chan_send r (results c) = Some ch) as Hs.
  { apply chan_send_Some. unfold chan_len. simpl in Hcap. split; [lia|done]. }
  destruct (IH (set_worker i WDone (set_results ch c)))
    as (c' & Hrun & Hm & Hrem & Hcalls & Hout & Hres & Hrs & Hit).
  { apply (inj (cons r)). rewrite Hπ. by apply (omap_insert_None _ _ _ (WSend r)). }
  { simpl in *. rewrite length_app. simpl. lia. }
  exists c'. split_and!; try done.
  - eapply rtc_l; [by apply rule_step, (R_send c i r ch)|done].
  - rewrite Hres. simpl. by rewrite <-app_assoc.
  - rewrite Hit. simpl. by apply (omap_insert_same _ _ _ (WSend r)).
Qed.

(** The caller receives the results in the buffer, lines 51-62: to the
    first failed one, where it returns, or to the last. *)
Lemma recv_run c ref i entries rs :
  main c = PCollect ref i entries → buf (results c) = rs → i + length rs ≤ length files →
  ∃ c', rtc step c c' ∧ workers c' = workers c ∧ remote c' = remote c ∧
    calls c' = calls c ∧ out c' = out c ∧
    main c' = match gather rs with
              | Ok es => PCollect ref (i + length rs) (entries ++ es)
              | Err e => PReturn (Some e)
              end.
Proof.
  revert c i entries. induction rs as [|r rs IH]; intros c i entries Hm Hb Hi.
  { exists c. simpl. by rewrite Nat.add_0_r, app_nil_r. }
  set (ch := {| cap := cap (results c); buf := rs |}).
  assert (chan_recv (results c) = Some (r, ch)) as Hr by (by apply chan_recv_Some).
  simpl in Hi. simpl. destruct (err r) as [e|] eqn:He.
  { eexists. split; [by apply rtc_once, rule_step, (R_recv_err c ref i entries r ch e); [|lia|..]|].
    done. }
  destruct (IH (set_main (PCollect ref (i + 1) (entries ++ [tree_entry r])) (set_results ch c))
              (i + 1) (entries ++ [tree_entry r])) as (c' & Hrun & Hw & Hrem & Hcalls & Hout & Hm');
    [done|done|lia|].
  exists c'. split_and!; try done.
  - eapply rtc_l; [by apply rule_step, (R_recv_ok c ref i entries r ch); [|lia|..]|done].
  - rewrite Hm'. destruct (gather rs) as [es|e]; simpl; [|done].
    rewrite <-app_assoc. simpl. f_equal. lia.
Qed.

(** Past the loops the caller goes on alone, lines 65-89. *)
Lemma update_run c ref commit :
  main c = PUpdateRef ref commit →
  ∃ c', rtc step c c' ∧ returned c' = true ∧ workers c' = workers c ∧
    result_of c' = seq_update ref commit (remote c) (calls c) (out c).
Proof.
  intros Hm. unfold seq_update.
  destruct (UpdateRef client owner repo ref force (remote c)) as [[r|e] s] eqn:Hu.
  - eexists. split; [by eapply rtc_once, rule_step, R_update_ok|done].
  - eexists. split; [by eapply rtc_once, rule_step, R_update_err|done].
Qed.

Lemma commit_run c ref tree :
  main c = PCreateCommit ref tree →
  ∃ c', rtc step c c' ∧ returned c' = true ∧ workers c' = workers c ∧
    result_of c' = seq_commit ref tree (remote c) (calls c) (out c).
Proof.
  intros Hm. unfold seq_commit.
  destruct (CreateCommit client owner repo (newCommit commitMessage tree) (remote c))
    as [[commit|e] s] eqn:Hc; [destruct (set_ref_sha ref commit) as [ref'|] eqn:Hset|].
  - destruct (update_run (set_main (PUpdateRef ref' commit) (called (commit_call tree) s c))
                ref' commit eq_refl) as (c' & Hrun & Hret & Hw & Hres).
    exists c'. split; [|done]. eapply rtc_l; [by eapply rule_step, R_commit_ok|done].
  - eexists. split; [by eapply rtc_once, rule_step, R_commit_panic|done].
  - eexists. split; [by eapply rtc_once, rule_step, R_commit_err|done].
Qed.

Lemma tree_run c ref i entries :
  main c = PCollect ref i entries → length files ≤ i →
  ∃ c', rtc step c c' ∧ returned c' = true ∧ workers c' = workers c ∧
    result_of c' = seq_tree ref entries (remote c) (calls c) (out c).
Proof.
  intros Hm Hi. unfold seq_tree.
  destruct (CreateTree client owner repo baseTreeSHA entries (remote c)) as [[tree|e] s] eqn:Ht.
  - destruct (commit_run (set_main (PCreateCommit ref tree) (called (tree_call entries) s c))
                ref tree eq_refl) as (c' & Hrun & Hret & Hw & Hres).
    exists c'. split; [|done]. eapply rtc_l; [by eapply rule_step, R_tree_ok|done].
  - eexists. split; [by eapply rtc_once, rule_step, R_tree_err|done].
Qed.

(** The two loops: every goroutine started, the files uploaded in the
    order [U], the results sent in the order [π]. *)
Lemma spawn_upload_send c ref U π :
  main c = enter_loop ref files → workers c = [] → results c = make_results →
  U ≡ₚ files → π ≡ₚ (upload_all U (remote c)).1 →
  ∃ c', rtc step c c' ∧ all_done c' ∧ main c' = PCollect ref 0 [] ∧ buf (results c') = π ∧
    out c' = out c ∧ calls c' = calls c ++ upload_calls U ∧
    remote c' = (upload_all U (remote c)).2.
Proof.
  intros Hm Hw Hres HU Hπ. pose proof (spawn_run c ref files Hm) as Hrun2. revert Hrun2.
  rewrite spawn_all_eq, Hw, Hres. simpl.
  set (c2 := set_main _ _). intros Hrun2.
  destruct (upload_run c2 U [])
    as (c3 & Hrun3 & Hm3 & Hres3 & Hout3 & Hcalls3 & Hrem3 & Hrs3 & Hit3).
  { simpl. by rewrite omap_item_starts, app_nil_r. }
  simpl in *. rewrite omap_result_starts in Hrs3. simpl in Hrs3.
  destruct (send_run c3 π []) as (c4 & Hrun4 & Hm4 & Hrem4 & Hcalls4 & Hout4 & Hres4 & Hrs4 & Hit4).
  { by rewrite app_nil_r, Hrs3, Hπ. }
  { rewrite Hres3, Hπ, upload_all_length, HU. simpl. lia. }
  exists c4. rewrite Hres4, Hres3, Hm4, Hm3, Hrem4, Hcalls4, Hout4. split_and!; try done.
  - by do 2 (etrans; [eassumption|]).
  - apply no_item_no_result_done; [rewrite Hit4|]; by apply Permutation_nil_r.
Qed.

(** The receiving loop over a full buffer and what follows it. *)
Lemma collect_run c ref π :
  main c = PCollect ref 0 [] → buf (results c) = π → length π = length files →
  ∃ c', rtc step c c' ∧ returned c' = true ∧ workers c' = workers c ∧
    result_of c' = match gather π with
                   | Err e => (Returned (Some e), remote c, calls c, out c)
                   | Ok es => seq_tree ref es (remote c) (calls c) (out c)
                   end.
Proof.
  intros Hm Hb Hlen.
  destruct (recv_run c ref 0 [] π Hm Hb) as (c5 & Hrun & Hw & Hrem & Hcalls & Hout & Hm5); [lia|].
  destruct (gather π) as [es|e].
  - destruct (tree_run c5 ref _ _ Hm5) as (c6 & Hrun6 & Hret & Hw6 & Hres); [simpl; lia|].
    exists c6. rewrite Hres, Hw6, Hrem, Hcalls, Hout. split_and!; try done. by etrans.
  - exists c5. unfold returned, result_of, outcome_of. by rewrite Hm5, Hrem, Hcalls, Hout.
Qed.

(** The sequential program as a run of the machine: for every order of the
    uploads and of the results a run in which the caller and every
    goroutine have returned leaves what the sequential program leaves. *)
Lemma sequential_run s0 seed_u seed_r :
  ∃ c, reachable s0 c ∧ returned c = true ∧ all_done c ∧
    result_of c = sequential seed_u seed_r s0.
Proof.
  unfold sequential, reachable.
  destruct (GetRef client owner repo (branch_ref branch) s0) as [[ref|e] s1] eqn:Hg.
  2:{ eexists. split; [by eapply rtc_once, rule_step, R_getref_err|].
      split_and!; [done|by constructor|done]. }
  set (c1 := set_main (enter_loop ref files)
               (set_results make_results (called getref_call s1 (init s0)))).
  destruct (upload_all (shuffle seed_u files) s1) as [rs s] eqn:Hup.
  destruct (spawn_upload_send c1 ref (shuffle seed_u files) (shuffle seed_r rs))
    as (c4 & Hrun4 & Hd & Hm4 & Hb4 & Hout4 & Hcalls4 & Hrem4);
    [done|done|done|apply shuffle_perm|simpl; rewrite Hup; apply shuffle_perm|].
  destruct (collect_run c4 ref _ Hm4 Hb4) as (c6 & Hrun6 & Hret & Hw6 & Hres).
  { rewrite shuffle_length. rewrite <-(shuffle_length seed_u files), <-(upload_all_length _ s1).
    by rewrite Hup. }
  exists c6. rewrite Hres, Hrem4, Hcalls4, Hout4. simpl. rewrite Hup. split_and!; try done.
  - eapply rtc_l; [by eapply rule_step, R_getref_ok|]. by etrans.
  - unfold all_done. by rewrite Hw6.
Qed.

End complete.

(** ** The properties *)

Section complete_properties.
Context {S : Type} `{GitService S} {args : Args}.

(** C8. The concurrent function and the sequential program have the same
    results: what a complete run leaves under some schedule is what the
    sequential program leaves for some order of the uploads and of the
    results, and conversely. *)
Theorem complete_runs_iff_sequential (s0 : S) (r : run_result S) :
  (∃ sched, quiescent (run sched (init s0)) ∧ result_of (run sched (init s0)) = r) ↔
  (∃ seed_u seed_r, sequential seed_u seed_r s0 = r).
Proof.
  split.
  - intros (sched & Hq & <-). pose proof (reachable_run s0 sched) as Hr.
    destruct (quiescent_done _ (inv_reachable s0 _ Hr) Hq) as [Hret Hd].
    by apply returned_sequential; [apply refine_inv_reachable|..].
  - intros (su & sr & <-). destruct (sequential_run s0 su sr) as (c & Hr & Hret & Hd & Hres).
    destruct (rtc_step_run _ _ Hr) as [sched <-]. exists sched.
    split; [by apply returned_all_done_quiescent|done].
Qed.

End complete_properties.
