(* ===== verification/EndToEnd.v ===== *)
(** * The effect of a call on a repository

    [commitMultipleFiles] on the reference implementation of the service
    ([MemGit]): when the server serves the client (no fault, the accepted
    token, the repository of the store), the branch exists and there is a
    file to commit, every run returns nil and leaves the branch on a commit
    without parent whose tree holds exactly the files, under every order of
    the map and every schedule.  The proof goes through the sequential
    program, which the machine refines.  When the branch does not exist
    every run returns the error of [GetRef] and leaves the server as it
    was: the function does not create a branch. *)

From stdpp Require Import prelude strings list gmap relations.
From S2P Require Import Prelude GoError Channel GoMap GitTypes GitService Machine.
From S2P Require Import MemGit Examples Semantics Sequential Invariants Refinement.

(** The result of an upload the server accepted. *)
Definition uploaded (f : string * string) : blobResult :=
  BlobResult f.1 (sha_blob f.2) None.

(** The blobs of the store after the uploads of [U]. *)
Definition with_blobs (U : list (string * string)) (b : gmap string string)
    : gmap string string :=
  foldl (λ b f, <[sha_blob f.2 := f.2]> b) b U.

(** What a successful call leaves on the branch [ref] of the store [s]: a
    commit without parent, with the message given, whose tree holds the
    files [fs]. *)
Definition committed (s : store) (ref message : string) (fs : gmap string string) : Prop :=
  checkout s ref = Some fs ∧
  ∃ commit, head_commit s ref = Some commit ∧
    Commit.Parents commit = [] ∧ Commit.Message commit = Some message.

Section end_to_end.
Context {args : Args}.
Implicit Types (s : store) (U : list (string * string)).

Lemma set_blobs_id s : set_blobs (blobs s) s = s.
Proof. by destruct s. Qed.

Lemma sha_blob_inj c1 c2 : sha_blob c1 = sha_blob c2 → c1 = c2.
Proof. apply (inj (String.app "b:")). Qed.

Lemma with_blobs_lookup U b p ct :
  (p, ct) ∈ U ∨ b !! sha_blob ct = Some ct → with_blobs U b !! sha_blob ct = Some ct.
Proof.
  revert b. induction U as [|[q cq] U IH]; intros b [Hin|Hb]; simpl.
  - by apply elem_of_nil in Hin.
  - done.
  - apply IH. apply elem_of_cons in Hin as [[= -> ->]|Hin]; [right|by left].
    apply lookup_insert_eq.
  - apply IH. right. destruct (decide (cq = ct)) as [->|Hne]; [apply lookup_insert_eq|].
    rewrite lookup_insert_ne; [done|]. by intros ?%sha_blob_inj.
Qed.

(** On a server that serves the client every upload goes well. *)
Lemma upload_all_mem U s :
  serves client owner repo s →
  upload_all U s = (uploaded <$> U, set_blobs (with_blobs U (blobs s)) s).
Proof.
  revert s. induction U as [|[p ct] U IH]; intros s Hs; simpl.
  - by rewrite set_blobs_id.
  - destruct (mem_CreateBlob_serves client owner repo s (blob_request ct) ct Hs)
      as (b & Hb & Hsha); [done..|].
    rewrite Hb, IH by done. unfold blob_result, uploaded, Blob.GetSHA. by rewrite Hsha.
Qed.

Lemma valid_uploaded s f :
  blobs s !! sha_blob f.2 = Some f.2 → valid_entry s (tree_entry (uploaded f)) = true.
Proof.
  intros Hb. unfold valid_entry, tree_entry, uploaded, String_. simpl. rewrite Hb.
  repeat (apply andb_true_intro; split); by apply bool_decide_eq_true_2.
Qed.

Lemma entry_file_uploaded s f :
  blobs s !! sha_blob f.2 = Some f.2 → entry_file s (tree_entry (uploaded f)) = Some f.
Proof.
  intros Hb. unfold entry_file, tree_entry, uploaded, String_. simpl. rewrite Hb. by destruct f.
Qed.

(** The three last calls on a server that serves the client, for entries
    the server accepts and a reference of the store. *)
Lemma seq_tree_mem ref entries s log o name obj old :
  serves client owner repo s → entries ≠ [] → forallb (valid_entry s) entries = true →
  Reference.Ref ref = Some name → Reference.Object ref = Some obj →
  refs s !! name = Some old →
  ∃ s' log' o' commit,
    seq_tree ref entries s log o = (Returned None, s', log', o') ∧
    blobs s' = blobs s ∧ trees s' !! sha_tree entries = Some entries ∧
    head_commit s' name = Some commit ∧ Commit.Parents commit = [] ∧
    Commit.Message commit = Some commitMessage ∧
    Commit.Tree commit ≫= Tree.SHA = Some (sha_tree entries).
Proof.
  intros Hs Hne Hv Hname Hobj Hold. unfold seq_tree.
  change (CreateTree client owner repo baseTreeSHA entries s)
    with (mem_CreateTree client owner repo "" entries s).
  rewrite (mem_CreateTree_serves client owner repo s entries Hs Hne Hv).
  set (tree := Tree.Build _ _ _). set (s1 := set_trees _ s).
  destruct (mem_CreateCommit_serves client owner repo s1 (newCommit commitMessage tree)
              (sha_tree entries) commitMessage)
    as (stored & Hc & Hsha & Hpar & Hmsg & Htree); [done..|by simpl; rewrite lookup_insert_eq|].
  unfold seq_commit.
  change (CreateCommit client owner repo (newCommit commitMessage tree) s1)
    with (mem_CreateCommit client owner repo (newCommit commitMessage tree) s1).
  rewrite Hc. unfold set_ref_sha. rewrite Hobj. unfold seq_update.
  set (ref' := Reference.set_Object _ ref). set (s2 := set_commits _ s1).
  destruct (mem_UpdateRef_forced client owner repo s2 ref' name
              (sha_commit (sha_tree entries) [] commitMessage) old)
    as (r & Hu); [done|done|by simpl; rewrite Hsha|done|by simpl; rewrite lookup_insert_eq|].
  change (UpdateRef client owner repo ref' force s2)
    with (mem_UpdateRef client owner repo ref' true s2).
  rewrite Hu. eexists _, _, _, stored. split_and!; try done.
  - simpl. apply lookup_insert_eq.
  - unfold head_commit. simpl. rewrite lookup_insert_eq. simpl. apply lookup_insert_eq.
Qed.

(** The sequential program on a server that serves the client. *)
Lemma sequential_mem s0 old seed_u seed_r :
  serves client owner repo s0 → refs s0 !! branch_ref branch = Some old →
  files ≠ [] → NoDup files.*1 →
  ∃ s' log o,
    sequential seed_u seed_r s0 = (Returned None, s', log, o) ∧
    committed s' (branch_ref branch) commitMessage (list_to_map files).
Proof.
  intros Hs Hold Hne Hnd.
  destruct (mem_GetRef_serves client owner repo s0 _ _ Hs Hold) as (ref & Hg & Hname & [obj Hobj]).
  unfold sequential.
  change (GetRef client owner repo (branch_ref branch) s0)
    with (mem_GetRef client owner repo (branch_ref branch) s0).
  rewrite Hg, (upload_all_mem _ s0 Hs), shuffle_fmap.
  set (R := shuffle seed_r (shuffle seed_u files)). set (s1 := set_blobs _ s0).
  assert (R ≡ₚ files) as HR by (unfold R; by rewrite !shuffle_perm).
  assert (∀ f, f ∈ R → blobs s1 !! sha_blob f.2 = Some f.2) as Hblobs.
  { intros [p ct] Hin. apply (with_blobs_lookup _ _ p). left.
    unfold R in Hin. by rewrite shuffle_perm in Hin. }
  assert (gather (uploaded <$> R) = Ok (tree_entry <$> (uploaded <$> R))) as ->.
  { apply gather_Ok. split; [done|]. by apply Forall_fmap, Forall_true. }
  destruct (seq_tree_mem ref (tree_entry <$> (uploaded <$> R)) s1
              ([getref_call] ++ upload_calls (shuffle seed_u files)) []
              (branch_ref branch) obj old)
    as (s' & log' & o' & commit & -> & Hb & Ht & Hh & Hp & Hm & Htr); [done| | |done..|].
  - intros Hnil%fmap_nil_inv%fmap_nil_inv. rewrite Hnil in HR.
    by apply Permutation_nil_l in HR.
  - apply forallb_true_Forall, Forall_fmap, Forall_fmap, Forall_forall.
    intros f Hf. by apply valid_uploaded, Hblobs.
  - exists s', log', o'. split; [done|]. split; [|by exists commit].
    unfold checkout. rewrite Hh. simpl. rewrite Htr. simpl. rewrite Ht. simpl.
    assert (mapM (entry_file s') (tree_entry <$> (uploaded <$> R)) = Some R) as ->.
    { apply mapM_Some. rewrite <-list_fmap_compose.
      apply Forall2_fmap_l, Forall_Forall2_diag, Forall_forall.
      intros f Hf. apply entry_file_uploaded. rewrite Hb. by apply Hblobs. }
    simpl. f_equal. apply list_to_map_proper; [by rewrite HR|done].
Qed.

(** A returned caller on a server that serves the client: none of the
    calls failed. *)
Lemma returned_committed s0 (c : config store) old :
  serves client owner repo s0 → refs s0 !! branch_ref branch = Some old →
  files ≠ [] → NoDup files.*1 →
  reachable s0 c → returned c = true →
  outcome_of c = Returned None ∧
  committed (remote c) (branch_ref branch) commitMessage (list_to_map files).
Proof.
  intros Hs Hold Hne Hnd Hri%refine_inv_reachable Hret.
  destruct (mem_GetRef_serves client owner repo s0 _ _ Hs Hold) as (ref & Hg & _).
  change (mem_GetRef client owner repo (branch_ref branch) s0)
    with (GetRef client owner repo (branch_ref branch) s0) in Hg.
  destruct (returned_cases s0 c Hri Hret) as [(e & Hm & [Hf|Hb])|Hc].
  - destruct Hf as (e0 & Hf & _). by rewrite Hg in Hf.
  - apply blob_failed_cause in Hb as (U1 & p & ct & U2 & e0 & _ & _ & Ha & _).
    unfold after_getref in Ha. rewrite Hg in Ha. simpl in Ha.
    rewrite (upload_all_mem U1 s0 Hs) in Ha.
    destruct (mem_CreateBlob_serves client owner repo
                (set_blobs (with_blobs U1 (blobs s0)) s0) (blob_request ct) ct)
      as (b & Hb & _); [done..|].
    simpl in Ha. change (@CreateBlob store mem_service) with mem_CreateBlob in Ha.
    by rewrite Hb in Ha.
  - destruct (concluded_sequential s0 c Hc Hret) as (su & sr & Heq).
    destruct (sequential_mem s0 old su sr Hs Hold Hne Hnd) as (s' & log & o & Hseq & Hcom).
    rewrite Hseq in Heq. unfold result_of in Heq. by simplify_eq.
Qed.

(** A returned caller on a server without the branch: [GetRef] failed. *)
Lemma returned_missing s0 (c : config store) :
  serves client owner repo s0 → refs s0 !! branch_ref branch = None →
  reachable s0 c → returned c = true →
  result_of c =
    (Returned (Some (errGetRef (errorString "404 Not Found"))), s0, [getref_call], []).
Proof.
  intros Hs Hnone Hri%refine_inv_reachable Hret.
  pose proof (mem_GetRef_missing client owner repo s0 _ Hs Hnone) as Hg.
  change (mem_GetRef client owner repo (branch_ref branch) s0)
    with (GetRef client owner repo (branch_ref branch) s0) in Hg.
  by destruct (getref_error_returned s0 c _ _ Hri Hret Hg).
Qed.

End end_to_end.

(** C2. On a server that serves the client, for a branch that exists and
    at least one file, [commitMultipleFiles] returns nil and leaves the
    branch on a commit without parent, with the message given, whose tree
    holds exactly the files: each path with its own content and nothing
    else, what was on the branch before included.  This holds for every
    order of the map and every schedule of the goroutines. *)
Theorem commitMultipleFiles_commits (client : Client) (owner repo branch : string)
    (files : gmap string string) (commitMessage : string) (seed sched : list nat)
    (s0 : store) (old : string) :
  serves client owner repo s0 → refs s0 !! branch_ref branch = Some old → files ≠ ∅ →
  let c := commitMultipleFiles client owner repo branch files commitMessage seed sched s0 in
  outcome_of c = Returned None ∧
  committed (remote c) (branch_ref branch) commitMessage files.
Proof.
  intros Hs Hold Hne. unfold commitMultipleFiles. set (args := Build_Args _ _ _ _ _ _).
  rewrite <-(range_order_to_map seed files) at 3.
  apply (returned_committed (args := args) s0 _ old); try done; simpl.
  - intros Hnil%(f_equal length). rewrite range_order_length in Hnil.
    by apply map_size_empty_inv in Hnil.
  - apply range_order_NoDup_keys.
  - apply reachable_run_main.
  - eapply run_main_returned; [apply rtc_refl|]. rewrite measure_init. simpl.
    by rewrite range_order_length.
Qed.

(** C11. A branch that does not exist is not created: on a server that
    serves the client but has no such branch, [commitMultipleFiles] returns
    the error of [GetRef] (not found) wrapped at line 20, for every order
    of the map and every schedule; [GetRef] is the only call it has made,
    nothing is printed, and the server is as it was: no blob was uploaded
    and no reference exists that did not. *)
Theorem commitMultipleFiles_missing_branch (client : Client) (owner repo branch : string)
    (files : gmap string string) (commitMessage : string) (seed sched : list nat)
    (s0 : store) :
  serves client owner repo s0 → refs s0 !! ("refs/heads/" +:+ branch) = None →
  let c := commitMultipleFiles client owner repo branch files commitMessage seed sched s0 in
  outcome_of c = Returned (Some (wrapError "GetRef: 404 Not Found" (errorString "404 Not Found"))) ∧
  calls c = [CallGetRef owner repo ("refs/heads/" +:+ branch)] ∧
  out c = [] ∧ remote c = s0.
Proof.
  intros Hs Hnone. cbv zeta.
  pose proof (commitMultipleFiles_returned client owner repo branch files commitMessage
                seed sched s0) as Hret.
  revert Hret. unfold commitMultipleFiles. set (args := Build_Args _ _ _ _ _ _). intros Hret.
  pose proof (returned_missing (args := args) s0 _ Hs Hnone (reachable_run_main _ _ _) Hret)
    as Hres.
  unfold result_of in Hres. injection Hres as Ho Hr Hc Hout. by split_and!.
Qed.

Lemma commitMultipleFiles_commits_witness :
  let c := commitMultipleFiles (NewClient "tok") "Santosh-etailify" "gitapis6" "main"
             ex_files "two files" [1] [0; 1; 0; 2; 1] ex_store in
  outcome_of c = Returned None ∧
  committed (remote c) "refs/heads/main" "two files" ex_files.
Proof.
  apply (commitMultipleFiles_commits (NewClient "tok") "Santosh-etailify" "gitapis6" "main"
           ex_files "two files" [1] [0; 1; 0; 2; 1] ex_store
           (sha_commit (sha_tree (default [] (trees ex_store !! "t:100644 README.md=b:# old;")))
              [] "init")).
  - vm_compute. done.
  - vm_compute. reflexivity.
  - intros Hnil%(f_equal size). vm_compute in Hnil. discriminate.
Defined.

Lemma commitMultipleFiles_missing_branch_witness :
  let c := commitMultipleFiles (NewClient "tok") "Santosh-etailify" "gitapis6" "gh-pages"
             ex_files "two files" [1] [0; 1; 0; 2; 1] ex_store in
  outcome_of c = Returned (Some (wrapError "GetRef: 404 Not Found" (errorString "404 Not Found"))) ∧
  calls c = [CallGetRef "Santosh-etailify" "gitapis6" ("refs/heads/" +:+ "gh-pages")] ∧
  out c = [] ∧ remote c = ex_store.
Proof.
  apply (commitMultipleFiles_missing_branch (NewClient "tok") "Santosh-etailify" "gitapis6"
           "gh-pages" ex_files "two files" [1] [0; 1; 0; 2; 1] ex_store).
  - vm_compute. done.
  - vm_compute. reflexivity.
Defined.
