(* ===== verification/Main.v ===== *)
(** * [main]

    The function [main] of [src/main.go], lines 92-147, as a function of
    the world it runs in: the environment, the local files, the server,
    the order of the map, the schedule of the goroutines and the duration
    measured.  It gives the exit status of the process, what it wrote on
    the standard output and through [log], and the server it leaves.

    [log.Fatal] and [log.Fatalf] write their message and exit with status 1;
    a panic exits with status 2; the return of [main] exits with status 0.
    In each case the goroutines that are still running stop where they
    are: [late] schedules the steps they take between the return of
    [commitMultipleFiles] and the exit.  The time stamp [log] puts before
    a message and the trace printed after a panic are left out. *)

From stdpp Require Import prelude strings list gmap relations.
From S2P Require Import Prelude GoError Channel GoMap GitTypes GitService Machine.
From S2P Require Import MemGit Examples Semantics Sequential Invariants Refinement EndToEnd.

(** The world of a run: the environment variables, [os.ReadFile], the
    server, and what the run does not decide: the order of [range], the
    schedule up to the return of [commitMultipleFiles] and after it, and
    the text [%v] prints for the duration measured. *)
Record world (S : Type) : Type := World {
  environ : gmap string string;
  ReadFile : string → answer string;
  server : S;
  seed : list nat;
  sched : list nat;
  late : list nat;
  elapsed : string
}.

Arguments World {S}.
Arguments environ {S}.
Arguments ReadFile {S}.
Arguments server {S}.
Arguments seed {S}.
Arguments sched {S}.
Arguments late {S}.
Arguments elapsed {S}.

(** How the process ends: the exit status, or [None] while
    [commitMultipleFiles] has not returned; the lines written on the
    standard output and through [log]; the server. *)
Record ending (S : Type) : Type := Ending {
  status : option nat;
  stdout : list string;
  stderr : list string;
  left : S
}.

Arguments Ending {S}.
Arguments status {S}.
Arguments stdout {S}.
Arguments stderr {S}.
Arguments left {S}.

(** [os.Getenv]: the value of the variable, empty when it is not set. *)
Definition Getenv (environ : gmap string string) (key : string) : string :=
  default "" (environ !! key).

(** The constants of lines 99-107. *)
Definition main_owner : string := "Santosh-etailify".
Definition main_repo : string := "gitapis6".
Definition main_branch : string := "main".
Definition main_commitMessage : string :=
  "AutoInitialized main branch with a default readme file".
Definition localFiles : list string := ["main.go"].

(** The messages of lines 96, 114 and 138. *)
Definition no_token_line : string := "GITHUB_TOKEN is not set in the environment".
Definition read_failed_line (localPath : string) (err : error) : string :=
  "Failed to read " +:+ localPath +:+ ": " +:+ Error err.
Definition upsert_failed_line (err : error) : string :=
  "Failed to upsert files: " +:+ Error err.

(** The line of line 141. *)
Definition took_line (duration : string) : string :=
  "⏱️  upsertMultipleFilesSafe took: " +:+ duration.

(** The loop of lines 111-121: the files read into the map, or the message
    of [log.Fatalf] at the first file that cannot be read. *)
Fixpoint read_files (read : string → answer string) (paths : list string)
    (files : gmap string string) : result string (gmap string string) :=
  match paths with
  | [] => Ok files
  | localPath :: paths =>
      match read localPath with
      | Err err => Err (read_failed_line localPath err)
      | Ok content => read_files read paths (<[localPath := content]> files)
      end
  end.

(** [log.Fatal], [log.Fatalf]: the message, then [os.Exit(1)]. *)
Definition fatal {S} (line : string) (out : list string) (s : S) : ending S :=
  {| status := Some 1; stdout := out; stderr := [line]; left := s |}.

Section main.
Context {S : Type} `{GitService S}.

(** The arguments of the call of line 136. *)
Definition main_args (token : string) (files : gmap string string) (seed : list nat) : Args :=
  {| client := NewClient token; owner := main_owner; repo := main_repo;
     branch := main_branch; files := range_order seed files;
     commitMessage := main_commitMessage |}.

(** Lines 134-141, from the return of [commitMultipleFiles] in the
    configuration [c] to the exit in the configuration [c']. *)
Definition report (w : world S) (c c' : config S) : ending S :=
  match outcome_of c with
  | Returned (Some err) => fatal (upsert_failed_line err) (out c) (remote c')
  | Returned None =>
      {| status := Some 0; stdout := out c ++ [took_line (elapsed w)]; stderr := [];
         left := remote c' |}
  | Panicked msg =>
      {| status := Some 2; stdout := out c; stderr := ["panic: " +:+ msg]; left := remote c' |}
  | Running => {| status := None; stdout := out c; stderr := []; left := remote c' |}
  end.

(** [main], lines 92-147. *)
Definition main (w : world S) : ending S :=
  let token := Getenv (environ w) "GITHUB_TOKEN" in
  if bool_decide (token = "") then fatal no_token_line [] (server w)
  else
    match read_files (ReadFile w) localFiles ∅ with
    | Err line => fatal line [] (server w)
    | Ok files =>
        let c :=
          commitMultipleFiles (NewClient token) main_owner main_repo main_branch files
            main_commitMessage (seed w) (sched w) (server w) in
        report w c (run (args := main_args token files (seed w)) (late w) c)
    end.

End main.

(** ** Lemmas *)

Section main_lemmas.
Context {S : Type} `{GitService S}.
Implicit Types (w : world S).

(** The configuration in which [commitMultipleFiles] returns is one of a
    run with the arguments of [main]. *)
Lemma main_call_reachable token files seed sched (s : S) :
  reachable (args := main_args token files seed) s
    (commitMultipleFiles (NewClient token) main_owner main_repo main_branch files
       main_commitMessage seed sched s).
Proof. apply reachable_run_main. Qed.

(** What [report] gives for a configuration in which the caller has
    returned: a status, and on the standard output the two lines of a
    commit made or nothing. *)
Lemma report_returned w s0 (args : Args) (c c' : config S) :
  reachable s0 c → returned c = true →
  match status (report w c c') with
  | Some 0 =>
      outcome_of c = Returned None ∧ stderr (report w c c') = [] ∧
      ∃ commit, stdout (report w c c') = [created_line commit; took_line (elapsed w)]
  | Some 1 =>
      stdout (report w c c') = [] ∧
      ∃ err, outcome_of c = Returned (Some err) ∧
        stderr (report w c c') = [upsert_failed_line err]
  | Some 2 =>
      stdout (report w c c') = [] ∧
      ∃ msg, outcome_of c = Panicked msg ∧ stderr (report w c c') = ["panic: " +:+ msg]
  | _ => False
  end.
Proof.
  intros Hri%refine_inv_reachable Hret.
  destruct (returned_out s0 c Hri Hret) as [[Hne Ho]|[Hnil [commit Ho]]];
    unfold report, returned, outcome_of in *; rewrite Ho;
    destruct (Machine.main c) as [| | | | |[e|]|msg]; simpl; try done; eauto.
Qed.

End main_lemmas.

(** ** The properties *)

Section main_properties.
Context {S : Type} `{GitService S}.

(** C18. [main] makes no call without a token or when a local file cannot
    be read: it exits with status 1 after one message, that of the missing
    token first, with nothing on the standard output and the server as it
    found it. *)
Theorem main_stops_before_calls (w : world S) :
  Getenv (environ w) "GITHUB_TOKEN" = "" ∨ (∃ err, ReadFile w "main.go" = Err err) →
  status (main w) = Some 1 ∧ stdout (main w) = [] ∧ left (main w) = server w ∧
  stderr (main w) =
    [if bool_decide (Getenv (environ w) "GITHUB_TOKEN" = "")
     then "GITHUB_TOKEN is not set in the environment"
     else "Failed to read main.go: " +:+
          match ReadFile w "main.go" with
          | Err err => Error err
          | Ok _ => ""
          end].
Proof.
  intros Hw. unfold main, read_files, localFiles. case_bool_decide as Ht; [done|].
  destruct Hw as [?|[err Hr]]; [done|]. by rewrite Hr.
Qed.

(** C17. [main] always exits, with status 0, 1 or 2.  With status 0 it has
    written the address of the commit and the duration on the standard
    output and nothing through [log]; with any other status it has written
    nothing on the standard output and one message. *)
Theorem main_exit_status (w : world S) :
  match status (main w) with
  | Some 0 =>
      stderr (main w) = [] ∧
      ∃ commit, stdout (main w) = [created_line commit; took_line (elapsed w)]
  | Some 1 | Some 2 => stdout (main w) = [] ∧ length (stderr (main w)) = 1
  | _ => False
  end.
Proof.
  unfold main. case_bool_decide as Ht; [done|].
  destruct (read_files _ _ _) as [files|line]; [|done].
  set (c := commitMultipleFiles _ _ _ _ _ _ _ _ _). set (c' := run _ c).
  pose proof (report_returned w (server w) (main_args _ files (seed w)) c c'
                (main_call_reachable _ _ _ _ _)
                (commitMultipleFiles_returned _ _ _ _ _ _ _ _ _)) as Hrep.
  destruct (status (report w c c')) as [[|[|[|n]]]|]; [|destruct Hrep as (? & ? & _ & ->)..| |];
    by destruct_and?.
Qed.

End main_properties.

(** [main] with a token and its files read: the call and the report. *)
Lemma main_with_files {S} `{GitService S} (w : world S) token files :
  environ w !! "GITHUB_TOKEN" = Some token → token ≠ "" →
  read_files (ReadFile w) localFiles ∅ = Ok files →
  main w =
    let c := commitMultipleFiles (NewClient token) main_owner main_repo main_branch files
               main_commitMessage (seed w) (sched w) (server w) in
    report w c (run (args := main_args token files (seed w)) (late w) c).
Proof.
  intros Henv Ht Hr. unfold main, Getenv. rewrite Henv, Hr. cbn [default].
  by rewrite bool_decide_eq_false_2.
Qed.

(** The call of [main] on a server that serves it. *)
Lemma main_call_committed (s0 : store) token files seed sched old :
  serves (NewClient token) main_owner main_repo s0 →
  refs s0 !! branch_ref main_branch = Some old → files ≠ ∅ →
  let c := commitMultipleFiles (NewClient token) main_owner main_repo main_branch files
             main_commitMessage seed sched s0 in
  outcome_of c = Returned None ∧ all_done c ∧ returned c = true ∧
  committed (remote c) (branch_ref main_branch) main_commitMessage files.
Proof.
  intros Hs Hold Hne c. set (args := main_args token files seed).
  assert (reachable (args := args) s0 c) as Hr by apply main_call_reachable.
  assert (returned c = true) as Hret by apply commitMultipleFiles_returned.
  destruct (returned_committed (args := args) s0 c old) as [Hout Hcom]; [done|done|..|done|done|].
  - intros Hnil%(f_equal length). unfold args in Hnil. simpl in Hnil.
    rewrite range_order_length in Hnil. by apply map_size_empty_inv in Hnil.
  - apply range_order_NoDup_keys.
  - split_and!; [done| |done|].
    + apply (success_all_done (args := args) s0); [by apply refine_inv_reachable|done].
    + unfold args in Hcom. simpl in Hcom. by rewrite range_order_to_map in Hcom.
Qed.

(** C7. With a token the server accepts, a readable [main.go] and the
    branch [main] in the repository, [main] exits with status 0 and leaves
    the branch on a parentless commit whose only file is [main.go] with the
    content read, whatever the schedule. *)
Theorem main_commits (w : world store) (token content old : string) :
  environ w !! "GITHUB_TOKEN" = Some token → token ≠ "" →
  ReadFile w "main.go" = Ok content →
  serves (NewClient token) "Santosh-etailify" "gitapis6" (server w) →
  refs (server w) !! "refs/heads/main" = Some old →
  status (main w) = Some 0 ∧ stderr (main w) = [] ∧
  committed (left (main w)) "refs/heads/main"
    "AutoInitialized main branch with a default readme file" {[ "main.go" := content ]}.
Proof.
  intros Henv Ht Hr Hs Hold.
  rewrite (main_with_files w token {[ "main.go" := content ]} Henv Ht).
  2:{ unfold read_files, localFiles. by rewrite Hr. }
  destruct (main_call_committed (server w) token {[ "main.go" := content ]} (seed w)
              (sched w) old Hs Hold) as (Hout & Hd & Hret & Hcom).
  { apply insert_non_empty. }
  cbv zeta. revert Hout Hd Hret Hcom. generalize (commitMultipleFiles (NewClient token)
    main_owner main_repo main_branch {[ "main.go" := content ]} main_commitMessage
    (seed w) (sched w) (server w)).
  intros c Hout Hd Hret Hcom. rewrite (returned_all_done_run c (late w) Hret Hd).
  unfold report. by rewrite Hout.
Qed.

(** A world: the token of the example store, a directory with [main.go]. *)
Definition ex_world : world store :=
  {| environ := {[ "GITHUB_TOKEN" := "tok" ]};
     ReadFile p :=
       if bool_decide (p = "main.go") then Ok "package main"
       else Err (errorString ("open " +:+ p +:+ ": no such file or directory"));
     server := ex_store; seed := []; sched := [0; 1; 0]; late := [2];
     elapsed := "1.2s" |}.

(** The same world without the file. *)
Definition ex_world_empty_dir : world store :=
  {| environ := {[ "GITHUB_TOKEN" := "tok" ]};
     ReadFile p := Err (errorString ("open " +:+ p +:+ ": no such file or directory"));
     server := ex_store; seed := []; sched := []; late := []; elapsed := "1.2s" |}.

Lemma main_stops_before_calls_witness :
  status (main ex_world_empty_dir) = Some 1 ∧ stdout (main ex_world_empty_dir) = [] ∧
  left (main ex_world_empty_dir) = ex_store ∧
  stderr (main ex_world_empty_dir) =
    ["Failed to read main.go: open main.go: no such file or directory"].
Proof.
  apply (main_stops_before_calls ex_world_empty_dir). right. by eexists.
Defined.

Lemma main_commits_witness :
  status (main ex_world) = Some 0 ∧ stderr (main ex_world) = [] ∧
  committed (left (main ex_world)) "refs/heads/main"
    "AutoInitialized main branch with a default readme file"
    {[ "main.go" := "package main" ]}.
Proof.
  apply (main_commits ex_world "tok" "package main"
           (sha_commit (sha_tree (default [] (trees ex_store !! "t:100644 README.md=b:# old;")))
              [] "init")).
  - reflexivity.
  - discriminate.
  - reflexivity.
  - vm_compute. done.
  - vm_compute. reflexivity.
Defined.
